(** * The Pack layout algorithm of [toga.style.pack]

    A shallow embedding of [Pack.layout], [Pack._layout_node],
    [Pack._layout_row_children] and [Pack._layout_column_children]
    (core/src/toga/style/pack.py), and the properties of the layout they
    compute.

    Modelling conventions.
    - Python numbers that may be floats (allocations, the flex weight, the
      flex quantum, running totals, positions) are rationals [Q]. The
      operations of the layout that make a float out of other numbers
      round to the nearest binary64 float, ties to even: the true
      division [/] (the flex quantum, and [extra / 2] in pass 4) is
      [true_div] and the product [quantum * flex] is [float_mul]. Sums,
      differences, [max] and comparisons are exact: this is what the
      code computes on integers, and in the sums of pass 1 on flex
      weights that are whole numbers below [2^53]. Outside the model: the
      exponent range of a float (overflow and underflow), flex weights
      that are infinite or not a number, and the rounding of a sum or
      difference one of whose operands is a float with a fractional part
      (the allocation of a flex child less its margins, when a margin is
      negative).
    - Values that the code stores through [int(...)] or that the style
      declares as integers (explicit sizes, margins, the content and
      min-content sizes of a box) are integers [Z]. Intrinsic sizes are
      taken to be whole numbers, as the widgets of toga report them.
    - [node.layout] is a mutable attribute of each node. The tree carries
      the current box of every node and a layout call returns the tree
      with the boxes it has written (explicit state passing).
    - [_layout_node] is always called as
      [child.style._layout_node(child, ...)]: [self] is the style of the
      node that is laid out. The compatibility accessors of the
      deprecated [alignment] and [padding] names are outside the layout;
      the style record holds the resolved [align_items] and margins.
    - The debug depth counter [_depth] only feeds the (commented out)
      debug output and is left out. *)

From Stdlib Require Import ZArith QArith Qround Qminmax Qabs Qpower.
From Stdlib Require Import List Bool Lia Lqa.
Import ListNotations.

Open Scope Q_scope.

(** ** Python arithmetic on numbers *)

(** Truth value of a number: [if x:] holds when [x] is not zero. *)
Definition truthy (x : Q) : bool := negb (Qeq_bool x 0).

(** [a > b]. *)
Definition Qgtb (a b : Q) : bool :=
  match a ?= b with Gt => true | _ => false end.

(** [int(x)]: truncation towards zero. *)
Definition int (x : Q) : Z := Z.quot (Qnum x) (Zpos (Qden x)).

(** [max(a, b)] is [Qmax a b]: the first argument unless the second is
    strictly greater. *)

(** *** Floats

    A float is a rational with at most 53 significant bits. [binary64]
    rounds a rational to the nearest float, ties to the even significand,
    as IEEE 754 does in its default mode. *)

(** The exponent of the leading bit of a positive rational:
    [2 ^ ilog2 a <= a < 2 ^ (ilog2 a + 1)]. *)
Definition ilog2 (a : Q) : Z :=
  let k := (Z.log2 (Qnum a) - Z.log2 (Zpos (Qden a)))%Z in
  if Qle_bool (2 ^ k) a then k else (k - 1)%Z.

(** Rounding to the nearest integer, ties to the even one. *)
Definition round_half_even (y : Q) : Z :=
  let f := Qfloor y in
  match Qcompare (y - inject_Z f) (1 # 2) with
  | Lt => f
  | Gt => (f + 1)%Z
  | Eq => if Z.even f then f else (f + 1)%Z
  end.

Definition binary64 (x : Q) : Q :=
  if Qeq_bool x 0 then 0
  else
    let e := (ilog2 (Qabs x) - 52)%Z in
    let m := round_half_even (Qabs x / 2 ^ e) in
    (if Qle_bool 0 x then inject_Z m else - inject_Z m) * 2 ^ e.

(** The relative error of one rounding is at most [2^-53]. *)
Definition unit_roundoff : Q := 1 # 9007199254740992.

(** [a / b], the true division of Python, and the product [a * b] of a
    float and a number. *)
Definition true_div (a b : Q) : Q := binary64 (a / b).
Definition float_mul (a b : Q) : Q := binary64 (a * b).

(** ** Data model *)

Inductive Direction := ROW | COLUMN.
Inductive AlignItems := START | CENTER | END.
Inductive TextDirection := LTR | RTL.

(** The style properties the layout reads. [NONE] for a size and an unset
    [align_items] are [None]. The module keeps [Style.width] and
    [Style.height] apart from the local variables of the same names. *)
Module Style.
Record Pack := mkPack {
  direction : Direction;
  align_items : option AlignItems;
  width : option Z;
  height : option Z;
  flex : Q;
  margin_top : Z;
  margin_right : Z;
  margin_bottom : Z;
  margin_left : Z;
  text_direction : TextDirection
}.
End Style.
Import Style.

(** An intrinsic size is a plain number, or an [at_least] wrapper whose
    [value] attribute is a lower bound. *)
Inductive Size :=
| fixed (n : Z)
| at_least (value : Z).

Record IntrinsicSize := mkIntrinsic {
  intrinsic_width : option Size;
  intrinsic_height : option Size
}.

Record Box := mkBox {
  content_width : Z;
  content_height : Z;
  min_content_width : Z;
  min_content_height : Z;
  content_top : Q;
  content_left : Q;
  content_bottom : Q;
  content_right : Q
}.

#[local] Unset Elimination Schemes.
Inductive Node := mkNode {
  style : Pack;
  intrinsic : IntrinsicSize;
  layout : Box;
  children : list Node
}.
#[local] Set Elimination Schemes.

(** Assignments to attributes of [node.layout]. *)
Definition set_box (node : Node) (b : Box) : Node :=
  mkNode (style node) (intrinsic node) b (children node).

Definition set_content_left (node : Node) (v : Q) : Node :=
  let b := layout node in
  set_box node
    (mkBox (content_width b) (content_height b) (min_content_width b)
       (min_content_height b) (content_top b) v (content_bottom b)
       (content_right b)).

Definition set_content_top (node : Node) (v : Q) : Node :=
  let b := layout node in
  set_box node
    (mkBox (content_width b) (content_height b) (min_content_width b)
       (min_content_height b) v (content_left b) (content_bottom b)
       (content_right b)).

Definition set_content_bottom (node : Node) (v : Q) : Node :=
  let b := layout node in
  set_box node
    (mkBox (content_width b) (content_height b) (min_content_width b)
       (min_content_height b) (content_top b) (content_left b) v
       (content_right b)).

Definition set_content_right (node : Node) (v : Q) : Node :=
  let b := layout node in
  set_box node
    (mkBox (content_width b) (content_height b) (min_content_width b)
       (min_content_height b) (content_top b) (content_left b)
       (content_bottom b) v).

(** The four sizes [_layout_node] writes at its end. *)
Definition set_sizes (node : Node) (cw ch mcw mch : Z) : Node :=
  let b := layout node in
  set_box node
    (mkBox cw ch mcw mch (content_top b) (content_left b) (content_bottom b)
       (content_right b)).

Definition is_row (node : Node) : bool :=
  match direction (style node) with ROW => true | COLUMN => false end.

Definition is_column (node : Node) : bool :=
  match direction (style node) with COLUMN => true | ROW => false end.

(** ** Loops over [node.children] *)

(** [for child in children: ...] where the body may lay the child out and
    updates local variables of type [S]. *)
Fixpoint for_each {S : Type} (body : Node -> S -> Node * S)
    (cs : list Node) (s : S) : list Node * S :=
  match cs with
  | [] => ([], s)
  | child :: rest =>
      let '(child', s') := body child s in
      let '(rest', s'') := for_each body rest s' in
      (child' :: rest', s'')
  end.

(** The same loop run a second time over the children. [before] is the
    list as it was when the enclosing call started and [cs] the list now;
    the body receives both versions of every child. Pass 2 reads the
    current child and lays out children that pass 1 did not touch; for
    those the two versions are the same node (lemmas
    [row_pass2_lays_out_child_itself] and
    [column_pass2_lays_out_child_itself]), and handing the earlier one to
    [_layout_node] keeps its recursion structural. *)
Fixpoint for_each_again {S : Type} (body : Node -> Node -> S -> Node * S)
    (before cs : list Node) (s : S) : list Node * S :=
  match before, cs with
  | orig :: before', child :: rest =>
      let '(child', s') := body orig child s in
      let '(rest', s'') := for_each_again body before' rest s' in
      (child' :: rest', s'')
  | _, _ => (cs, s)
  end.

(** ** Layout of the children of a node

    The two procedures call [_layout_node] on the children; they are
    written over the function they call, and [_layout_node] below closes
    the recursion. *)

Section ChildrenLayout.

Variable layout_node : Node -> Q -> Q -> bool -> bool -> Node.

(** *** [_layout_row_children] *)

(** Pass 1, body of the loop. The local variables are
    [(flex_total, min_flex, width, min_width, remaining_width)]. *)
Definition row_pass1 (available_height : Q) (child : Node)
    (vars : Q * Q * Q * Q * Q) : Node * (Q * Q * Q * Q * Q) :=
  let '(flex_total, min_flex, width, min_width, remaining_width) := vars in
  let '(child, flex_total, min_flex, child_content_width,
        min_child_content_width) :=
    match Style.width (style child) with
    | Some _ =>
        let child :=
          layout_node child remaining_width available_height false
            (is_row child) in
        (child, flex_total, min_flex,
         inject_Z (content_width (layout child)),
         inject_Z (content_width (layout child)))
    | None =>
        match intrinsic_width (intrinsic child) with
        | Some (at_least value) =>
            if truthy (flex (style child)) then
              (child,
               flex_total + flex (style child),
               min_flex
               + (inject_Z (margin_left (style child)) + inject_Z value
                  + inject_Z (margin_right (style child))),
               inject_Z value,
               inject_Z value)
            else
              let child :=
                layout_node child 0 available_height false (is_row child) in
              (child, flex_total, min_flex,
               inject_Z (content_width (layout child)),
               inject_Z (content_width (layout child)))
        | Some (fixed _) =>
            let child :=
              layout_node child remaining_width available_height false
                (is_row child) in
            (child, flex_total, min_flex,
             inject_Z (content_width (layout child)),
             inject_Z (content_width (layout child)))
        | None =>
            if truthy (flex (style child)) then
              (child, flex_total + flex (style child), min_flex, 0, 0)
            else
              let child :=
                layout_node child remaining_width available_height false
                  (is_row child) in
              (child, flex_total, min_flex,
               inject_Z (content_width (layout child)),
               inject_Z (min_content_width (layout child)))
        end
    end in
  let child_width :=
    inject_Z (margin_left (style child)) + child_content_width
    + inject_Z (margin_right (style child)) in
  let width := width + child_width in
  let remaining_width := remaining_width - child_width in
  let min_child_width :=
    inject_Z (margin_left (style child)) + min_child_content_width
    + inject_Z (margin_right (style child)) in
  let min_width := min_width + min_child_width in
  (child, (flex_total, min_flex, width, min_width, remaining_width)).

(** Between the passes: a flex child whose flexible intrinsic width
    exceeds its ideal share leaves the flex calculation. The local
    variables are [(flex_total, min_flex)]. *)
Definition row_overflow (quantum : Q) (child : Node) (vars : Q * Q)
    : Node * (Q * Q) :=
  let '(flex_total, min_flex) := vars in
  if truthy (flex (style child)) then
    match intrinsic_width (intrinsic child) with
    | Some (at_least value) =>
        let ideal_width := float_mul quantum (flex (style child)) in
        if Qgtb (inject_Z value) ideal_width then
          (child,
           (flex_total - flex (style child),
            min_flex
            - (inject_Z (margin_left (style child)) + inject_Z value
               + inject_Z (margin_right (style child)))))
        else (child, (flex_total, min_flex))
    | Some (fixed _) => (child, (flex_total, min_flex))
    | None => (child, (flex_total, min_flex))
    end
  else (child, (flex_total, min_flex)).

(** Pass 2, body of the loop. The local variables are
    [(width, min_width)]. A child that is laid out here was deferred by
    pass 1, which left it as it was: [orig] is [child]. *)
Definition row_pass2 (available_height quantum : Q) (orig child : Node)
    (vars : Q * Q) : Node * (Q * Q) :=
  let '(width, min_width) := vars in
  match Style.width (style child) with
  | Some _ => (child, (width, min_width))
  | None =>
      if truthy (flex (style child)) then
        match intrinsic_width (intrinsic child) with
        | Some (at_least value) =>
            let child_alloc_width :=
              inject_Z (margin_left (style child)) + inject_Z value
              + inject_Z (margin_right (style child)) in
            let ideal_width := float_mul quantum (flex (style child)) in
            let child_alloc_width :=
              if Qgtb ideal_width child_alloc_width then ideal_width
              else child_alloc_width in
            let child :=
              layout_node orig child_alloc_width available_height true
                (is_row child) in
            (child,
             (width - inject_Z value
              + inject_Z (content_width (layout child)),
              min_width - inject_Z value
              + inject_Z (min_content_width (layout child))))
        | Some (fixed _) => (child, (width, min_width))
        | None =>
            let child_alloc_width :=
              if truthy quantum then float_mul quantum (flex (style child))
              else
                inject_Z (margin_left (style child))
                + inject_Z (margin_right (style child)) in
            let child :=
              layout_node orig child_alloc_width available_height true
                (is_row child) in
            (child,
             (width + inject_Z (content_width (layout child)),
              min_width + inject_Z (min_content_width (layout child))))
        end
      else (child, (width, min_width))
  end.

(** Pass 3, body of the loop. [width] is the row width after pass 2; the
    local variables are [(offset, height, min_height)]. *)
Definition row_pass3 (node_text_direction : TextDirection) (width : Q)
    (child : Node) (vars : Q * Q * Q) : Node * (Q * Q * Q) :=
  let '(offset, height, min_height) := vars in
  let '(child, offset) :=
    match node_text_direction with
    | RTL =>
        let offset :=
          offset
          + (inject_Z (content_width (layout child))
             + inject_Z (margin_right (style child))) in
        let child := set_content_left child (width - offset) in
        (child, offset + inject_Z (margin_left (style child)))
    | LTR =>
        let offset := offset + inject_Z (margin_left (style child)) in
        let child := set_content_left child offset in
        (child,
         offset
         + (inject_Z (content_width (layout child))
            + inject_Z (margin_right (style child))))
    end in
  let child_height :=
    inject_Z (margin_top (style child))
    + inject_Z (content_height (layout child))
    + inject_Z (margin_bottom (style child)) in
  let height := Qmax height child_height in
  let min_child_height :=
    inject_Z (margin_top (style child))
    + inject_Z (min_content_height (layout child))
    + inject_Z (margin_bottom (style child)) in
  let min_height := Qmax min_height min_child_height in
  (child, (offset, height, min_height)).

(** Pass 4, body of the loop. [height] is the final row height. *)
Definition row_pass4 (self_align_items : option AlignItems) (height : Q)
    (child : Node) : Node :=
  let extra :=
    height
    - (inject_Z (content_height (layout child))
       + inject_Z (margin_top (style child))
       + inject_Z (margin_bottom (style child))) in
  match self_align_items with
  | Some END =>
      set_content_top child (extra + inject_Z (margin_top (style child)))
  | Some CENTER =>
      set_content_top child
        (inject_Z (int (true_div extra 2))
         + inject_Z (margin_top (style child)))
  | _ => set_content_top child (inject_Z (margin_top (style child)))
  end.

(** The procedure returns [(min_width, width, min_height, height)]; the
    children with the boxes it has written come first in the result. *)
Definition _layout_row_children (self : Pack) (node : Node)
    (available_width available_height : Q)
    (use_all_width use_all_height : bool)
    : list Node * (Q * Q * Q * Q) :=
  (* Pass 1 *)
  let '(node_children,
        (flex_total, min_flex, width, min_width, remaining_width)) :=
    for_each (row_pass1 available_height) (children node)
      (0, 0, 0, 0, available_width) in
  let quantum :=
    if Qgtb flex_total 0 then
      let quantum := true_div (remaining_width + min_flex) flex_total in
      let '(_, (flex_total, min_flex)) :=
        for_each (row_overflow quantum) node_children
          (flex_total, min_flex) in
      if Qgtb flex_total 0 then true_div (remaining_width + min_flex) flex_total
      else 0
    else 0 in
  (* Pass 2 *)
  let '(node_children, (width, min_width)) :=
    for_each_again (row_pass2 available_height quantum) (children node)
      node_children (width, min_width) in
  let width := if use_all_width then Qmax width available_width else width in
  (* Pass 3 *)
  let '(node_children, (offset, height, min_height)) :=
    for_each (row_pass3 (text_direction (style node)) width) node_children
      (0, 0, 0) in
  let height :=
    if use_all_height then Qmax height available_height else height in
  (* Pass 4 *)
  let node_children :=
    map (row_pass4 (align_items self) height) node_children in
  (node_children, (min_width, width, min_height, height)).

(** *** [_layout_column_children] *)

(** Pass 1, body of the loop. The local variables are
    [(flex_total, min_flex, height, min_height, remaining_height)]. *)
Definition column_pass1 (available_width : Q) (child : Node)
    (vars : Q * Q * Q * Q * Q) : Node * (Q * Q * Q * Q * Q) :=
  let '(flex_total, min_flex, height, min_height, remaining_height) :=
    vars in
  let '(child, flex_total, min_flex, child_content_height,
        min_child_content_height) :=
    match Style.height (style child) with
    | Some _ =>
        let child :=
          layout_node child available_width remaining_height
            (is_column child) false in
        (child, flex_total, min_flex,
         inject_Z (content_height (layout child)),
         inject_Z (content_height (layout child)))
    | None =>
        match intrinsic_height (intrinsic child) with
        | Some (at_least value) =>
            if truthy (flex (style child)) then
              let child_content_height := inject_Z value in
              (child,
               flex_total + flex (style child),
               min_flex
               + (inject_Z (margin_top (style child)) + child_content_height
                  + inject_Z (margin_bottom (style child))),
               child_content_height,
               inject_Z value)
            else
              let child :=
                layout_node child available_width 0 (is_column child)
                  false in
              (child, flex_total, min_flex,
               inject_Z (content_height (layout child)),
               inject_Z (content_height (layout child)))
        | Some (fixed _) =>
            let child :=
              layout_node child available_width remaining_height
                (is_column child) false in
            (child, flex_total, min_flex,
             inject_Z (content_height (layout child)),
             inject_Z (content_height (layout child)))
        | None =>
            if truthy (flex (style child)) then
              (child, flex_total + flex (style child), min_flex, 0, 0)
            else
              let child :=
                layout_node child available_width remaining_height
                  (is_column child) false in
              (child, flex_total, min_flex,
               inject_Z (content_height (layout child)),
               inject_Z (min_content_height (layout child)))
        end
    end in
  let child_height :=
    inject_Z (margin_top (style child)) + child_content_height
    + inject_Z (margin_bottom (style child)) in
  let height := height + child_height in
  let remaining_height := remaining_height - child_height in
  let min_child_height :=
    inject_Z (margin_top (style child)) + min_child_content_height
    + inject_Z (margin_bottom (style child)) in
  let min_height := min_height + min_child_height in
  (child, (flex_total, min_flex, height, min_height, remaining_height)).

(** Between the passes; the local variables are [(flex_total, min_flex)]. *)
Definition column_overflow (quantum : Q) (child : Node) (vars : Q * Q)
    : Node * (Q * Q) :=
  let '(flex_total, min_flex) := vars in
  if truthy (flex (style child)) then
    match intrinsic_height (intrinsic child) with
    | Some (at_least value) =>
        let ideal_height := float_mul quantum (flex (style child)) in
        if Qgtb (inject_Z value) ideal_height then
          (child,
           (flex_total - flex (style child),
            min_flex
            - (inject_Z (margin_top (style child)) + inject_Z value
               + inject_Z (margin_bottom (style child)))))
        else (child, (flex_total, min_flex))
    | Some (fixed _) => (child, (flex_total, min_flex))
    | None => (child, (flex_total, min_flex))
    end
  else (child, (flex_total, min_flex)).

(** Pass 2, body of the loop. The local variables are
    [(height, min_height)]; [orig] is as in [row_pass2]. *)
Definition column_pass2 (available_width quantum : Q) (orig child : Node)
    (vars : Q * Q) : Node * (Q * Q) :=
  let '(height, min_height) := vars in
  match Style.height (style child) with
  | Some _ => (child, (height, min_height))
  | None =>
      if truthy (flex (style child)) then
        match intrinsic_height (intrinsic child) with
        | Some (at_least value) =>
            let child_alloc_height :=
              inject_Z (margin_top (style child)) + inject_Z value
              + inject_Z (margin_bottom (style child)) in
            let ideal_height := float_mul quantum (flex (style child)) in
            let child_alloc_height :=
              if Qgtb ideal_height child_alloc_height then ideal_height
              else child_alloc_height in
            let child :=
              layout_node orig available_width child_alloc_height
                (is_column child) true in
            (child,
             (height - inject_Z value
              + inject_Z (content_height (layout child)),
              min_height - inject_Z value
              + inject_Z (min_content_height (layout child))))
        | Some (fixed _) => (child, (height, min_height))
        | None =>
            let child_alloc_height :=
              if truthy quantum then float_mul quantum (flex (style child))
              else
                inject_Z (margin_top (style child))
                + inject_Z (margin_bottom (style child)) in
            let child :=
              layout_node orig available_width child_alloc_height
                (is_column child) true in
            (child,
             (height + inject_Z (content_height (layout child)),
              min_height + inject_Z (min_content_height (layout child))))
        end
      else (child, (height, min_height))
  end.

(** Pass 3, body of the loop; the local variables are
    [(offset, width, min_width)]. *)
Definition column_pass3 (child : Node) (vars : Q * Q * Q)
    : Node * (Q * Q * Q) :=
  let '(offset, width, min_width) := vars in
  let offset := offset + inject_Z (margin_top (style child)) in
  let child := set_content_top child offset in
  let offset :=
    offset
    + (inject_Z (content_height (layout child))
       + inject_Z (margin_bottom (style child))) in
  let child_width :=
    inject_Z (content_width (layout child))
    + inject_Z (margin_left (style child))
    + inject_Z (margin_right (style child)) in
  let width := Qmax width child_width in
  let min_child_width :=
    inject_Z (margin_left (style child))
    + inject_Z (min_content_width (layout child))
    + inject_Z (margin_right (style child)) in
  let min_width := Qmax min_width min_child_width in
  (child, (offset, width, min_width)).

(** Pass 4, body of the loop. [width] is the final column width. *)
Definition column_pass4 (self : Pack) (width : Q) (child : Node) : Node :=
  let extra :=
    width
    - (inject_Z (content_width (layout child))
       + inject_Z (margin_left (style child))
       + inject_Z (margin_right (style child))) in
  match text_direction self, align_items self with
  | LTR, Some END | RTL, Some START =>
      set_content_left child (extra + inject_Z (margin_left (style child)))
  | _, Some CENTER =>
      set_content_left child
        (inject_Z (int (true_div extra 2))
         + inject_Z (margin_left (style child)))
  | _, _ => set_content_left child (inject_Z (margin_left (style child)))
  end.

Definition _layout_column_children (self : Pack) (node : Node)
    (available_width available_height : Q)
    (use_all_width use_all_height : bool)
    : list Node * (Q * Q * Q * Q) :=
  (* Pass 1 *)
  let '(node_children,
        (flex_total, min_flex, height, min_height, remaining_height)) :=
    for_each (column_pass1 available_width) (children node)
      (0, 0, 0, 0, available_height) in
  let quantum :=
    if Qgtb flex_total 0 then
      let quantum := true_div (remaining_height + min_flex) flex_total in
      let '(_, (flex_total, min_flex)) :=
        for_each (column_overflow quantum) node_children
          (flex_total, min_flex) in
      if Qgtb flex_total 0 then
        true_div (min_flex + remaining_height) flex_total
      else 0
    else 0 in
  (* Pass 2 *)
  let '(node_children, (height, min_height)) :=
    for_each_again (column_pass2 available_width quantum) (children node)
      node_children (height, min_height) in
  let height :=
    if use_all_height then Qmax height available_height else height in
  (* Pass 3 *)
  let '(node_children, (offset, width, min_width)) :=
    for_each column_pass3 node_children (0, 0, 0) in
  let width := if use_all_width then Qmax width available_width else width in
  (* Pass 4 *)
  let node_children := map (column_pass4 self width) node_children in
  (node_children, (min_width, width, min_height, height)).

(** *** The body of [_layout_node] *)

Definition layout_node_body (node : Node) (alloc_width alloc_height : Q)
    (use_all_width use_all_height : bool) : Node :=
  let self := style node in
  (* Establish available width *)
  let '(available_width, min_width) :=
    match Style.width self with
    | Some w => (inject_Z w, inject_Z w)
    | None =>
        let available_width :=
          Qmax 0
            (alloc_width - inject_Z (margin_left self)
             - inject_Z (margin_right self)) in
        match intrinsic_width (intrinsic node) with
        | Some (at_least value) =>
            let min_width := inject_Z value in
            (Qmax available_width min_width, min_width)
        | Some (fixed n) => (inject_Z n, inject_Z n)
        | None => (available_width, 0)
        end
    end in
  (* Establish available height *)
  let '(available_height, min_height) :=
    match Style.height self with
    | Some h => (inject_Z h, inject_Z h)
    | None =>
        let available_height :=
          Qmax 0
            (alloc_height - inject_Z (margin_top self)
             - inject_Z (margin_bottom self)) in
        match intrinsic_height (intrinsic node) with
        | Some (at_least value) =>
            let min_height := inject_Z value in
            (Qmax available_height min_height, min_height)
        | Some (fixed n) => (inject_Z n, inject_Z n)
        | None => (available_height, 0)
        end
    end in
  let '(node_children, (min_width, width, min_height, height)) :=
    match children node with
    | _ :: _ =>
        match direction self with
        | COLUMN =>
            _layout_column_children self node available_width
              available_height use_all_width use_all_height
        | ROW =>
            _layout_row_children self node available_width available_height
              use_all_width use_all_height
        end
    | [] =>
        ([], (min_width, available_width, min_height, available_height))
    end in
  (* An explicit width/height overrides the layout of the children *)
  let '(min_width, width) :=
    match Style.width self with
    | Some w => (inject_Z w, inject_Z w)
    | None => (min_width, width)
    end in
  let '(min_height, height) :=
    match Style.height self with
    | Some h => (inject_Z h, inject_Z h)
    | None => (min_height, height)
    end in
  set_sizes
    (mkNode (style node) (intrinsic node) (layout node) node_children)
    (int width) (int height) (int min_width) (int min_height).

End ChildrenLayout.

(** ** [_layout_node] and [layout] *)

Fixpoint _layout_node (node : Node) (alloc_width alloc_height : Q)
    (use_all_width use_all_height : bool) {struct node} : Node :=
  layout_node_body _layout_node node alloc_width alloc_height use_all_width
    use_all_height.

(** [layout(node, viewport)]: the root uses all of the viewport. *)
Definition Pack_layout (node : Node) (viewport_width viewport_height : Z)
    : Node :=
  let node :=
    _layout_node node (inject_Z viewport_width) (inject_Z viewport_height)
      true true in
  let node := set_content_top node (inject_Z (margin_top (style node))) in
  let node :=
    set_content_bottom node (inject_Z (margin_bottom (style node))) in
  let node := set_content_left node (inject_Z (margin_left (style node))) in
  set_content_right node (inject_Z (margin_right (style node))).

(** ** Vocabulary of the properties *)

(** Every node of a tree, the root first. *)
Fixpoint nodes (node : Node) : list Node :=
  node :: flat_map nodes (children node).

(** The children that pass 1 of [_layout_row_children] defers to pass 2:
    no explicit width, a flex weight, and an intrinsic width that is
    absent or flexible. The test reads the style and the intrinsic size
    only. *)
Definition row_deferred (child : Node) : bool :=
  match Style.width (style child) with
  | Some _ => false
  | None =>
      truthy (flex (style child))
      && match intrinsic_width (intrinsic child) with
         | Some (fixed _) => false
         | _ => true
         end
  end.

Definition column_deferred (child : Node) : bool :=
  match Style.height (style child) with
  | Some _ => false
  | None =>
      truthy (flex (style child))
      && match intrinsic_height (intrinsic child) with
         | Some (fixed _) => false
         | _ => true
         end
  end.

(** The outer height of a child: its content height and its vertical
    margins. *)
Definition outer_height (child : Node) : Q :=
  inject_Z (margin_top (style child))
  + inject_Z (content_height (layout child))
  + inject_Z (margin_bottom (style child)).

(** The outer width of a child: its content width and its horizontal
    margins. *)
Definition outer_width (child : Node) : Q :=
  inject_Z (margin_left (style child))
  + inject_Z (content_width (layout child))
  + inject_Z (margin_right (style child)).

(** The sum of a measure over a list of children. *)
Fixpoint total (f : Node -> Q) (cs : list Node) : Q :=
  match cs with
  | [] => 0
  | c :: rest => f c + total f rest
  end.

(** Assignment of both positions of a box. *)
Definition set_position (node : Node) (left top : Q) : Node :=
  set_content_top (set_content_left node left) top.


(** An explicit size is the content size and the min-content size. *)
Definition explicit_size_dominates (node : Node) : Prop :=
  (forall W, Style.width (style node) = Some W ->
     content_width (layout node) = W /\ min_content_width (layout node) = W)
  /\
  (forall H, Style.height (style node) = Some H ->
     content_height (layout node) = H /\
     min_content_height (layout node) = H).

(** What the passes of the procedures make of a child [c], for a callee
    [rec]: pass 1 leaves a deferred child as it is and lays the others
    out; after pass 2 every child has been laid out. *)
Definition row_pass1_result (rec : Node -> Q -> Q -> bool -> bool -> Node)
    (ah : Q) (c c1 : Node) : Prop :=
  if row_deferred c then c1 = c
  else exists a, c1 = rec c a ah false (is_row c).

Definition row_laid_out (rec : Node -> Q -> Q -> bool -> bool -> Node)
    (ah : Q) (c c2 : Node) : Prop :=
  exists a u, c2 = rec c a ah u (is_row c).

Definition column_pass1_result (rec : Node -> Q -> Q -> bool -> bool -> Node)
    (aw : Q) (c c1 : Node) : Prop :=
  if column_deferred c then c1 = c
  else exists b, c1 = rec c aw b (is_column c) false.

Definition column_laid_out (rec : Node -> Q -> Q -> bool -> bool -> Node)
    (aw : Q) (c c2 : Node) : Prop :=
  exists b v, c2 = rec c aw b (is_column c) v.

Definition laid_out_and_placed
    (rec : Node -> Q -> Q -> bool -> bool -> Node) (c c' : Node) : Prop :=
  exists a b u v l t, c' = set_position (rec c a b u v) l t.






(** Equal but for [content_left] and [content_top]. *)
Definition eq_but_position (x y : Node) : Prop :=
  set_position x 0 0 = set_position y 0 0.

(** Equal but for [content_top]. *)
Definition eq_but_top (x y : Node) : Prop :=
  set_content_top x 0 = set_content_top y 0.

(** Equal but for [content_left]. *)
Definition eq_but_left (x y : Node) : Prop :=
  set_content_left x 0 = set_content_left y 0.

(** Two children on which the callee cannot tell the difference. *)
Definition alike (rec : Node -> Q -> Q -> bool -> bool -> Node)
    (c d : Node) : Prop :=
  style c = style d /\ intrinsic c = intrinsic d /\
  forall a b u v, eq_but_position (rec c a b u v) (rec d a b u v).

(** Two children after pass 1 of a row. *)
Definition row_alike1 (c1 d1 : Node) : Prop :=
  style c1 = style d1 /\ intrinsic c1 = intrinsic d1 /\
  (row_deferred c1 = false -> eq_but_position c1 d1).

(** Two children after pass 1 of a column. *)
Definition column_alike1 (c1 d1 : Node) : Prop :=
  style c1 = style d1 /\ intrinsic c1 = intrinsic d1 /\
  (column_deferred c1 = false -> eq_but_position c1 d1).

(** Two trees with the same styles, intrinsic sizes and shape, whose boxes
    agree on the two positions that only [layout] writes, at the root. *)
#[local] Unset Elimination Schemes.
Inductive same_inputs : Node -> Node -> Prop :=
| same_inputs_intro n m :
    style n = style m -> intrinsic n = intrinsic m ->
    content_bottom (layout n) = content_bottom (layout m) ->
    content_right (layout n) = content_right (layout m) ->
    Forall2 same_inputs (children n) (children m) ->
    same_inputs n m.
#[local] Set Elimination Schemes.

(** Equal but for the four positions of the root box. *)
Definition eq_but_root_positions (x y : Node) : Prop :=
  style x = style y /\ intrinsic x = intrinsic y /\ children x = children y /\
  content_width (layout x) = content_width (layout y) /\
  content_height (layout x) = content_height (layout y) /\
  min_content_width (layout x) = min_content_width (layout y) /\
  min_content_height (layout x) = min_content_height (layout y).

(** ** Sample nodes *)

(** A box whose values were written by nobody yet. *)
Definition stale_box : Box := mkBox 0 0 0 0 0 0 0 0.

(** A childless flex child of intrinsic width 10, fixed and flexible. *)
Definition fixed_flex_child : Node :=
  mkNode (mkPack ROW None None None 1 0 0 0 0 LTR)
    (mkIntrinsic (Some (fixed 10)) None) stale_box [].

Definition flexible_flex_child : Node :=
  mkNode (mkPack ROW None None None 1 0 0 0 0 LTR)
    (mkIntrinsic (Some (at_least 10)) None) stale_box [].

(** A style that sets nothing. *)
Definition plain_style : Pack := mkPack ROW None None None 0 0 0 0 0 LTR.

(** A row of two childless flex children of weights 1 and 3. *)
Definition flex_child_1 : Node :=
  mkNode (mkPack ROW None None None 1 0 0 0 0 LTR) (mkIntrinsic None None)
    stale_box [].

Definition flex_child_3 : Node :=
  mkNode (mkPack ROW None None None 3 0 0 0 0 LTR) (mkIntrinsic None None)
    stale_box [].

Definition flex_row : Node :=
  mkNode plain_style (mkIntrinsic None None) stale_box
    [flex_child_1; flex_child_3].

(** A right-to-left row of two children of explicit widths 10 and 20. *)
Definition wide_child_10 : Node :=
  mkNode (mkPack ROW None (Some 10%Z) None 0 0 0 0 0 LTR)
    (mkIntrinsic None None) stale_box [].

Definition wide_child_20 : Node :=
  mkNode (mkPack COLUMN None (Some 20%Z) None 0 0 0 0 0 LTR)
    (mkIntrinsic None None) stale_box [].

Definition rtl_row : Node :=
  mkNode (mkPack ROW None None None 0 0 0 0 0 RTL) (mkIntrinsic None None)
    stale_box [wide_child_10; wide_child_20].

(** A row 100 high whose only child is 20 high, under each alignment. *)
Definition short_child : Node :=
  mkNode (mkPack ROW None (Some 10%Z) (Some 20%Z) 0 0 0 0 0 LTR)
    (mkIntrinsic None None) stale_box [].

Definition aligned_row (a : option AlignItems) : Node :=
  mkNode (mkPack ROW a None None 0 0 0 0 0 LTR) (mkIntrinsic None None)
    stale_box [short_child].

(** A column 30 wide whose only child is 10 wide, under each text
    direction and alignment. *)
Definition aligned_column (t : TextDirection) (a : option AlignItems)
    : Node :=
  mkNode (mkPack COLUMN a None None 0 0 0 0 0 t) (mkIntrinsic None None)
    stale_box [short_child].

(** A row with a ROW child and a COLUMN child, each holding one
    grandchild 10 wide and 20 high. *)
Definition stretch_row : Node :=
  mkNode plain_style (mkIntrinsic None None) stale_box
    [mkNode (mkPack ROW None None None 0 0 0 0 0 LTR)
       (mkIntrinsic None None) stale_box [short_child];
     mkNode (mkPack COLUMN None None None 0 0 0 0 0 LTR)
       (mkIntrinsic None None) stale_box [short_child]].







(** A centred row with a child of height [2^54 + 2] and a child of
    height 0, and a centred column with children of these widths. *)
Definition huge : Z := (2 ^ 54 + 2)%Z.

Definition centred_style (d : Direction) : Pack :=
  mkPack d (Some CENTER) None None 0 0 0 0 0 LTR.

Definition huge_row : Node :=
  mkNode (centred_style ROW) (mkIntrinsic None None) stale_box
    [mkNode (mkPack ROW None (Some 0%Z) (Some huge) 0 0 0 0 0 LTR)
       (mkIntrinsic None None) stale_box [];
     mkNode (mkPack ROW None (Some 0%Z) (Some 0%Z) 0 0 0 0 0 LTR)
       (mkIntrinsic None None) stale_box []].

Definition huge_column : Node :=
  mkNode (centred_style COLUMN) (mkIntrinsic None None) stale_box
    [mkNode (mkPack ROW None (Some huge) (Some 0%Z) 0 0 0 0 0 LTR)
       (mkIntrinsic None None) stale_box [];
     mkNode (mkPack ROW None (Some 0%Z) (Some 0%Z) 0 0 0 0 0 LTR)
       (mkIntrinsic None None) stale_box []].

(** A row of two flex children of weights 1 and 3 that hold a grandchild
    50 wide and a grandchild 30 wide. *)
Definition grandchild (w : Z) : Node :=
  mkNode (mkPack ROW None (Some w) (Some 20%Z) 0 0 0 0 0 LTR)
    (mkIntrinsic None None) stale_box [].

Definition flex_parent (f : Q) (w : Z) : Node :=
  mkNode (mkPack ROW None None None f 0 0 0 0 LTR) (mkIntrinsic None None)
    stale_box [grandchild w].

Definition flex_parents_row : Node :=
  mkNode plain_style (mkIntrinsic None None) stale_box
    [flex_parent 1 50; flex_parent 3 30].

(** A row whose only child has the flex weight 11. *)
Definition flex_11_row : Node :=
  mkNode plain_style (mkIntrinsic None None) stale_box
    [mkNode (mkPack ROW None None None 11 0 0 0 0 LTR)
       (mkIntrinsic None None) stale_box []].

(** The values of one attribute of the boxes of the children. *)
Definition of_children {A : Type} (f : Box -> A) (node : Node) : list A :=
  map (fun child => f (layout child)) (children node).

(** ** Vocabulary of the further properties

    Measures of the children of a node, the steps of [_layout_node], and
    the code of [Pack] outside the layout: [_update_property_name], the
    index notation, the paired [alignment] and [align_items] in
    [__getattribute__], [__setattr__] and [__delattr__], and [apply].

    Conventions for the code outside the layout.
    - The superclass stores at most one value per property:
      [super().__getattribute__(name)] reads it, [super().__setattr__]
      writes it and [super().__delattr__] clears it; an unset property
      reads as [None].
    - A deprecation warning is an output: a function that warns returns
      its warnings with its result.
    - The applicator is known by the calls made on it: [apply] returns
      the calls, in order. *)

(** *** Measures of the children *)

(** What pass 1 of [_layout_row_children] adds to [width] for a child:
    the outer width of a child it lays out; for a deferred child the
    horizontal margins, and the flexible intrinsic width if there is
    one. *)
Definition row_pass1_estimate (c : Node) : Q :=
  if row_deferred c then
    match intrinsic_width (intrinsic c) with
    | Some (at_least value) =>
        inject_Z (margin_left (style c)) + inject_Z value
        + inject_Z (margin_right (style c))
    | _ => inject_Z (margin_left (style c)) + 0
           + inject_Z (margin_right (style c))
    end
  else outer_width c.

(** The children whose content width counts as their min-content width
    in a row: explicit or fixed intrinsic width, or a flexible intrinsic
    width without flex weight. *)
Definition row_min_is_content (c : Node) : bool :=
  match Style.width (style c) with
  | Some _ => true
  | None =>
      match intrinsic_width (intrinsic c) with
      | Some (fixed _) => true
      | Some (at_least _) => negb (truthy (flex (style c)))
      | None => false
      end
  end.

(** What a child adds to the [min_width] of a row by the end of pass
    2, and to it in pass 1. *)
Definition row_min_outer_width (c : Node) : Q :=
  inject_Z (margin_left (style c))
  + inject_Z (if row_min_is_content c then content_width (layout c)
              else min_content_width (layout c))
  + inject_Z (margin_right (style c)).

Definition row_pass1_min_estimate (c : Node) : Q :=
  if row_deferred c then row_pass1_estimate c else row_min_outer_width c.

(** The minimal outer sizes of a child: min-content size and margins. *)
Definition min_outer_height (child : Node) : Q :=
  inject_Z (margin_top (style child))
  + inject_Z (min_content_height (layout child))
  + inject_Z (margin_bottom (style child)).

Definition min_outer_width (child : Node) : Q :=
  inject_Z (margin_left (style child))
  + inject_Z (min_content_width (layout child))
  + inject_Z (margin_right (style child)).

(** The same measures for [_layout_column_children]. *)
Definition column_pass1_estimate (c : Node) : Q :=
  if column_deferred c then
    match intrinsic_height (intrinsic c) with
    | Some (at_least value) =>
        inject_Z (margin_top (style c)) + inject_Z value
        + inject_Z (margin_bottom (style c))
    | _ => inject_Z (margin_top (style c)) + 0
           + inject_Z (margin_bottom (style c))
    end
  else outer_height c.

Definition column_min_is_content (c : Node) : bool :=
  match Style.height (style c) with
  | Some _ => true
  | None =>
      match intrinsic_height (intrinsic c) with
      | Some (fixed _) => true
      | Some (at_least _) => negb (truthy (flex (style c)))
      | None => false
      end
  end.

Definition column_min_outer_height (c : Node) : Q :=
  inject_Z (margin_top (style c))
  + inject_Z (if column_min_is_content c then content_height (layout c)
              else min_content_height (layout c))
  + inject_Z (margin_bottom (style c)).

Definition column_pass1_min_estimate (c : Node) : Q :=
  if column_deferred c then column_pass1_estimate c
  else column_min_outer_height c.

(** Components of the local variables of pass 1. *)
Definition min_width_of_5 (vars : Q * Q * Q * Q * Q) : Q :=
  let '(_, _, _, min_size, _) := vars in min_size.

Definition width_of_5 (vars : Q * Q * Q * Q * Q) : Q :=
  let '(_, _, size, _, _) := vars in size.


(** What a tree is before any layout: styles, intrinsic sizes and
    shape. *)
#[local] Unset Elimination Schemes.
Inductive Skeleton :=
  mkSkeleton (s : Pack) (i : IntrinsicSize) (kids : list Skeleton).
#[local] Set Elimination Schemes.

Fixpoint skeleton (node : Node) : Skeleton :=
  mkSkeleton (style node) (intrinsic node) (map skeleton (children node)).

(** *** The steps of [_layout_node], and boxes without negative numbers *)

(** The sizes that [_layout_node] hands to the procedures. *)
Definition available_width (node : Node) (alloc_width : Q) : Q * Q :=
  match Style.width (style node) with
  | Some w => (inject_Z w, inject_Z w)
  | None =>
      let available_width :=
        Qmax 0
          (alloc_width - inject_Z (margin_left (style node))
           - inject_Z (margin_right (style node))) in
      match intrinsic_width (intrinsic node) with
      | Some (at_least value) =>
          (Qmax available_width (inject_Z value), inject_Z value)
      | Some (fixed n) => (inject_Z n, inject_Z n)
      | None => (available_width, 0)
      end
  end.

Definition available_height (node : Node) (alloc_height : Q) : Q * Q :=
  match Style.height (style node) with
  | Some h => (inject_Z h, inject_Z h)
  | None =>
      let available_height :=
        Qmax 0
          (alloc_height - inject_Z (margin_top (style node))
           - inject_Z (margin_bottom (style node))) in
      match intrinsic_height (intrinsic node) with
      | Some (at_least value) =>
          (Qmax available_height (inject_Z value), inject_Z value)
      | Some (fixed n) => (inject_Z n, inject_Z n)
      | None => (available_height, 0)
      end
  end.











(** *** Flex children *)

(** A child with a flex weight and a flexible intrinsic width: the
    children that the loop between pass 1 and pass 2 may remove from the
    flex calculation. *)
Definition row_flexible_flex (c : Node) : bool :=
  truthy (flex (style c))
  && match intrinsic_width (intrinsic c) with
     | Some (at_least _) => true
     | _ => false
     end.

(** What a child adds to [flex_total] and to [min_flex] in pass 1 of
    [_layout_row_children]. *)
Definition row_flex_weight (c : Node) : Q :=
  if row_deferred c then flex (style c) else 0.

Definition row_min_flex (c : Node) : Q :=
  if row_deferred c then
    match intrinsic_width (intrinsic c) with
    | Some (at_least value) =>
        inject_Z (margin_left (style c)) + inject_Z value
        + inject_Z (margin_right (style c))
    | _ => 0
    end
  else 0.

(** The flex quantum of a row without flexible intrinsic flex children,
    read off the children as the procedure leaves them. *)
Definition row_quantum (available_width : Q) (cs : list Node) : Q :=
  if Qgtb (total row_flex_weight cs) 0 then
    true_div (available_width - total row_pass1_estimate cs)
      (total row_flex_weight cs)
  else 0.

(** The width that pass 2 allocates to a flex child without intrinsic
    width. *)
Definition row_flex_alloc (quantum : Q) (c : Node) : Q :=
  if truthy quantum then float_mul quantum (flex (style c))
  else inject_Z (margin_left (style c)) + inject_Z (margin_right (style c)).

(** More components of the local variables of pass 1; [used_of_5] is
    what pass 1 took from the available size. *)
Definition flex_total_of_5 (vars : Q * Q * Q * Q * Q) : Q :=
  let '(flex_total, _, _, _, _) := vars in flex_total.

Definition min_flex_of_5 (vars : Q * Q * Q * Q * Q) : Q :=
  let '(_, min_flex, _, _, _) := vars in min_flex.

Definition used_of_5 (vars : Q * Q * Q * Q * Q) : Q :=
  let '(_, _, _, _, remaining) := vars in - remaining.

(** The flex weight of a child that pass 1 of a row defers is a whole
    number greater than 0: the sum of such weights is exact in floating
    point as long as it stays below [2^53]. *)
Definition row_whole_flex (c : Node) : Prop :=
  row_deferred c = true ->
  exists k : Z, flex (style c) = inject_Z k /\ (0 < k)%Z.

(** A flex child of a row that takes what it is given: no flexible
    intrinsic width, and when pass 1 defers it, no children, a whole
    positive weight and no negative horizontal margin. *)
Definition row_plain_flex (c : Node) : Prop :=
  row_flexible_flex c = false
  /\ (row_deferred c = true ->
      children c = []
      /\ (exists k : Z, flex (style c) = inject_Z k /\ (0 < k)%Z)
      /\ (0 <= margin_left (style c))%Z /\ (0 <= margin_right (style c))%Z).

(** A child with a flex weight and a flexible intrinsic height: the
    children that the loop between pass 1 and pass 2 may remove from the
    flex calculation. *)
Definition column_flexible_flex (c : Node) : bool :=
  truthy (flex (style c))
  && match intrinsic_height (intrinsic c) with
     | Some (at_least _) => true
     | _ => false
     end.

(** What a child adds to [flex_total] and to [min_flex] in pass 1 of
    [_layout_column_children]. *)
Definition column_flex_weight (c : Node) : Q :=
  if column_deferred c then flex (style c) else 0.

Definition column_min_flex (c : Node) : Q :=
  if column_deferred c then
    match intrinsic_height (intrinsic c) with
    | Some (at_least value) =>
        inject_Z (margin_top (style c)) + inject_Z value
        + inject_Z (margin_bottom (style c))
    | _ => 0
    end
  else 0.

(** The flex quantum of a column without flexible intrinsic flex children,
    read off the children as the procedure leaves them. *)
Definition column_quantum (available_height : Q) (cs : list Node) : Q :=
  if Qgtb (total column_flex_weight cs) 0 then
    true_div (available_height - total column_pass1_estimate cs)
      (total column_flex_weight cs)
  else 0.

(** The height that pass 2 allocates to a flex child without intrinsic
    height. *)
Definition column_flex_alloc (quantum : Q) (c : Node) : Q :=
  if truthy quantum then float_mul quantum (flex (style c))
  else inject_Z (margin_top (style c)) + inject_Z (margin_bottom (style c)).

(** The flex weight of a child that pass 1 of a column defers is a whole
    number greater than 0. *)
Definition column_whole_flex (c : Node) : Prop :=
  column_deferred c = true ->
  exists k : Z, flex (style c) = inject_Z k /\ (0 < k)%Z.

(** A flex child of a column that takes what it is given: no flexible
    intrinsic height, and when pass 1 defers it, no children, a whole
    positive weight and no negative vertical margin. *)
Definition column_plain_flex (c : Node) : Prop :=
  column_flexible_flex c = false
  /\ (column_deferred c = true ->
      children c = []
      /\ (exists k : Z, flex (style c) = inject_Z k /\ (0 < k)%Z)
      /\ (0 <= margin_top (style c))%Z /\ (0 <= margin_bottom (style c))%Z).

(** *** The style outside the layout: names, the alias, [apply] *)

From Stdlib Require Import String Ascii.

(** The values of the deprecated [alignment] property. *)
Module Alignment.
Inductive t := LEFT | RIGHT | TOP | BOTTOM | CENTER.
End Alignment.

(** A [DeprecationWarning] that [_warn_deprecated] emits:
    [Pack.old_name is deprecated; use new_name instead]. *)
Inductive Warning := deprecated (old_name new_name : string).

(** The names of the two paired properties. *)
Definition ALIGNMENT : string := "alignment".

Definition ALIGN_ITEMS : string := "align_items".

(** Each deprecated property name with its replacement. *)
Definition DEPRECATED_PROPERTIES : list (string * string) :=
  [("padding", "margin");
   ("padding_top", "margin_top");
   ("padding_right", "margin_right");
   ("padding_bottom", "margin_bottom");
   ("padding_left", "margin_left")]%string.

(** [dict.get]. *)
Fixpoint dict_get (d : list (string * string)) (key : string)
    : option string :=
  match d with
  | [] => None
  | (k, v) :: rest => if String.eqb k key then Some v else dict_get rest key
  end.

(** The warnings that a call emits are returned with its result. *)
Definition _warn_deprecated (old_name new_name : string) : list Warning :=
  [deprecated old_name new_name].

(** [if new_name := cls.DEPRECATED_PROPERTIES.get(name)]: the test fails
    on a missing key and on an empty string. *)
Definition _update_property_name (name : string) : string * list Warning :=
  match dict_get DEPRECATED_PROPERTIES name with
  | Some (String a s) =>
      (String a s, _warn_deprecated name (String a s))
  | _ => (name, [])
  end.

(** [name.replace("-", "_")] of the index notation. *)
Fixpoint replace_hyphens (name : string) : string :=
  match name with
  | EmptyString => EmptyString
  | String a rest =>
      String (if Ascii.eqb a "-" then "_"%char else a)
        (replace_hyphens rest)
  end.

(** The property that [style[name]] finally reads, writes or deletes,
    with the warnings on the way: the index notation replaces the
    hyphens and goes through [__getattribute__], [__setattr__] or
    [__delattr__], each of which warns about [alignment] itself and then
    updates the name. *)
Definition index_property_name (name : string) : string * list Warning :=
  let name := replace_hyphens name in
  let '(new_name, warnings) := _update_property_name name in
  (new_name,
   (if String.eqb name ALIGNMENT then _warn_deprecated ALIGNMENT ALIGN_ITEMS
    else [])
   ++ warnings).

(** What the superclass stores for a style: the properties that the
    layout reads, with the stored [align_items], and the stored
    [alignment]. An unset property is [None]. *)
Record Declared := mkDeclared {
  stored : Pack;
  stored_alignment : option Alignment.t
}.

(** Assignment of the stored [align_items]. *)
Definition with_align_items (p : Pack) (a : option AlignItems) : Pack :=
  mkPack (direction p) a (Style.width p) (Style.height p) (flex p)
    (margin_top p) (margin_right p) (margin_bottom p) (margin_left p)
    (text_direction p).

(** [__getattribute__] at [align_items]. *)
Definition getattribute_align_items (self : Declared)
    : option AlignItems :=
  match stored_alignment self with
  | Some alignment =>
      match alignment with
      | Alignment.CENTER => Some CENTER
      | _ =>
          match direction (stored self) with
          | ROW =>
              match alignment with
              | Alignment.TOP => Some START
              | Alignment.BOTTOM => Some END
              | _ => None
              end
          | COLUMN =>
              match alignment with
              | Alignment.LEFT =>
                  Some (match text_direction (stored self) with
                        | LTR => START
                        | RTL => END
                        end)
              | Alignment.RIGHT =>
                  Some (match text_direction (stored self) with
                        | RTL => START
                        | LTR => END
                        end)
              | _ => None
              end
          end
      end
  | None => align_items (stored self)
  end.

(** [__getattribute__] at [alignment]: it warns, whether the property is
    set or not. *)
Definition getattribute_alignment (self : Declared)
    : option Alignment.t * list Warning :=
  (match align_items (stored self) with
   | Some START =>
       match direction (stored self) with
       | COLUMN =>
           Some (match text_direction (stored self) with
                 | LTR => Alignment.LEFT
                 | RTL => Alignment.RIGHT
                 end)
       | ROW => Some Alignment.TOP
       end
   | Some END =>
       match direction (stored self) with
       | COLUMN =>
           Some (match text_direction (stored self) with
                 | LTR => Alignment.RIGHT
                 | RTL => Alignment.LEFT
                 end)
       | ROW => Some Alignment.BOTTOM
       end
   | Some CENTER => Some Alignment.CENTER
   | None => stored_alignment self
   end,
   _warn_deprecated ALIGNMENT ALIGN_ITEMS).

(** [__setattr__] and [__delattr__] at the two names: only one of the
    two is set at a time. *)
Definition setattr_align_items (self : Declared) (value : AlignItems)
    : Declared :=
  mkDeclared (with_align_items (stored self) (Some value)) None.

Definition setattr_alignment (self : Declared) (value : Alignment.t)
    : Declared * list Warning :=
  (mkDeclared (with_align_items (stored self) None) (Some value),
   _warn_deprecated ALIGNMENT ALIGN_ITEMS).

Definition delattr_align_items (self : Declared) : Declared :=
  mkDeclared (with_align_items (stored self) None) None.

Definition delattr_alignment (self : Declared) : Declared * list Warning :=
  (mkDeclared (with_align_items (stored self) None) None,
   _warn_deprecated ALIGNMENT ALIGN_ITEMS).

(** The style as the layout reads it: [self.align_items] goes through
    [__getattribute__]. *)
Definition as_read (self : Declared) : Pack :=
  with_align_items (stored self) (getattribute_align_items self).

(** The values of [alignment] that mean something for a direction. *)
Definition alignment_fits (d : Direction) (x : Alignment.t) : bool :=
  match x, d with
  | Alignment.CENTER, _ => true
  | Alignment.TOP, ROW | Alignment.BOTTOM, ROW => true
  | Alignment.LEFT, COLUMN | Alignment.RIGHT, COLUMN => true
  | _, _ => false
  end.

(** The operations on the two names. *)
Inductive AlignOp :=
| set_align_items (value : AlignItems)
| set_alignment (value : Alignment.t)
| del_align_items
| del_alignment.

(** One operation; the warnings are dropped. *)
Definition run_align_op (self : Declared) (op : AlignOp) : Declared :=
  match op with
  | set_align_items value => setattr_align_items self value
  | set_alignment value => fst (setattr_alignment self value)
  | del_align_items => delattr_align_items self
  | del_alignment => fst (delattr_alignment self)
  end.

(** The Python values that [apply] compares and passes on: [None], a
    string constant, or anything else. *)
Inductive Value := PyNone | PyStr (s : string) | PyObject (id : nat).

(** [==] on these values. *)
Definition Value_eqb (a b : Value) : bool :=
  match a, b with
  | PyNone, PyNone => true
  | PyStr s, PyStr t => String.eqb s t
  | PyObject m, PyObject n => Nat.eqb m n
  | _, _ => false
  end.

(** The constants that [apply] compares with and passes on. *)
Definition VISIBLE : Value := PyStr "visible".

Definition HIDDEN : Value := PyStr "hidden".

Definition LEFT : Value := PyStr "left".

Definition RIGHT : Value := PyStr "right".

Definition text_direction_value (d : TextDirection) : Value :=
  match d with RTL => PyStr "rtl" | LTR => PyStr "ltr" end.

(** A widget, as far as [apply] looks at it: the [visibility] of its
    style and its parent. *)
#[local] Unset Elimination Schemes.
Inductive Widget := mkWidget (visibility : Value) (parent : option Widget).
#[local] Set Elimination Schemes.

Definition widget_visibility (w : Widget) : Value :=
  match w with mkWidget v _ => v end.

(** [Pack._hidden]. *)
Definition _hidden (visibility : Value) : bool := Value_eqb visibility HIDDEN.

(** The calls that [apply] makes on the applicator. *)
Inductive Call :=
| set_text_align (value : Value)
| set_color (value : Value)
| set_background_color (value : Value)
| set_hidden (hidden : bool)
| set_font (family size style variant weight : Value)
| refresh.

(** What [apply] reads of the style. *)
Record Applied := mkApplied {
  self_text_direction : TextDirection;
  self_text_align : Value;
  self_font_family : Value;
  self_font_size : Value;
  self_font_style : Value;
  self_font_variant : Value;
  self_font_weight : Value;
  _applicator : option Widget
}.

(** [while widget := widget.parent: if widget.style._hidden: value =
    HIDDEN; break]. *)
Fixpoint look_up_the_chain (widget : Widget) (value : Value) : Value :=
  match widget with
  | mkWidget _ None => value
  | mkWidget _ (Some parent) =>
      if _hidden (widget_visibility parent) then HIDDEN
      else look_up_the_chain parent value
  end.

(** [apply]: the calls it makes on the applicator, in order. Without
    applicator it does nothing. The widget of the applicator stands for
    the applicator. *)
Definition Pack_apply (self : Applied) (prop : string) (value : Value)
    : list Call :=
  match _applicator self with
  | Some widget =>
      if String.eqb prop "text_align" then
        let value :=
          match value with
          | PyNone =>
              match self_text_direction self with
              | RTL => RIGHT
              | LTR => LEFT
              end
          | _ => value
          end in
        [set_text_align value]
      else if String.eqb prop "text_direction" then
        match self_text_align self with
        | PyNone =>
            [set_text_align
               (if Value_eqb value (text_direction_value RTL) then RIGHT
                else LEFT)]
        | _ => []
        end
      else if String.eqb prop "color" then [set_color value]
      else if String.eqb prop "background_color" then
        [set_background_color value]
      else if String.eqb prop "visibility" then
        let value :=
          if Value_eqb value VISIBLE then look_up_the_chain widget value
          else value in
        [set_hidden (Value_eqb value HIDDEN)]
      else if existsb (String.eqb prop)
                ["font_family"; "font_size"; "font_style"; "font_variant";
                 "font_weight"]%string then
        [set_font (self_font_family self) (self_font_size self)
           (self_font_style self) (self_font_variant self)
           (self_font_weight self)]
      else [refresh]
  | None => []
  end.

(** The ancestors of a widget, the parent first. *)
Fixpoint ancestors (widget : Widget) : list Widget :=
  match widget with
  | mkWidget _ None => []
  | mkWidget _ (Some parent) => parent :: ancestors parent
  end.

(** *** More sample inputs *)





(** A column of two childless flex children of weights 1 and 3. *)
Definition flex_column : Node :=
  mkNode (mkPack COLUMN None None None 0 0 0 0 0 LTR) (mkIntrinsic None None)
    stale_box [flex_child_1; flex_child_3].

(** A right-to-left column that stores the deprecated [alignment]. *)
Definition left_aligned_column : Declared :=
  mkDeclared (mkPack COLUMN None None None 0 0 0 0 0 RTL)
    (Some Alignment.LEFT).

(** A visible widget under a hidden parent, with a style that sets no
    text alignment. *)
Definition widget_under_hidden_parent : Widget :=
  mkWidget VISIBLE (Some (mkWidget HIDDEN None)).

Definition applied_style : Applied :=
  mkApplied RTL PyNone PyNone PyNone PyNone PyNone PyNone
    (Some widget_under_hidden_parent).

(** ** Numbers *)

(** *** Rounding to a float *)

Lemma two_pow_pos (k : Z) : 0 < 2 ^ k.
Proof. apply Qpower_0_lt. reflexivity. Qed.

Lemma two_pow_succ (k : Z) : 2 ^ (k + 1) == 2 * 2 ^ k.
Proof. rewrite Qpower_plus by discriminate. change (2 ^ 1) with 2. ring. Qed.

Lemma two_pow_pred (k : Z) : 2 * 2 ^ (k - 1) == 2 ^ k.
Proof.
  rewrite <- two_pow_succ. replace (k - 1 + 1)%Z with k by ring. reflexivity.
Qed.

Lemma two_pow_add (a b : Z) : 2 ^ (a + b) == 2 ^ a * 2 ^ b.
Proof. apply Qpower_plus. discriminate. Qed.

Lemma two_pow_sub (a b : Z) : 2 ^ (a - b) * 2 ^ b == 2 ^ a.
Proof.
  rewrite <- two_pow_add. replace (a - b + b)%Z with a by ring.
  reflexivity.
Qed.

Lemma two_pow_Z (k : Z) : (0 <= k)%Z -> inject_Z (2 ^ k) == 2 ^ k.
Proof. intros H. rewrite Zpower_Qpower by exact H. reflexivity. Qed.

Lemma two_pow_le (a b : Z) : (a <= b)%Z -> 2 ^ a <= 2 ^ b.
Proof. intros H. apply Qpower_le_compat_l; [exact H | discriminate]. Qed.

Lemma two_pow_lt (a b : Z) : (a < b)%Z -> 2 ^ a < 2 ^ b.
Proof. intros H. apply Qpower_lt_compat_l; [exact H | reflexivity]. Qed.

Lemma Zpos_log2_bounds (p : positive) :
  2 ^ Z.log2 (Zpos p) <= inject_Z (Zpos p)
  /\ inject_Z (Zpos p) < 2 * 2 ^ Z.log2 (Zpos p).
Proof.
  destruct (Z.log2_spec (Zpos p) ltac:(lia)) as [H1 H2].
  pose proof (Z.log2_nonneg (Zpos p)) as L.
  rewrite <- two_pow_succ, <- !two_pow_Z by lia.
  rewrite <- Zle_Qle, <- Zlt_Qlt.
  replace (Z.log2 (Z.pos p) + 1)%Z with (Z.succ (Z.log2 (Z.pos p))) by lia.
  split; assumption.
Qed.

Lemma Q_as_quotient (a : Q) :
  a * inject_Z (Zpos (Qden a)) == inject_Z (Qnum a).
Proof.
  destruct a as [n d]. unfold Qeq, Qmult, inject_Z. simpl. lia.
Qed.

Lemma ilog2_spec (a : Q) :
  0 < a -> 2 ^ ilog2 a <= a /\ a < 2 ^ (ilog2 a + 1).
Proof.
  intros Ha. unfold ilog2.
  set (k := (Z.log2 (Qnum a) - Z.log2 (Zpos (Qden a)))%Z).
  assert (Hn : (0 < Qnum a)%Z).
  { destruct a as [n d]. unfold Qlt in Ha. simpl in *. lia. }
  pose proof (Q_as_quotient a) as Ea.
  destruct (Qnum a) as [|n|n] eqn:En; try lia.
  destruct (Zpos_log2_bounds n) as [N1 N2].
  destruct (Zpos_log2_bounds (Qden a)) as [D1 D2].
  pose proof (two_pow_sub (Z.log2 (Zpos n)) (Z.log2 (Zpos (Qden a)))) as Ek.
  fold k in Ek.
  pose proof (two_pow_pos k) as Pk.
  pose proof (two_pow_pos (Z.log2 (Zpos n))) as Pn.
  pose proof (two_pow_pos (Z.log2 (Zpos (Qden a)))) as Pd.
  set (N := inject_Z (Zpos n)) in *.
  set (D := inject_Z (Zpos (Qden a))) in *.
  set (pn := 2 ^ Z.log2 (Zpos n)) in *.
  set (pd := 2 ^ Z.log2 (Zpos (Qden a))) in *.
  set (pk := 2 ^ k) in *.
  assert (Up : a < 2 * pk).
  { apply Qnot_le_lt. intros C.
    assert (X : 2 * pk * pd <= a * D) by nra. nra. }
  assert (Lo : pk < 2 * a).
  { apply Qnot_le_lt. intros C.
    assert (X : 2 * a * D <= pk * (2 * pd)) by nra. nra. }
  destruct (Qle_bool pk a) eqn:B.
  - apply Qle_bool_iff in B. rewrite two_pow_succ. fold pk. split; assumption.
  - assert (B' : a < pk).
    { apply Qnot_le_lt. intros C. apply Qle_bool_iff in C. congruence. }
    replace (k - 1 + 1)%Z with k by ring. fold pk.
    pose proof (two_pow_pred k) as Ep. fold pk in Ep.
    split; [|exact B'].
    pose proof (two_pow_pos (k - 1)). nra.
Qed.

Lemma ilog2_unique (a : Q) (k : Z) :
  2 ^ k <= a -> a < 2 ^ (k + 1) -> ilog2 a = k.
Proof.
  intros H1 H2.
  assert (Ha : 0 < a) by (pose proof (two_pow_pos k); lra).
  destruct (ilog2_spec a Ha) as [S1 S2].
  assert (A : (ilog2 a < k + 1)%Z).
  { apply (fun H => Qpower_lt_compat_l_inv 2 _ _ H ltac:(reflexivity)). lra. }
  assert (B : (k < ilog2 a + 1)%Z).
  { apply (fun H => Qpower_lt_compat_l_inv 2 _ _ H ltac:(reflexivity)). lra. }
  lia.
Qed.

Lemma ilog2_Qeq (a b : Q) : 0 < a -> a == b -> ilog2 a = ilog2 b.
Proof.
  intros Ha E. destruct (ilog2_spec a Ha) as [S1 S2].
  symmetry. apply ilog2_unique; rewrite <- E; assumption.
Qed.

Lemma round_half_even_Qeq (y y' : Q) :
  y == y' -> round_half_even y = round_half_even y'.
Proof.
  intros E. unfold round_half_even. rewrite (Qfloor_comp y y' E).
  assert (C : Qcompare (y - inject_Z (Qfloor y')) (1 # 2)
              = Qcompare (y' - inject_Z (Qfloor y')) (1 # 2)).
  { apply Qcompare_comp; [rewrite E|]; reflexivity. }
  rewrite C. reflexivity.
Qed.

Lemma round_half_even_bounds (y : Q) :
  y - (1 # 2) <= inject_Z (round_half_even y)
  /\ inject_Z (round_half_even y) <= y + (1 # 2).
Proof.
  unfold round_half_even.
  pose proof (Qfloor_le y) as F1. pose proof (Qlt_floor y) as F2.
  rewrite inject_Z_plus in F2. change (inject_Z 1) with 1 in F2.
  destruct (Qcompare_spec (y - inject_Z (Qfloor y)) (1 # 2)) as [E|L|G].
  - destruct (Z.even (Qfloor y)); rewrite ?inject_Z_plus;
      change (inject_Z 1) with 1; lra.
  - lra.
  - rewrite inject_Z_plus. change (inject_Z 1) with 1. lra.
Qed.

Lemma round_half_even_Z (z : Z) : round_half_even (inject_Z z) = z.
Proof.
  unfold round_half_even. rewrite Qfloor_Z.
  destruct (Qcompare_spec (inject_Z z - inject_Z z) (1 # 2)) as [E|L|G];
    [lra | reflexivity | lra].
Qed.

Lemma round_half_even_nonneg (y : Q) :
  0 <= y -> (0 <= round_half_even y)%Z.
Proof.
  intros H. unfold round_half_even.
  assert (F : (0 <= Qfloor y)%Z).
  { rewrite <- (Qfloor_Z 0). apply Qfloor_resp_le. exact H. }
  destruct (Qcompare _ _); [destruct (Z.even _)| |]; lia.
Qed.

(** The two parts of a positive number as [binary64] sees them. *)
Lemma binary64_pos (x : Q) :
  0 < x ->
  binary64 x
  == inject_Z (round_half_even (x / 2 ^ (ilog2 x - 52))) * 2 ^ (ilog2 x - 52).
Proof.
  intros H. unfold binary64.
  destruct (Qeq_bool x 0) eqn:E0.
  { apply Qeq_bool_iff in E0. lra. }
  assert (A : Qabs x == x) by (apply Qabs_pos; lra).
  rewrite (ilog2_Qeq (Qabs x) x) by (rewrite ?A; lra || exact A).
  rewrite (round_half_even_Qeq _ (x / 2 ^ (ilog2 x - 52)))
    by (rewrite A; reflexivity).
  destruct (Qle_bool 0 x) eqn:B; [reflexivity|].
  assert (B' : 0 <= x) by lra. apply Qle_bool_iff in B'. congruence.
Qed.

Lemma binary64_0 (x : Q) : x == 0 -> binary64 x == 0.
Proof.
  intros H. unfold binary64. apply Qeq_bool_iff in H. rewrite H. reflexivity.
Qed.

Lemma binary64_neg (x : Q) : x < 0 -> binary64 x == - binary64 (- x).
Proof.
  intros H. rewrite (binary64_pos (- x)) by lra. unfold binary64.
  destruct (Qeq_bool x 0) eqn:E0.
  { apply Qeq_bool_iff in E0. lra. }
  assert (A : Qabs x == - x) by (apply Qabs_neg; lra).
  rewrite (ilog2_Qeq (Qabs x) (- x)) by (rewrite ?A; lra || exact A).
  rewrite (round_half_even_Qeq _ (- x / 2 ^ (ilog2 (- x) - 52)))
    by (rewrite A; reflexivity).
  destruct (Qle_bool 0 x) eqn:B; [|ring].
  apply Qle_bool_iff in B. lra.
Qed.

Lemma binary64_Qeq (x y : Q) : x == y -> binary64 x == binary64 y.
Proof.
  intros E. destruct (Qlt_le_dec 0 x) as [P|N].
  - rewrite (binary64_pos x P), (binary64_pos y) by lra.
    rewrite (ilog2_Qeq x y P E).
    rewrite (round_half_even_Qeq _ (y / 2 ^ (ilog2 y - 52)))
      by (rewrite E; reflexivity).
    reflexivity.
  - destruct (Qeq_dec x 0) as [Z|NZ].
    + rewrite (binary64_0 x Z), (binary64_0 y) by lra. reflexivity.
    + assert (L : x < 0).
      { apply Qnot_le_lt. intros C. apply NZ. lra. }
      rewrite (binary64_neg x L), (binary64_neg y) by lra.
      assert (P : 0 < - x) by lra.
      rewrite (binary64_pos (- x) P), (binary64_pos (- y)) by lra.
      assert (E' : - x == - y) by (rewrite E; reflexivity).
      rewrite (ilog2_Qeq (- x) (- y) P E').
      rewrite (round_half_even_Qeq _ (- y / 2 ^ (ilog2 (- y) - 52)))
        by (rewrite E'; reflexivity).
      reflexivity.
Qed.

#[export] Instance binary64_Proper : Proper (Qeq ==> Qeq) binary64.
Proof. intros x y E. apply binary64_Qeq. exact E. Qed.

#[export] Instance true_div_Proper : Proper (Qeq ==> Qeq ==> Qeq) true_div.
Proof.
  intros a a' Ea b b' Eb. unfold true_div. rewrite Ea, Eb. reflexivity.
Qed.

#[export] Instance float_mul_Proper : Proper (Qeq ==> Qeq ==> Qeq) float_mul.
Proof.
  intros a a' Ea b b' Eb. unfold float_mul. rewrite Ea, Eb. reflexivity.
Qed.

(** A positive number scaled to 53 bits lies between [2^52] and [2^53]. *)
Lemma scaled_bounds (x : Q) :
  0 < x ->
  2 ^ 52 <= x / 2 ^ (ilog2 x - 52) /\ x / 2 ^ (ilog2 x - 52) < 2 ^ 53.
Proof.
  intros H. destruct (ilog2_spec x H) as [S1 S2].
  pose proof (two_pow_pos (ilog2 x - 52)) as P.
  pose proof (two_pow_sub (ilog2 x) 52) as E1.
  pose proof (two_pow_succ (ilog2 x)) as E2.
  split.
  - apply Qle_shift_div_l; [exact P|].
    change (2 ^ 52) with (inject_Z (2 ^ 52)) in *. nra.
  - apply Qlt_shift_div_r; [exact P|].
    change (2 ^ 53) with (2 * 2 ^ 52). 
    change (2 ^ 52) with (inject_Z (2 ^ 52)) in *. nra.
Qed.

Lemma binary64_nonneg (x : Q) : 0 <= x -> 0 <= binary64 x.
Proof.
  intros H. destruct (Qeq_dec x 0) as [Z|NZ].
  - rewrite (binary64_0 x Z). lra.
  - assert (P : 0 < x) by (apply Qnot_le_lt; intros C; apply NZ; lra).
    rewrite (binary64_pos x P).
    apply Qmult_le_0_compat; [|apply Qlt_le_weak, two_pow_pos].
    change 0 with (inject_Z 0). rewrite <- Zle_Qle.
    apply round_half_even_nonneg.
    destruct (scaled_bounds x P) as [B _].
    pose proof (two_pow_pos 52). lra.
Qed.

Lemma binary64_nonpos (x : Q) : x <= 0 -> binary64 x <= 0.
Proof.
  intros H. destruct (Qeq_dec x 0) as [Z|NZ].
  - rewrite (binary64_0 x Z). lra.
  - assert (N : x < 0) by (apply Qnot_le_lt; intros C; apply NZ; lra).
    rewrite (binary64_neg x N).
    pose proof (binary64_nonneg (- x) ltac:(lra)). lra.
Qed.

(** The relative error of rounding is at most [2^-53]. *)
Lemma binary64_error (x : Q) :
  0 <= x ->
  x - x * unit_roundoff <= binary64 x
  /\ binary64 x <= x + x * unit_roundoff.
Proof.
  unfold unit_roundoff.
  intros H. destruct (Qeq_dec x 0) as [Z|NZ].
  - rewrite (binary64_0 x Z), Z. split; lra.
  - assert (P : 0 < x) by (apply Qnot_le_lt; intros C; apply NZ; lra).
    rewrite (binary64_pos x P).
    destruct (scaled_bounds x P) as [B1 _].
    pose proof (two_pow_pos (ilog2 x - 52)) as Pe.
    set (p := 2 ^ (ilog2 x - 52)) in *.
    destruct (round_half_even_bounds (x / p)) as [R1 R2].
    set (m := inject_Z (round_half_even (x / p))) in *.
    assert (Ex : x / p * p == x) by (field; lra).
    set (y := x / p) in *.
    assert (Hp : p * inject_Z (2 ^ 52) <= x).
    { change (2 ^ 52) with (inject_Z (2 ^ 52)) in B1. nra. }
    change (1 # 9007199254740992) with (/ inject_Z (2 ^ 53)).
    assert (Hu : p * (1 # 2) <= x * / inject_Z (2 ^ 53)).
    { change (inject_Z (2 ^ 53)) with (2 * inject_Z (2 ^ 52)).
      set (t := inject_Z (2 ^ 52)) in *.
      assert (T : 0 < t) by reflexivity.
      setoid_replace (x * / (2 * t)) with (x / t * (1 # 2)) by (field; lra).
      assert (p <= x / t) by (apply Qle_shift_div_l; [exact T | lra]).
      lra. }
    split; nra.
Qed.

(** Numbers with at most 53 significant bits are not changed by rounding. *)
Lemma binary64_dyadic_pos (M E : Z) :
  (0 < M < 2 ^ 53)%Z ->
  binary64 (inject_Z M * 2 ^ E) == inject_Z M * 2 ^ E.
Proof.
  intros [M0 M1].
  set (k := Z.log2 M).
  destruct (Z.log2_spec M M0) as [L1 L2]. fold k in L1, L2.
  assert (K0 : (0 <= k)%Z) by apply Z.log2_nonneg.
  assert (K1 : (k <= 52)%Z).
  { assert (k < 53)%Z; [|lia]. apply Z.log2_lt_pow2; assumption. }
  assert (Q1 : 2 ^ k <= inject_Z M).
  { rewrite <- (two_pow_Z k K0). rewrite <- Zle_Qle. exact L1. }
  assert (Q2 : inject_Z M < 2 ^ (k + 1)).
  { rewrite <- (two_pow_Z (k + 1)) by lia. rewrite <- Zlt_Qlt.
    replace (k + 1)%Z with (Z.succ k) by lia. exact L2. }
  pose proof (two_pow_pos E) as PE.
  assert (P : 0 < inject_Z M * 2 ^ E).
  { apply Qmult_lt_0_compat; [|exact PE].
    change 0 with (inject_Z 0). rewrite <- Zlt_Qlt. exact M0. }
  assert (I : ilog2 (inject_Z M * 2 ^ E) = (k + E)%Z).
  { apply ilog2_unique.
    - rewrite two_pow_add. apply Qmult_le_compat_r; [exact Q1 | lra].
    - replace (k + E + 1)%Z with (k + 1 + E)%Z by ring.
      rewrite two_pow_add. apply Qmult_lt_compat_r; [exact PE | exact Q2]. }
  rewrite (binary64_pos _ P), I.
  pose proof (two_pow_pos (k + E - 52)) as Pp.
  assert (S : 2 ^ (k + E - 52) * 2 ^ (52 - k) == 2 ^ E).
  { rewrite <- two_pow_add. replace (k + E - 52 + (52 - k))%Z with E by ring.
    reflexivity. }
  assert (D : inject_Z M * 2 ^ E / 2 ^ (k + E - 52)
              == inject_Z (M * 2 ^ (52 - k))).
  { rewrite inject_Z_mult, (two_pow_Z (52 - k)) by lia.
    rewrite <- S. field. lra. }
  rewrite (round_half_even_Qeq _ _ D), round_half_even_Z.
  rewrite inject_Z_mult, (two_pow_Z (52 - k)) by lia.
  rewrite <- S. ring.
Qed.

Lemma binary64_dyadic (M E : Z) :
  (Z.abs M < 2 ^ 53)%Z ->
  binary64 (inject_Z M * 2 ^ E) == inject_Z M * 2 ^ E.
Proof.
  intros H. destruct (Z.lt_trichotomy M 0) as [N|[Z|P]].
  - assert (L : inject_Z M * 2 ^ E < 0).
    { pose proof (two_pow_pos E).
      assert (inject_Z M < 0)
        by (change 0 with (inject_Z 0); rewrite <- Zlt_Qlt; exact N).
      nra. }
    rewrite (binary64_neg _ L).
    assert (E' : - (inject_Z M * 2 ^ E) == inject_Z (- M) * 2 ^ E)
      by (rewrite inject_Z_opp; ring).
    rewrite (binary64_Qeq _ _ E'), binary64_dyadic_pos by lia.
    rewrite inject_Z_opp. ring.
  - subst M. rewrite binary64_0; [|ring]. ring.
  - apply binary64_dyadic_pos. lia.
Qed.

(** Integers below [2^53] are floats. *)
Lemma binary64_Z (z : Z) :
  (Z.abs z < 2 ^ 53)%Z -> binary64 (inject_Z z) == inject_Z z.
Proof.
  intros H. pose proof (binary64_dyadic z 0 H) as D.
  assert (E : inject_Z z * 2 ^ 0 == inject_Z z)
    by (change (2 ^ 0) with 1; ring).
  rewrite <- E at 2. rewrite <- D. apply binary64_Qeq. symmetry. exact E.
Qed.

(** Halving, and dividing by a power of two, is exact. *)
Lemma true_div_pow2 (z k : Z) :
  (Z.abs z < 2 ^ 53)%Z ->
  true_div (inject_Z z) (2 ^ k) == inject_Z z / 2 ^ k.
Proof.
  intros H. unfold true_div.
  pose proof (two_pow_pos k) as P.
  assert (E : inject_Z z / 2 ^ k == inject_Z z * 2 ^ (- k)).
  { unfold Qdiv. rewrite Qpower_opp. reflexivity. }
  rewrite (binary64_Qeq _ _ E), E. apply binary64_dyadic. exact H.
Qed.

Lemma true_div_2 (z : Z) :
  (Z.abs z < 2 ^ 53)%Z -> true_div (inject_Z z) 2 == inject_Z z / 2.
Proof. intros H. exact (true_div_pow2 z 1 H). Qed.

(** Halving commutes with rounding. *)
Lemma binary64_half_pos (x : Q) : 0 < x -> binary64 (x / 2) == binary64 x / 2.
Proof.
  intros P. destruct (ilog2_spec x P) as [S1 S2].
  assert (P2 : 0 < x / 2) by (apply Qlt_shift_div_l; lra).
  assert (I : ilog2 (x / 2) = (ilog2 x - 1)%Z).
  { apply ilog2_unique.
    - pose proof (two_pow_pred (ilog2 x)).
      apply Qle_shift_div_l; lra.
    - replace (ilog2 x - 1 + 1)%Z with (ilog2 x) by ring.
      pose proof (two_pow_succ (ilog2 x)).
      apply Qlt_shift_div_r; lra. }
  rewrite (binary64_pos _ P2), (binary64_pos _ P), I.
  replace (ilog2 x - 1 - 52)%Z with (ilog2 x - 52 - 1)%Z by ring.
  pose proof (two_pow_pred (ilog2 x - 52)) as E.
  pose proof (two_pow_pos (ilog2 x - 52 - 1)) as Pp.
  assert (D : x / 2 / 2 ^ (ilog2 x - 52 - 1) == x / 2 ^ (ilog2 x - 52)).
  { rewrite <- E. field. lra. }
  rewrite (round_half_even_Qeq _ _ D).
  set (m := inject_Z (round_half_even _)). clearbody m.
  rewrite <- E. field.
Qed.

Lemma binary64_half (x : Q) : binary64 (x / 2) == binary64 x / 2.
Proof.
  destruct (Qlt_le_dec 0 x) as [P|N]; [apply binary64_half_pos; exact P|].
  destruct (Qeq_dec x 0) as [Z|NZ].
  - rewrite (binary64_0 x Z), (binary64_0 (x / 2)); [reflexivity|].
    rewrite Z. reflexivity.
  - assert (L : x < 0) by (apply Qnot_le_lt; intros C; apply NZ; lra).
    assert (L2 : x / 2 < 0).
    { setoid_replace (x / 2) with (x * (1 # 2)) by reflexivity. lra. }
    rewrite (binary64_neg _ L2), (binary64_neg _ L).
    assert (E : - (x / 2) == - x / 2) by (field).
    rewrite (binary64_Qeq _ _ E), binary64_half_pos by lra. field.
Qed.

(** [x / 2] in the code: a float is halved without error. *)
Lemma true_div_2_float (x : Q) : binary64 x == x -> true_div x 2 == x / 2.
Proof. intros F. unfold true_div. rewrite binary64_half, F. reflexivity. Qed.

(** *** Comparisons, [int] and [max] *)

Lemma int_inject_Z (z : Z) : int (inject_Z z) = z.
Proof. unfold int; simpl. apply Z.quot_1_r. Qed.

Lemma int_floor (q : Q) : 0 <= q -> int q = Qfloor q.
Proof.
  destruct q as [n d]. unfold Qle, int, Qfloor. simpl. intros H.
  rewrite Z.mul_1_r in H. apply Z.quot_div_nonneg; lia.
Qed.

Lemma int_ceiling (q : Q) : q <= 0 -> int q = Qceiling q.
Proof.
  destruct q as [n d]. unfold Qle, int, Qceiling, Qfloor, Qopp. simpl.
  intros H. rewrite Z.mul_1_r in H.
  rewrite <- (Z.opp_involutive n) at 1. rewrite Z.quot_opp_l by lia.
  f_equal. apply Z.quot_div_nonneg; lia.
Qed.

Lemma int_le_mono (a b : Q) : a <= b -> (int a <= int b)%Z.
Proof.
  intros H.
  destruct (Qlt_le_dec a 0) as [Ha|Ha]; destruct (Qlt_le_dec b 0) as [Hb|Hb].
  - rewrite (int_ceiling a), (int_ceiling b) by lra.
    now apply Qceiling_resp_le.
  - rewrite (int_ceiling a) by lra. rewrite (int_floor b) by lra.
    assert (Qceiling a <= 0)%Z.
    { change 0%Z with (Qceiling 0). apply Qceiling_resp_le. lra. }
    assert (0 <= Qfloor b)%Z.
    { change 0%Z with (Qfloor 0). apply Qfloor_resp_le. lra. }
    lia.
  - lra.
  - rewrite (int_floor a), (int_floor b) by lra. now apply Qfloor_resp_le.
Qed.

Lemma int_Qeq (a b : Q) : a == b -> int a = int b.
Proof. intros H. apply Z.le_antisymm; apply int_le_mono; lra. Qed.


(** [int(extra / 2)] is the floor of the exact half when [extra] is a
    float that is not negative. *)
Lemma int_true_div_2 (x : Q) :
  0 <= x -> binary64 x == x -> int (true_div x 2) = Qfloor (x / 2).
Proof.
  intros Hx F.
  assert (H2 : 0 <= x / 2).
  { setoid_replace (x / 2) with (x * (1 # 2)) by reflexivity. lra. }
  rewrite (int_Qeq _ _ (true_div_2_float x F)). apply int_floor. exact H2.
Qed.

(** On integers below [2^53], [int(z / 2)] halves and truncates. *)
Lemma int_quot_of_Z (x : Q) (z : Z) :
  x == inject_Z z -> (Z.abs z < 2 ^ 53)%Z -> int (true_div x 2) = Z.quot z 2.
Proof.
  intros E Hz.
  assert (T : true_div x 2 == inject_Z z / 2).
  { rewrite E. apply true_div_2. exact Hz. }
  rewrite (int_Qeq _ _ T). unfold int, Qdiv, Qmult, Qinv, inject_Z.
  cbn [Qnum Qden]. rewrite Z.mul_1_r. reflexivity.
Qed.

Lemma int_half_of_Z (x : Q) (z : Z) :
  0 <= x -> x == inject_Z z -> (z < 2 ^ 53)%Z ->
  int (true_div x 2) = (z / 2)%Z.
Proof.
  intros Hx E Hz.
  assert (Z0 : (0 <= z)%Z).
  { rewrite Zle_Qle. rewrite <- E. exact Hx. }
  rewrite (int_quot_of_Z x z E) by lia.
  apply Z.quot_div_nonneg; lia.
Qed.

Lemma Qgtb_true (a b : Q) : Qgtb a b = true <-> b < a.
Proof.
  unfold Qgtb. rewrite Qgt_alt. destruct (a ?= b); split; congruence.
Qed.

Lemma Qgtb_false (a b : Q) : Qgtb a b = false <-> a <= b.
Proof.
  unfold Qgtb. rewrite Qle_alt. destruct (a ?= b); split; congruence.
Qed.

Lemma truthy_true (x : Q) : truthy x = true <-> ~ x == 0.
Proof.
  unfold truthy. rewrite negb_true_iff, <- Qeq_bool_iff.
  destruct (Qeq_bool x 0); split; congruence.
Qed.

Lemma truthy_false (x : Q) : truthy x = false <-> x == 0.
Proof. unfold truthy. rewrite negb_false_iff. apply Qeq_bool_iff. Qed.

(** ** Trees *)

Lemma Node_ind (P : Node -> Prop) :
  (forall s i b cs, Forall P cs -> P (mkNode s i b cs)) ->
  forall node, P node.
Proof.
  intros H. fix IH 1. intros [s i b cs]. apply H.
  induction cs as [|c cs IHcs]; constructor; [apply IH | apply IHcs].
Qed.

Lemma nodes_eq (node : Node) :
  nodes node = node :: flat_map nodes (children node).
Proof. destruct node; reflexivity. Qed.

Lemma Forall_nodes (P : Node -> Prop) (node : Node) :
  Forall P (nodes node) <->
  P node /\ Forall (fun c => Forall P (nodes c)) (children node).
Proof.
  rewrite nodes_eq. split.
  - intros H. inversion H as [|x l Hx Hl]; subst. split; [assumption|].
    clear H Hx. induction (children node) as [|c cs IH]; [constructor|].
    simpl in Hl. apply Forall_app in Hl. destruct Hl as [Hc Hcs].
    constructor; auto.
  - intros [Hn Hcs]. constructor; [assumption|].
    induction Hcs as [|c cs Hc _ IH]; simpl; [constructor|].
    apply Forall_app. split; assumption.
Qed.

Lemma _layout_node_eq (node : Node) (alloc_width alloc_height : Q)
    (use_all_width use_all_height : bool) :
  _layout_node node alloc_width alloc_height use_all_width use_all_height =
  layout_node_body _layout_node node alloc_width alloc_height use_all_width
    use_all_height.
Proof. destruct node; reflexivity. Qed.

(** ** Loops *)

Lemma for_each_nil {S : Type} (body : Node -> S -> Node * S) (s : S) :
  for_each body [] s = ([], s).
Proof. reflexivity. Qed.

Lemma for_each_cons {S : Type} (body : Node -> S -> Node * S) (c : Node)
    (cs : list Node) (s : S) :
  for_each body (c :: cs) s =
  (fst (body c s) :: fst (for_each body cs (snd (body c s))),
   snd (for_each body cs (snd (body c s)))).
Proof.
  simpl. destruct (body c s) as [c' s']. simpl.
  destruct (for_each body cs s') as [cs' s'']. reflexivity.
Qed.

Lemma for_each_again_cons {S : Type} (body : Node -> Node -> S -> Node * S)
    (o c : Node) (os cs : list Node) (s : S) :
  for_each_again body (o :: os) (c :: cs) s =
  (fst (body o c s) :: fst (for_each_again body os cs (snd (body o c s))),
   snd (for_each_again body os cs (snd (body o c s)))).
Proof.
  simpl. destruct (body o c s) as [c' s']. simpl.
  destruct (for_each_again body os cs s') as [cs' s'']. reflexivity.
Qed.

(** An invariant [I] of the local variables and a relation [P] between
    each child before and after the body. *)
Lemma for_each_inv {S : Type} (body : Node -> S -> Node * S)
    (I : S -> Prop) (P : Node -> Node -> Prop) (cs : list Node) :
  Forall (fun c => forall s, I s ->
            P c (fst (body c s)) /\ I (snd (body c s))) cs ->
  forall s, I s ->
  Forall2 P cs (fst (for_each body cs s)) /\ I (snd (for_each body cs s)).
Proof.
  induction 1 as [|c cs Hc _ IH]; intros s Hs.
  - simpl. split; [constructor | assumption].
  - rewrite for_each_cons. simpl. destruct (Hc s Hs) as [HP HI].
    destruct (IH _ HI) as [HPs HIs]. split; [constructor|]; assumption.
Qed.

Lemma for_each_again_inv {S : Type} (body : Node -> Node -> S -> Node * S)
    (I : S -> Prop) (P : Node -> Node -> Prop) (before cs : list Node) :
  Forall2 (fun o c => forall s, I s ->
             P o (fst (body o c s)) /\ I (snd (body o c s))) before cs ->
  forall s, I s ->
  Forall2 P before (fst (for_each_again body before cs s)) /\
  I (snd (for_each_again body before cs s)).
Proof.
  induction 1 as [|o c os cs Hc _ IH]; intros s Hs.
  - simpl. split; [constructor | assumption].
  - rewrite for_each_again_cons. simpl. destruct (Hc s Hs) as [HP HI].
    destruct (IH _ HI) as [HPs HIs]. split; [constructor|]; assumption.
Qed.

Lemma Forall2_Forall_l {A B : Type} (P : A -> Prop) (Q R : A -> B -> Prop)
    (l : list A) (l' : list B) :
  Forall P l -> Forall2 Q l l' ->
  (forall a b, P a -> Q a b -> R a b) -> Forall2 R l l'.
Proof.
  intros HP HQ H. induction HQ; constructor; inversion HP; subst; auto.
Qed.

Lemma Forall2_and_r {A B : Type} (P : A -> B -> Prop) (Q : B -> Prop)
    (l : list A) (l' : list B) :
  Forall2 P l l' -> Forall Q l' -> Forall2 (fun a b => P a b /\ Q b) l l'.
Proof.
  induction 1 as [|a b l l' Hab _ IH]; intros HQ; [constructor|].
  inversion HQ; subst. constructor; [split; assumption | apply IH; assumption].
Qed.

Lemma Forall2_trans {A B C : Type} (P : A -> B -> Prop)
    (Q : B -> C -> Prop) (R : A -> C -> Prop) (l1 : list A) (l2 : list B)
    (l3 : list C) :
  (forall a b c, P a b -> Q b c -> R a c) ->
  Forall2 P l1 l2 -> Forall2 Q l2 l3 -> Forall2 R l1 l3.
Proof.
  intros H H12. revert l3. induction H12; intros l3 H23; inversion H23;
    subst; constructor; eauto.
Qed.

Lemma Forall2_map_r {A B C : Type} (P : A -> C -> Prop) (f : B -> C)
    (l : list A) (l' : list B) :
  Forall2 (fun a b => P a (f b)) l l' -> Forall2 P l (map f l').
Proof. induction 1; simpl; constructor; auto. Qed.

Lemma Forall2_Forall_r {A B : Type} (P : A -> B -> Prop) (Q : B -> Prop)
    (l : list A) (l' : list B) :
  Forall2 P l l' -> (forall a b, P a b -> Q b) -> Forall Q l'.
Proof. intros H HQ. induction H; constructor; eauto. Qed.

Lemma for_each_again_ext {S : Type}
    (body body' : Node -> Node -> S -> Node * S) (before cs : list Node) :
  Forall2 (fun o c => forall s, body o c s = body' o c s) before cs ->
  forall s,
  for_each_again body before cs s = for_each_again body' before cs s.
Proof.
  induction 1 as [|o c os cs Hc _ IH]; intros s; [reflexivity|].
  rewrite !for_each_again_cons, Hc, IH. reflexivity.
Qed.

(** ** What [_layout_node] leaves alone *)

Ltac destruct_lets :=
  repeat match goal with
         | |- context [let '(_, _) := ?x in _] => destruct x
         end.

Lemma _layout_node_style node a b u v :
  style (_layout_node node a b u v) = style node.
Proof.
  rewrite _layout_node_eq. unfold layout_node_body. destruct_lets.
  reflexivity.
Qed.

Lemma _layout_node_intrinsic node a b u v :
  intrinsic (_layout_node node a b u v) = intrinsic node.
Proof.
  rewrite _layout_node_eq. unfold layout_node_body. destruct_lets.
  reflexivity.
Qed.

(** ** The passes of the two procedures, for any callee that leaves the
    style and the intrinsic size of a node alone *)

Section Passes.

Variable rec : Node -> Q -> Q -> bool -> bool -> Node.
Hypothesis rec_style : forall c a b u v, style (rec c a b u v) = style c.
Hypothesis rec_intrinsic :
  forall c a b u v, intrinsic (rec c a b u v) = intrinsic c.

Lemma row_pass1_style ah c vars :
  style (fst (row_pass1 rec ah c vars)) = style c.
Proof.
  destruct vars as [[[[ft mf] w] mw] rw]. unfold row_pass1.
  destruct (Style.width (style c)); [apply rec_style|].
  destruct (intrinsic_width (intrinsic c)) as [[n|v]|];
    try destruct (truthy (flex (style c))); cbn [fst]; auto.
Qed.

Lemma column_pass1_style aw c vars :
  style (fst (column_pass1 rec aw c vars)) = style c.
Proof.
  destruct vars as [[[[ft mf] w] mw] rw]. unfold column_pass1.
  destruct (Style.height (style c)); [apply rec_style|].
  destruct (intrinsic_height (intrinsic c)) as [[n|v]|];
    try destruct (truthy (flex (style c))); cbn [fst]; auto.
Qed.

Lemma row_pass1_styles ah cs vars :
  Forall2 (fun c c1 => style c1 = style c) cs
    (fst (for_each (row_pass1 rec ah) cs vars)).
Proof.
  apply (for_each_inv (row_pass1 rec ah) (fun _ => True)); [|exact I].
  apply Forall_forall. intros c _ s _.
  split; [apply row_pass1_style | exact I].
Qed.

Lemma column_pass1_styles aw cs vars :
  Forall2 (fun c c1 => style c1 = style c) cs
    (fst (for_each (column_pass1 rec aw) cs vars)).
Proof.
  apply (for_each_inv (column_pass1 rec aw) (fun _ => True)); [|exact I].
  apply Forall_forall. intros c _ s _.
  split; [apply column_pass1_style | exact I].
Qed.

(** Pass 3 of a row: the row height bounds the outer height of every
    child. *)
Lemma row_pass3_height (td : TextDirection) (w : Q) (cs : list Node) :
  forall o h mh,
  h <= snd (fst (snd (for_each (row_pass3 td w) cs (o, h, mh)))) /\
  Forall (fun c =>
    outer_height c
    <= snd (fst (snd (for_each (row_pass3 td w) cs (o, h, mh)))))
    (fst (for_each (row_pass3 td w) cs (o, h, mh))).
Proof.
  induction cs as [|c cs IH]; intros o h mh.
  - simpl. split; [lra | constructor].
  - rewrite for_each_cons.
    destruct (row_pass3 td w c (o, h, mh)) as [c' [[o' h'] mh']] eqn:E.
    cbn [fst snd]. destruct (IH o' h' mh') as [Hle Hall].
    assert (Hc : h <= h' /\ outer_height c' <= h').
    { unfold row_pass3 in E. destruct td; inversion E; subst; clear E;
        unfold outer_height;
        cbn [style layout set_content_left set_box content_height];
        split; first [apply Q.le_max_l | apply Q.le_max_r]. }
    destruct Hc as [Hh Hc]. split; [lra|]. constructor; [lra | assumption].
Qed.

(** C3 (as amended). Pass 1 of a row defers a child without explicit
    width whose intrinsic width is flexible (an [at_least] lower bound)
    and whose flex weight is positive: the child is not laid out, its
    provisional content and min-content widths are both the lower bound,
    [flex_total] grows by the flex weight and [min_flex] by the lower
    bound with the horizontal margins; pass 2 lays the child out. *)
Theorem row_pass1_defers_flexible_intrinsic_flex_child
    (available_height quantum : Q) (child : Node) (value : Z)
    (flex_total min_flex width min_width remaining_width : Q)
    (width2 min_width2 : Q) :
  Style.width (style child) = None ->
  intrinsic_width (intrinsic child) = Some (at_least value) ->
  0 < flex (style child) ->
  let min_box :=
    inject_Z (margin_left (style child)) + inject_Z value
    + inject_Z (margin_right (style child)) in
  row_pass1 rec available_height child
    (flex_total, min_flex, width, min_width, remaining_width) =
  (child,
   (flex_total + flex (style child), min_flex + min_box, width + min_box,
    min_width + min_box, remaining_width - min_box))
  /\
  fst (row_pass2 rec available_height quantum child child
         (width2, min_width2)) =
  rec child
    (if Qgtb (float_mul quantum (flex (style child))) min_box
     then float_mul quantum (flex (style child)) else min_box)
    available_height true (is_row child).
Proof.
  intros Hw Hi Hf min_box.
  assert (Ht : truthy (flex (style child)) = true).
  { apply truthy_true. intros E. rewrite E in Hf. lra. }
  unfold row_pass1, row_pass2. rewrite Hw, Hi, Ht. split; reflexivity.
Qed.

(** C4 (as amended). Pass 1 of a row lays out at once, with
    [remaining_width] as its allocation, a child without explicit width
    whose intrinsic width is a fixed number; the content and min-content
    contributions of the child are both its resulting content width, and
    pass 2 leaves the child as pass 1 made it, whatever its flex
    weight. *)
Theorem row_pass1_lays_out_fixed_intrinsic_child
    (available_height quantum : Q) (orig child : Node) (n : Z)
    (flex_total min_flex width min_width remaining_width : Q)
    (vars2 : Q * Q) :
  Style.width (style child) = None ->
  intrinsic_width (intrinsic child) = Some (fixed n) ->
  let child' :=
    rec child remaining_width available_height false (is_row child) in
  let box :=
    inject_Z (margin_left (style child))
    + inject_Z (content_width (layout child'))
    + inject_Z (margin_right (style child)) in
  row_pass1 rec available_height child
    (flex_total, min_flex, width, min_width, remaining_width) =
  (child',
   (flex_total, min_flex, width + box, min_width + box,
    remaining_width - box))
  /\
  row_pass2 rec available_height quantum orig child' vars2 = (child', vars2).
Proof.
  intros Hw Hi child' box. split.
  - unfold row_pass1. rewrite Hw, Hi. fold child'. subst box.
    unfold child'. rewrite rec_style. reflexivity.
  - unfold row_pass2, child'. rewrite rec_style, rec_intrinsic, Hw, Hi.
    destruct vars2 as [w2 mw2].
    destruct (truthy (flex (style child))); reflexivity.
Qed.

(** *** Which call lays out which child *)

Lemma row_pass1_child ah c vars :
  row_pass1_result rec ah c (fst (row_pass1 rec ah c vars)).
Proof.
  destruct vars as [[[[ft mf] w] mw] rw].
  unfold row_pass1_result, row_deferred, row_pass1.
  destruct (Style.width (style c)); [eexists; reflexivity|].
  destruct (intrinsic_width (intrinsic c)) as [[n|v]|];
    destruct (truthy (flex (style c))); cbn [fst andb];
    first [reflexivity | eexists; reflexivity].
Qed.

Lemma column_pass1_child aw c vars :
  column_pass1_result rec aw c (fst (column_pass1 rec aw c vars)).
Proof.
  destruct vars as [[[[ft mf] h] mh] rh].
  unfold column_pass1_result, column_deferred, column_pass1.
  destruct (Style.height (style c)); [eexists; reflexivity|].
  destruct (intrinsic_height (intrinsic c)) as [[n|v]|];
    destruct (truthy (flex (style c))); cbn [fst andb];
    first [reflexivity | eexists; reflexivity].
Qed.

Lemma row_pass1_result_static ah o c :
  row_pass1_result rec ah o c -> style c = style o /\ intrinsic c = intrinsic o.
Proof.
  unfold row_pass1_result. destruct (row_deferred o).
  - intros ->. split; reflexivity.
  - intros [a ->]. split; [apply rec_style | apply rec_intrinsic].
Qed.

Lemma row_deferred_static c d :
  style c = style d -> intrinsic c = intrinsic d ->
  row_deferred c = row_deferred d.
Proof.
  intros Hs Hi. unfold row_deferred. rewrite Hs, Hi. reflexivity.
Qed.

Lemma column_pass1_result_static aw o c :
  column_pass1_result rec aw o c ->
  style c = style o /\ intrinsic c = intrinsic o.
Proof.
  unfold column_pass1_result. destruct (column_deferred o).
  - intros ->. split; reflexivity.
  - intros [a ->]. split; [apply rec_style | apply rec_intrinsic].
Qed.

Lemma column_deferred_static c d :
  style c = style d -> intrinsic c = intrinsic d ->
  column_deferred c = column_deferred d.
Proof.
  intros Hs Hi. unfold column_deferred. rewrite Hs, Hi. reflexivity.
Qed.

(** Pass 2 leaves alone every child that pass 1 laid out, and the child
    it lays out is the child as it was before pass 1. *)
Lemma row_pass2_not_deferred ah q o c vars :
  row_deferred c = false -> row_pass2 rec ah q o c vars = (c, vars).
Proof.
  destruct vars as [w mw]. unfold row_deferred, row_pass2.
  destruct (Style.width (style c)); [reflexivity|].
  destruct (truthy (flex (style c))); [|reflexivity].
  destruct (intrinsic_width (intrinsic c)) as [[n|value]|];
    cbn [andb]; first [reflexivity | discriminate].
Qed.

Lemma row_pass2_lays_out_child_itself ah o c :
  row_pass1_result rec ah o c -> row_deferred c = true -> c = o.
Proof.
  intros H Hd. destruct (row_pass1_result_static _ _ _ H) as [Hs Hi].
  rewrite (row_deferred_static _ _ Hs Hi) in Hd.
  unfold row_pass1_result in H. rewrite Hd in H. exact H.
Qed.

Lemma column_pass2_not_deferred aw q o c vars :
  column_deferred c = false -> column_pass2 rec aw q o c vars = (c, vars).
Proof.
  destruct vars as [h mh]. unfold column_deferred, column_pass2.
  destruct (Style.height (style c)); [reflexivity|].
  destruct (truthy (flex (style c))); [|reflexivity].
  destruct (intrinsic_height (intrinsic c)) as [[n|value]|];
    cbn [andb]; first [reflexivity | discriminate].
Qed.

Lemma column_pass2_lays_out_child_itself aw o c :
  column_pass1_result rec aw o c -> column_deferred c = true -> c = o.
Proof.
  intros H Hd. destruct (column_pass1_result_static _ _ _ H) as [Hs Hi].
  rewrite (column_deferred_static _ _ Hs Hi) in Hd.
  unfold column_pass1_result in H. rewrite Hd in H. exact H.
Qed.

(** After pass 2 every child has been laid out by one call. *)
Lemma row_pass2_child ah q o c vars :
  row_pass1_result rec ah o c ->
  row_laid_out rec ah o (fst (row_pass2 rec ah q o c vars)).
Proof.
  destruct vars as [w mw].
  unfold row_pass1_result, row_laid_out, row_deferred, row_pass2, is_row.
  destruct (Style.width (style o)) eqn:Ew.
  - intros [a ->]. rewrite rec_style, Ew. cbn [fst]. eauto.
  - destruct (truthy (flex (style o))) eqn:Ef; cbn [andb].
    + destruct (intrinsic_width (intrinsic o)) as [[n|v]|] eqn:Ei.
      * intros [a ->]. rewrite rec_style, rec_intrinsic, Ew, Ef, Ei.
        cbn [fst]. eauto.
      * intros ->. rewrite Ew, Ef, Ei. cbn [fst]. eauto.
      * intros ->. rewrite Ew, Ef, Ei. cbn [fst]. eauto.
    + intros H.
      assert (H' : exists a, c = rec o a ah false (is_row o)).
      { destruct (intrinsic_width (intrinsic o)) as [[n|v]|]; exact H. }
      destruct H' as [a ->]. rewrite rec_style, Ew, Ef. cbn [fst]. eauto.
Qed.

Lemma column_pass2_child aw q o c vars :
  column_pass1_result rec aw o c ->
  column_laid_out rec aw o (fst (column_pass2 rec aw q o c vars)).
Proof.
  destruct vars as [h mh].
  unfold column_pass1_result, column_laid_out, column_deferred, column_pass2,
    is_column.
  destruct (Style.height (style o)) eqn:Eh.
  - intros [b ->]. rewrite rec_style, Eh. cbn [fst]. eauto.
  - destruct (truthy (flex (style o))) eqn:Ef; cbn [andb].
    + destruct (intrinsic_height (intrinsic o)) as [[n|v]|] eqn:Ei.
      * intros [b ->]. rewrite rec_style, rec_intrinsic, Eh, Ef, Ei.
        cbn [fst]. eauto.
      * intros ->. rewrite Eh, Ef, Ei. cbn [fst]. eauto.
      * intros ->. rewrite Eh, Ef, Ei. cbn [fst]. eauto.
    + intros H.
      assert (H' : exists b, c = rec o aw b (is_column o) false).
      { destruct (intrinsic_height (intrinsic o)) as [[n|v]|]; exact H. }
      destruct H' as [b ->]. rewrite rec_style, Eh, Ef. cbn [fst]. eauto.
Qed.

Lemma row_pass1_children ah cs vars :
  Forall2 (row_pass1_result rec ah) cs
    (fst (for_each (row_pass1 rec ah) cs vars)).
Proof.
  apply (for_each_inv (row_pass1 rec ah) (fun _ => True)); [|exact I].
  apply Forall_forall. intros c _ s _.
  split; [apply row_pass1_child | exact I].
Qed.

Lemma column_pass1_children aw cs vars :
  Forall2 (column_pass1_result rec aw) cs
    (fst (for_each (column_pass1 rec aw) cs vars)).
Proof.
  apply (for_each_inv (column_pass1 rec aw) (fun _ => True)); [|exact I].
  apply Forall_forall. intros c _ s _.
  split; [apply column_pass1_child | exact I].
Qed.

Lemma row_pass2_children ah q before cs vars :
  Forall2 (row_pass1_result rec ah) before cs ->
  Forall2 (row_laid_out rec ah) before
    (fst (for_each_again (row_pass2 rec ah q) before cs vars)).
Proof.
  intros H.
  apply (for_each_again_inv (row_pass2 rec ah q) (fun _ => True));
    [|exact I].
  revert H. apply Forall2_impl. intros o c Hoc s _.
  split; [apply row_pass2_child; exact Hoc | exact I].
Qed.

Lemma column_pass2_children aw q before cs vars :
  Forall2 (column_pass1_result rec aw) before cs ->
  Forall2 (column_laid_out rec aw) before
    (fst (for_each_again (column_pass2 rec aw q) before cs vars)).
Proof.
  intros H.
  apply (for_each_again_inv (column_pass2 rec aw q) (fun _ => True));
    [|exact I].
  revert H. apply Forall2_impl. intros o c Hoc s _.
  split; [apply column_pass2_child; exact Hoc | exact I].
Qed.

Lemma row_pass3_child td w c vars :
  exists l, fst (row_pass3 td w c vars) = set_content_left c l.
Proof.
  destruct vars as [[o h] mh]. unfold row_pass3.
  destruct td; cbn [fst]; eauto.
Qed.

Lemma column_pass3_child c vars :
  exists t, fst (column_pass3 c vars) = set_content_top c t.
Proof. destruct vars as [[o w] mw]. unfold column_pass3. cbn [fst]. eauto. Qed.

Lemma row_pass4_child ai h c :
  exists t, row_pass4 ai h c = set_content_top c t.
Proof. unfold row_pass4. destruct ai as [[ | | ]|]; eauto. Qed.

Lemma column_pass4_child self w c :
  exists l, column_pass4 self w c = set_content_left c l.
Proof.
  unfold column_pass4.
  destruct (text_direction self), (align_items self) as [[ | | ]|]; eauto.
Qed.

Lemma row_pass3_children td w cs vars :
  Forall2 (fun c c3 => exists l, c3 = set_content_left c l) cs
    (fst (for_each (row_pass3 td w) cs vars)).
Proof.
  apply (for_each_inv (row_pass3 td w) (fun _ => True)); [|exact I].
  apply Forall_forall. intros c _ s _.
  split; [apply row_pass3_child | exact I].
Qed.

Lemma column_pass3_children cs vars :
  Forall2 (fun c c3 => exists t, c3 = set_content_top c t) cs
    (fst (for_each column_pass3 cs vars)).
Proof.
  apply (for_each_inv column_pass3 (fun _ => True)); [|exact I].
  apply Forall_forall. intros c _ s _.
  split; [apply column_pass3_child | exact I].
Qed.

(** Each procedure lays out every child exactly once and then sets its
    position; the call on a child of a row gets the available height of
    the row and [use_all_height = (direction == ROW)], the call on a
    child of a column the available width of the column and
    [use_all_width = (direction == COLUMN)]. *)
Lemma row_children_calls self node aw ah uw uh :
  Forall2 (fun c c' => exists a u l t,
             c' = set_position (rec c a ah u (is_row c)) l t)
    (children node)
    (fst (_layout_row_children rec self node aw ah uw uh)).
Proof.
  unfold _layout_row_children.
  assert (U1 := row_pass1_children ah (children node) (0, 0, 0, 0, aw)).
  destruct (for_each (row_pass1 rec ah) (children node) (0, 0, 0, 0, aw))
    as [cs1 [[[[ft mf] w] mw] rw]]. cbn [fst] in U1.
  set (quantum := if Qgtb ft 0 then _ else _). clearbody quantum.
  assert (U2 := row_pass2_children ah quantum (children node) cs1 (w, mw) U1).
  destruct (for_each_again (row_pass2 rec ah quantum) (children node) cs1
              (w, mw)) as [cs2 [w2 mw2]]. cbn [fst] in U2.
  set (w3 := if uw then _ else _). clearbody w3.
  assert (U3 := row_pass3_children (text_direction (style node)) w3 cs2
                  (0, 0, 0)).
  destruct (for_each (row_pass3 (text_direction (style node)) w3) cs2
              (0, 0, 0)) as [cs3 [[o3 h3] mh3]]. cbn [fst] in U3.
  apply Forall2_map_r.
  assert (H23 : Forall2 (fun c c3 => exists a u l,
              c3 = set_content_left (rec c a ah u (is_row c)) l)
            (children node) cs3).
  { eapply Forall2_trans; [| exact U2 | exact U3].
    intros c c2 c3 [a [u ->]] [l ->]. eauto. }
  revert H23. apply Forall2_impl.
  intros c c3 [a [u [l ->]]].
  destruct (row_pass4_child (align_items self)
              (if uh then Qmax h3 ah else h3)
              (set_content_left (rec c a ah u (is_row c)) l)) as [t ->].
  exists a, u, l, t. reflexivity.
Qed.

Lemma column_children_calls self node aw ah uw uh :
  Forall2 (fun c c' => exists b v l t,
             c' = set_position (rec c aw b (is_column c) v) l t)
    (children node)
    (fst (_layout_column_children rec self node aw ah uw uh)).
Proof.
  unfold _layout_column_children.
  assert (U1 := column_pass1_children aw (children node) (0, 0, 0, 0, ah)).
  destruct (for_each (column_pass1 rec aw) (children node) (0, 0, 0, 0, ah))
    as [cs1 [[[[ft mf] h] mh] rh]]. cbn [fst] in U1.
  set (quantum := if Qgtb ft 0 then _ else _). clearbody quantum.
  assert (U2 := column_pass2_children aw quantum (children node) cs1 (h, mh)
                  U1).
  destruct (for_each_again (column_pass2 rec aw quantum) (children node) cs1
              (h, mh)) as [cs2 [h2 mh2]]. cbn [fst] in U2.
  assert (U3 := column_pass3_children cs2 (0, 0, 0)).
  destruct (for_each column_pass3 cs2 (0, 0, 0)) as [cs3 [[o3 w3] mw3]].
  cbn [fst] in U3.
  apply Forall2_map_r.
  assert (H23 : Forall2 (fun c c3 => exists b v t,
              c3 = set_content_top (rec c aw b (is_column c) v) t)
            (children node) cs3).
  { eapply Forall2_trans; [| exact U2 | exact U3].
    intros c c2 c3 [b [v ->]] [t ->]. eauto. }
  revert H23. apply Forall2_impl.
  intros c c3 [b [v [t ->]]].
  destruct (column_pass4_child self
              (if uw then Qmax w3 aw else w3)
              (set_content_top (rec c aw b (is_column c) v) t)) as [l ->].
  exists b, v, l, t. reflexivity.
Qed.

Lemma row_children_laid_out self node aw ah uw uh :
  Forall2 (laid_out_and_placed rec) (children node)
    (fst (_layout_row_children rec self node aw ah uw uh)).
Proof.
  pose proof (row_children_calls self node aw ah uw uh) as H.
  revert H. apply Forall2_impl. intros c c' [a [u [l [t ->]]]].
  exists a, ah, u, (is_row c), l, t. reflexivity.
Qed.

Lemma column_children_laid_out self node aw ah uw uh :
  Forall2 (laid_out_and_placed rec) (children node)
    (fst (_layout_column_children rec self node aw ah uw uh)).
Proof.
  pose proof (column_children_calls self node aw ah uw uh) as H.
  revert H. apply Forall2_impl. intros c c' [b [v [l [t ->]]]].
  exists aw, b, (is_column c), v, l, t. reflexivity.
Qed.

(** Pass 4, child by child: every returned child is a child of the node,
    laid out and placed; [extra] is not negative in a row. *)
Lemma row_pass4_tops self node aw ah uw uh :
  let '(cs', (_, _, _, height)) :=
    _layout_row_children rec self node aw ah uw uh in
  Forall2 (fun c child =>
    laid_out_and_placed rec c child /\
    let extra :=
      height
      - (inject_Z (content_height (layout child))
         + inject_Z (margin_top (style child))
         + inject_Z (margin_bottom (style child))) in
    0 <= extra /\
    content_top (layout child) =
      match align_items self with
      | Some END => extra + inject_Z (margin_top (style child))
      | Some CENTER =>
          inject_Z (int (true_div extra 2))
          + inject_Z (margin_top (style child))
      | _ => inject_Z (margin_top (style child))
      end)
    (children node) cs'.
Proof.
  pose proof (row_children_laid_out self node aw ah uw uh) as L.
  assert (F :
    let '(cs', (_, _, _, height)) :=
      _layout_row_children rec self node aw ah uw uh in
    Forall (fun child =>
      let extra :=
        height
        - (inject_Z (content_height (layout child))
           + inject_Z (margin_top (style child))
           + inject_Z (margin_bottom (style child))) in
      0 <= extra /\
      content_top (layout child) =
        match align_items self with
        | Some END => extra + inject_Z (margin_top (style child))
        | Some CENTER =>
            inject_Z (int (true_div extra 2))
            + inject_Z (margin_top (style child))
        | _ => inject_Z (margin_top (style child))
        end) cs').
  { unfold _layout_row_children.
    destruct (for_each (row_pass1 rec ah) (children node) _)
      as [cs1 [[[[ft mf] w] mw] rw]].
    destruct (for_each_again _ (children node) cs1 (w, mw))
      as [cs2 [w2 mw2]].
    set (w3 := if uw then _ else _).
    pose proof (row_pass3_height (text_direction (style node)) w3 cs2 0 0 0)
      as [_ H3].
    destruct (for_each (row_pass3 _ w3) cs2 (0, 0, 0))
      as [cs3 [[o3 h3] mh3]].
    cbn [fst snd] in H3.
    set (h4 := if uh then _ else _).
    assert (Hh : h3 <= h4).
    { subst h4. destruct uh; [apply Q.le_max_l | lra]. }
    apply Forall_map. revert H3. apply Forall_impl. intros c Hc.
    unfold outer_height in Hc. unfold row_pass4.
    destruct (align_items self) as [[ | | ]|];
      cbn [layout style set_content_top set_box content_top content_height];
      (split; [lra | reflexivity]). }
  destruct (_layout_row_children rec self node aw ah uw uh)
    as [cs' [[[mw w] mh] h]].
  cbn [fst] in L. apply Forall2_and_r; assumption.
Qed.

Lemma column_pass4_lefts self node aw ah uw uh :
  let '(cs', (_, width, _, _)) :=
    _layout_column_children rec self node aw ah uw uh in
  Forall2 (fun c child =>
    laid_out_and_placed rec c child /\
    let extra :=
      width
      - (inject_Z (content_width (layout child))
         + inject_Z (margin_left (style child))
         + inject_Z (margin_right (style child))) in
    content_left (layout child) =
      match text_direction self, align_items self with
      | LTR, Some END | RTL, Some START =>
          extra + inject_Z (margin_left (style child))
      | _, Some CENTER =>
          inject_Z (int (true_div extra 2))
          + inject_Z (margin_left (style child))
      | _, _ => inject_Z (margin_left (style child))
      end)
    (children node) cs'.
Proof.
  pose proof (column_children_laid_out self node aw ah uw uh) as L.
  assert (F :
    let '(cs', (_, width, _, _)) :=
      _layout_column_children rec self node aw ah uw uh in
    Forall (fun child =>
      let extra :=
        width
        - (inject_Z (content_width (layout child))
           + inject_Z (margin_left (style child))
           + inject_Z (margin_right (style child))) in
      content_left (layout child) =
        match text_direction self, align_items self with
        | LTR, Some END | RTL, Some START =>
            extra + inject_Z (margin_left (style child))
        | _, Some CENTER =>
            inject_Z (int (true_div extra 2))
            + inject_Z (margin_left (style child))
        | _, _ => inject_Z (margin_left (style child))
        end) cs').
  { unfold _layout_column_children.
    destruct (for_each (column_pass1 rec aw) (children node) _)
      as [cs1 [[[[ft mf] h] mh] rh]].
    destruct (for_each_again _ (children node) cs1 (h, mh))
      as [cs2 [h2 mh2]].
    destruct (for_each column_pass3 cs2 (0, 0, 0)) as [cs3 [[o3 w3] mw3]].
    set (w4 := if uw then _ else _).
    apply Forall_map. apply Forall_forall. intros c _.
    unfold column_pass4.
    destruct (text_direction self), (align_items self) as [[ | | ]|];
      cbn [layout style set_content_left set_box content_left content_width];
      reflexivity. }
  destruct (_layout_column_children rec self node aw ah uw uh)
    as [cs' [[[mw w] mh] h]].
  cbn [fst] in L. apply Forall2_and_r; assumption.
Qed.

(** *** Min-content totals never exceed content totals *)










End Passes.

(** C7 (as amended). Pass 4 of a row, for every child of the node: the
    returned child is that child, laid out and placed; with [extra] the
    row height less the outer height of the child, [extra] is not
    negative and [content_top] is [extra + margin_top] under
    [align_items = END], [int(extra / 2) + margin_top] under [CENTER],
    the quotient rounded to a float, and [margin_top] otherwise.
    [int(extra / 2)] is [floor(extra / 2)] whenever [extra] is a float,
    as every integer up to [2^53] is. In a row of height 100 a child of
    content height 20 without margins gets 40, 80 and 0. *)
Theorem row_pass4_vertical_alignment (self : Pack) (node : Node)
    (available_width available_height : Q)
    (use_all_width use_all_height : bool) :
  let '(node_children, (_, _, _, height)) :=
    _layout_row_children _layout_node self node available_width
      available_height use_all_width use_all_height in
  Forall2 (fun c child =>
    laid_out_and_placed _layout_node c child /\
    let extra :=
      height
      - (inject_Z (content_height (layout child))
         + inject_Z (margin_top (style child))
         + inject_Z (margin_bottom (style child))) in
    0 <= extra /\
    content_top (layout child) =
      match align_items self with
      | Some END => extra + inject_Z (margin_top (style child))
      | Some CENTER =>
          inject_Z (int (true_div extra 2))
          + inject_Z (margin_top (style child))
      | _ => inject_Z (margin_top (style child))
      end
    /\ (binary64 extra == extra ->
        int (true_div extra 2) = Qfloor (extra / 2))
    /\ (forall z : Z, extra == inject_Z z -> (z < 2 ^ 53)%Z ->
        int (true_div extra 2) = (z / 2)%Z)
    /\ (height == 100 -> content_height (layout child) = 20%Z ->
        margin_top (style child) = 0%Z ->
        margin_bottom (style child) = 0%Z ->
        content_top (layout child) ==
          match align_items self with
          | Some CENTER => 40
          | Some END => 80
          | _ => 0
          end))
    (children node) node_children.
Proof.
  pose proof (row_pass4_tops _layout_node _layout_node_style
                _layout_node_intrinsic self node available_width
                available_height use_all_width use_all_height) as H.
  destruct (_layout_row_children _ _ _ _ _ _ _) as [cs' [[[mw w] mh] h]].
  revert H. apply Forall2_impl. intros c child [L [H0 Ht]].
  split; [exact L|]. split; [exact H0|]. split; [exact Ht|].
  split; [|split].
  - intros F. apply int_true_div_2; assumption.
  - intros z Ez Hz. apply int_half_of_Z; assumption.
  - intros E1 E2 E3 E4. rewrite Ht, E2, E3, E4.
    assert (E : h - (inject_Z 20 + inject_Z 0 + inject_Z 0) == 80).
    { rewrite E1. reflexivity. }
    destruct (align_items self) as [[ | | ]|].
    + reflexivity.
    + rewrite (int_Qeq _ (true_div 80 2)); [reflexivity|].
      rewrite E. reflexivity.
    + rewrite E. reflexivity.
    + reflexivity.
Qed.

(** C8 (as amended). Pass 4 of a column, for every child of the node: the
    returned child is that child, laid out and placed; with [extra] the
    column width less the outer width of the child, [content_left] is
    [extra + margin_left] exactly in the two combinations (LTR, END) and
    (RTL, START); it is [int(extra / 2) + margin_left] when [align_items]
    is CENTER, the quotient rounded to a float; and [margin_left] in every
    other combination. [int(extra / 2)] is the integer-truncated half of
    [extra] whenever [extra] is a float, as every integer up to [2^53]
    is. *)
Theorem column_pass4_horizontal_alignment (self : Pack) (node : Node)
    (available_width available_height : Q)
    (use_all_width use_all_height : bool) :
  let '(node_children, (_, width, _, _)) :=
    _layout_column_children _layout_node self node available_width
      available_height use_all_width use_all_height in
  Forall2 (fun c child =>
    laid_out_and_placed _layout_node c child /\
    let extra :=
      width
      - (inject_Z (content_width (layout child))
         + inject_Z (margin_left (style child))
         + inject_Z (margin_right (style child))) in
    let trailing :=
      (text_direction self = LTR /\ align_items self = Some END)
      \/ (text_direction self = RTL /\ align_items self = Some START) in
    (trailing ->
     content_left (layout child)
     = extra + inject_Z (margin_left (style child)))
    /\ (align_items self = Some CENTER ->
        content_left (layout child)
        = inject_Z (int (true_div extra 2))
          + inject_Z (margin_left (style child)))
    /\ (~ trailing -> align_items self <> Some CENTER ->
        content_left (layout child) = inject_Z (margin_left (style child)))
    /\ (binary64 extra == extra ->
        int (true_div extra 2) = int (extra / 2))
    /\ (forall z : Z, extra == inject_Z z -> (Z.abs z < 2 ^ 53)%Z ->
        int (true_div extra 2) = Z.quot z 2))
    (children node) node_children.
Proof.
  pose proof (column_pass4_lefts _layout_node _layout_node_style
                _layout_node_intrinsic self node available_width
                available_height use_all_width use_all_height) as H.
  destruct (_layout_column_children _ _ _ _ _ _ _)
    as [cs' [[[mw w] mh] h]].
  revert H. apply Forall2_impl. intros c child [L Hl].
  split; [exact L|]. cbv zeta.
  split; [|split; [|split; [|split]]].
  - intros [[Et Ea]|[Et Ea]]; rewrite Hl, Et, Ea; reflexivity.
  - intros Ea. rewrite Hl, Ea. destruct (text_direction self); reflexivity.
  - intros Nt Nc. rewrite Hl.
    destruct (text_direction self), (align_items self) as [[ | | ]|];
      try reflexivity; try congruence; exfalso; apply Nt; auto.
  - intros F. apply int_Qeq, true_div_2_float. exact F.
  - intros z Ez Hz. apply int_quot_of_Z; assumption.
Qed.

(** ** The whole tree *)

Lemma nodes_set_position (P : Node -> Prop) n l t :
  (forall n l t, P n -> P (set_position n l t)) ->
  Forall P (nodes n) -> Forall P (nodes (set_position n l t)).
Proof.
  intros HP H. apply Forall_nodes in H. destruct H as [Hn Hc].
  apply Forall_nodes. split; [apply HP; assumption | exact Hc].
Qed.

Lemma _layout_node_children node a b u v :
  Forall2 (laid_out_and_placed _layout_node) (children node)
    (children (_layout_node node a b u v)).
Proof.
  rewrite _layout_node_eq. unfold layout_node_body.
  set (aw := match Style.width (style node) with Some _ => _ | None => _ end).
  set (ah := match Style.height (style node) with Some _ => _ | None => _ end).
  destruct aw as [aw mw0], ah as [ah mh0].
  destruct (children node) as [|c cs] eqn:E.
  - destruct_lets. cbn. constructor.
  - rewrite <- E. destruct (direction (style node)).
    + pose proof (row_children_laid_out _layout_node _layout_node_style
                    _layout_node_intrinsic (style node) node aw ah u v) as H.
      destruct (_layout_row_children _ _ _ _ _ _ _)
        as [cs' [[[mw w] mh] h]].
      destruct_lets. exact H.
    + pose proof (column_children_laid_out _layout_node _layout_node_style
                    _layout_node_intrinsic (style node) node aw ah u v) as H.
      destruct (_layout_column_children _ _ _ _ _ _ _)
        as [cs' [[[mw w] mh] h]].
      destruct_lets. exact H.
Qed.

(** A property of single nodes that does not read the position, and that
    [_layout_node] establishes at a node once it holds of whatever the
    calls on the children return, holds of every node after a layout. *)
Lemma _layout_node_establishes (P : Node -> Prop) :
  (forall n l t, P n -> P (set_position n l t)) ->
  (forall node a b u v,
     Forall (fun c => forall a' b' u' v', P (_layout_node c a' b' u' v'))
       (children node) ->
     P (_layout_node node a b u v)) ->
  forall node a b u v, Forall P (nodes (_layout_node node a b u v)).
Proof.
  intros Hpos Hroot node.
  induction node as [s i bx cs IH] using Node_ind. intros a b u v.
  apply Forall_nodes. split.
  - apply Hroot. cbn [children]. revert IH. apply Forall_impl.
    intros c Hc a' b' u' v'. specialize (Hc a' b' u' v').
    apply Forall_nodes in Hc. apply Hc.
  - pose proof (_layout_node_children (mkNode s i bx cs) a b u v) as H.
    cbn [children] in H.
    apply (Forall2_Forall_l _ _ (fun _ c' => Forall P (nodes c')) _ _ IH)
      in H.
    + apply (Forall2_Forall_r _ _ _ _ H). auto.
    + intros c c' Hc [a' [b' [u' [v' [l [t ->]]]]]].
      apply nodes_set_position; [exact Hpos | apply Hc].
Qed.

Lemma Pack_layout_nodes (P : Node -> Prop) root vw vh :
  (forall n v, P n -> P (set_content_top n v)) ->
  (forall n v, P n -> P (set_content_left n v)) ->
  (forall n v, P n -> P (set_content_bottom n v)) ->
  (forall n v, P n -> P (set_content_right n v)) ->
  Forall P
    (nodes (_layout_node root (inject_Z vw) (inject_Z vh) true true)) ->
  Forall P (nodes (Pack_layout root vw vh)).
Proof.
  intros Ht Hl Hb Hr H. unfold Pack_layout.
  apply Forall_nodes in H. destruct H as [Hn Hc].
  apply Forall_nodes. split.
  - apply Hr, Hl, Hb, Ht, Hn.
  - exact Hc.
Qed.

Lemma _layout_node_explicit node a b u v :
  explicit_size_dominates (_layout_node node a b u v).
Proof.
  rewrite _layout_node_eq. unfold layout_node_body.
  unfold explicit_size_dominates.
  destruct (Style.width (style node)) as [W0|] eqn:Ew;
    destruct (Style.height (style node)) as [H0|] eqn:Eh;
    cbv beta iota zeta; destruct_lets;
    cbn [style layout set_sizes set_box content_width content_height
         min_content_width min_content_height];
    rewrite ?Ew, ?Eh, ?int_inject_Z;
    split; intros X HX; inversion HX; subst; auto.
Qed.

Lemma skeleton_eq node :
  skeleton node
  = mkSkeleton (style node) (intrinsic node) (map skeleton (children node)).
Proof. destruct node; reflexivity. Qed.

Lemma skeleton_set_position n l t :
  skeleton (set_position n l t) = skeleton n.
Proof. rewrite !skeleton_eq. reflexivity. Qed.

Lemma _layout_node_skeleton node :
  forall a b u v, skeleton (_layout_node node a b u v) = skeleton node.
Proof.
  induction node as [s i bx cs IH] using Node_ind. intros a b u v.
  rewrite (skeleton_eq (_layout_node _ _ _ _ _)),
    (skeleton_eq (mkNode _ _ _ _)).
  rewrite _layout_node_style, _layout_node_intrinsic. f_equal.
  pose proof (_layout_node_children (mkNode s i bx cs) a b u v) as H.
  cbn [children] in *.
  apply (Forall2_Forall_l _ _ (fun c c' => skeleton c' = skeleton c) _ _ IH)
    in H.
  - clear IH. induction H; simpl; congruence.
  - intros c c' Hc [a' [b' [u' [v' [l [t ->]]]]]].
    rewrite skeleton_set_position. apply Hc.
Qed.

Lemma Pack_layout_skeleton root vw vh :
  skeleton (Pack_layout root vw vh) = skeleton root.
Proof.
  unfold Pack_layout.
  rewrite <- (_layout_node_skeleton root (inject_Z vw) (inject_Z vh) true
                true).
  rewrite !skeleton_eq. reflexivity.
Qed.

(** Two trees with the same skeleton have the same nodes, one by one. *)
Lemma skeleton_nodes (a : Node) :
  forall b, skeleton a = skeleton b ->
  Forall2 (fun n n' => style n' = style n /\ intrinsic n' = intrinsic n)
    (nodes a) (nodes b).
Proof.
  induction a as [s i bx cs IH] using Node_ind. intros b E.
  rewrite (skeleton_eq b), skeleton_eq in E.
  cbn [style intrinsic children] in E. injection E as Es Ei Ec.
  rewrite (nodes_eq b), nodes_eq. cbn [children].
  constructor; [cbn [style intrinsic]; split; congruence|].
  revert Ec. generalize (children b).
  induction IH as [|c cs' Hc _ IHcs]; intros [|d ds] Ec; simpl in Ec;
    try discriminate; [constructor|].
  injection Ec as E1 E2. simpl. apply Forall2_app; auto.
Qed.

Lemma Pack_layout_explicit root vw vh :
  Forall explicit_size_dominates (nodes (Pack_layout root vw vh)).
Proof.
  apply Pack_layout_nodes; try (intros n v H; exact H).
  apply _layout_node_establishes.
  - intros n l t H; exact H.
  - intros node a b u v _. apply _layout_node_explicit.
Qed.

(** C1. [layout] returns the tree it was given, node by node, with new
    boxes: the styles and intrinsic sizes are those of the input. For
    every node of the input whose style sets an explicit width [W], the
    box of that node after the layout has [content_width = W] and
    [min_content_width = W], whatever its children and its intrinsic
    size; likewise for an explicit height. *)
Theorem explicit_size_dominance (root : Node)
    (viewport_width viewport_height : Z) :
  let root' := Pack_layout root viewport_width viewport_height in
  skeleton root' = skeleton root /\
  Forall2 (fun node node' =>
     style node' = style node /\ intrinsic node' = intrinsic node /\
     (forall W, Style.width (style node) = Some W ->
        content_width (layout node') = W /\
        min_content_width (layout node') = W) /\
     (forall H, Style.height (style node) = Some H ->
        content_height (layout node') = H /\
        min_content_height (layout node') = H))
    (nodes root) (nodes root').
Proof.
  intros root'.
  pose proof (Pack_layout_skeleton root viewport_width viewport_height) as S.
  fold root' in S. split; [exact S|].
  pose proof (skeleton_nodes root root' (eq_sym S)) as N.
  pose proof (Pack_layout_explicit root viewport_width viewport_height) as E.
  fold root' in E.
  pose proof (Forall2_and_r _ _ _ _ N E) as NE.
  revert NE. apply Forall2_impl.
  intros n n' [[Hs Hi] [Hw Hh]]. rewrite <- Hs.
  split; [reflexivity|]. split; [exact Hi|]. split; [exact Hw | exact Hh].
Qed.



(** ** Rows of two children *)

Lemma _layout_node_explicit_width node a b u v W :
  Style.width (style node) = Some W ->
  content_width (layout (_layout_node node a b u v)) = W.
Proof.
  intros H. destruct (_layout_node_explicit node a b u v) as [Hw _].
  rewrite _layout_node_style in Hw. apply (Hw W H).
Qed.

Lemma row_pass1_explicit ah c W ft mf w mw rw :
  Style.width (style c) = Some W ->
  row_pass1 _layout_node ah c (ft, mf, w, mw, rw) =
  (_layout_node c rw ah false (is_row c),
   (ft, mf,
    w + (inject_Z (margin_left (style c)) + inject_Z W
         + inject_Z (margin_right (style c))),
    mw + (inject_Z (margin_left (style c)) + inject_Z W
          + inject_Z (margin_right (style c))),
    rw - (inject_Z (margin_left (style c)) + inject_Z W
          + inject_Z (margin_right (style c))))).
Proof.
  intros H. unfold row_pass1. rewrite H.
  rewrite (_layout_node_explicit_width _ _ _ _ _ W H), _layout_node_style.
  reflexivity.
Qed.

Lemma row_pass2_explicit rec ah q o c W vars :
  Style.width (style c) = Some W -> row_pass2 rec ah q o c vars = (c, vars).
Proof. intros H. unfold row_pass2. rewrite H. destruct vars; reflexivity. Qed.

Lemma row_pass4_content_left ai h c :
  content_left (layout (row_pass4 ai h c)) = content_left (layout c).
Proof. unfold row_pass4. destruct ai as [[ | | ]|]; reflexivity. Qed.

Lemma row_pass4_content_width ai h c :
  content_width (layout (row_pass4 ai h c)) = content_width (layout c).
Proof. unfold row_pass4. destruct ai as [[ | | ]|]; reflexivity. Qed.

(** C6. A row of available width 30 with two children of explicit widths
    10 and 20 and no horizontal margins has width 30; under LTR the first
    child is placed at [content_left = 0] and the second at 10, under RTL
    the first at 20 and the second at 0. *)
Theorem rtl_mirroring (self : Pack) (node a b : Node)
    (available_height : Q) (use_all_width use_all_height : bool) :
  children node = [a; b] ->
  Style.width (style a) = Some 10%Z -> Style.width (style b) = Some 20%Z ->
  margin_left (style a) = 0%Z -> margin_right (style a) = 0%Z ->
  margin_left (style b) = 0%Z -> margin_right (style b) = 0%Z ->
  let '(node_children, (_, width, _, _)) :=
    _layout_row_children _layout_node self node 30 available_height
      use_all_width use_all_height in
  width == 30 /\
  exists a' b',
    node_children = [a'; b'] /\
    content_width (layout a') = 10%Z /\ content_width (layout b') = 20%Z /\
    match text_direction (style node) with
    | LTR => content_left (layout a') == 0 /\ content_left (layout b') == 10
    | RTL => content_left (layout a') == 20 /\ content_left (layout b') == 0
    end.
Proof.
  intros Hc Ha Hb Hal Har Hbl Hbr.
  unfold _layout_row_children. rewrite Hc.
  rewrite !for_each_cons. cbn [for_each fst snd].
  rewrite (row_pass1_explicit _ a 10 _ _ _ _ _ Ha). cbn [fst snd].
  rewrite (row_pass1_explicit _ b 20 _ _ _ _ _ Hb). cbn [fst snd].
  rewrite Hal, Har, Hbl, Hbr.
  change (Qgtb 0 0) with false. cbv iota.
  set (a1 := _layout_node a _ _ _ _). set (b1 := _layout_node b _ _ _ _).
  assert (Ha1 : Style.width (style a1) = Some 10%Z)
    by (unfold a1; rewrite _layout_node_style; exact Ha).
  assert (Hb1 : Style.width (style b1) = Some 20%Z)
    by (unfold b1; rewrite _layout_node_style; exact Hb).
  rewrite !for_each_again_cons.
  rewrite (row_pass2_explicit _ _ _ _ a1 10 _ Ha1). cbn [fst snd].
  rewrite (row_pass2_explicit _ _ _ _ b1 20 _ Hb1).
  cbn [fst snd for_each_again].
  set (w3 := if use_all_width then _ else _).
  assert (Hw3 : w3 = 30).
  { subst w3. destruct use_all_width; reflexivity. }
  rewrite Hw3. clear w3 Hw3.
  rewrite !for_each_cons. cbn [for_each fst snd map].
  assert (Ew1 : content_width (layout a1) = 10%Z).
  { apply _layout_node_explicit_width. exact Ha. }
  assert (Ew2 : content_width (layout b1) = 20%Z).
  { apply _layout_node_explicit_width. exact Hb. }
  assert (Es1 : style a1 = style a) by apply _layout_node_style.
  assert (Es2 : style b1 = style b) by apply _layout_node_style.
  destruct (snd (row_pass3 _ 30 b1 _)) as [[o3 h3] mh3].
  split; [reflexivity|].
  eexists. eexists. split; [reflexivity|].
  rewrite !row_pass4_content_left, !row_pass4_content_width.
  unfold row_pass3.
  destruct (text_direction (style node));
    cbn [fst snd layout style set_content_left set_box content_left
         content_width];
    rewrite ?Es1, ?Es2, ?Ew1, ?Ew2, ?Hal, ?Har, ?Hbl, ?Hbr;
    repeat split; reflexivity.
Qed.

Lemma _layout_node_leaf_width node a b u v :
  children node = [] ->
  Style.width (style node) = None ->
  intrinsic_width (intrinsic node) = None ->
  content_width (layout (_layout_node node a b u v)) =
  int (Qmax 0 (a - inject_Z (margin_left (style node))
               - inject_Z (margin_right (style node)))).
Proof.
  intros Hc Hw Hi. rewrite _layout_node_eq. unfold layout_node_body.
  rewrite Hc, Hw, Hi. cbv beta iota zeta. destruct_lets. reflexivity.
Qed.

Lemma _layout_node_leaf_height node a b u v :
  children node = [] ->
  Style.height (style node) = None ->
  intrinsic_height (intrinsic node) = None ->
  content_height (layout (_layout_node node a b u v)) =
  int (Qmax 0 (b - inject_Z (margin_top (style node))
               - inject_Z (margin_bottom (style node)))).
Proof.
  intros Hc Hh Hi. rewrite _layout_node_eq. unfold layout_node_body.
  rewrite Hc, Hh, Hi. cbv beta iota zeta. destruct_lets. reflexivity.
Qed.

Lemma row_pass1_flex_only rec ah c ft mf w mw rw :
  Style.width (style c) = None ->
  intrinsic_width (intrinsic c) = None ->
  truthy (flex (style c)) = true ->
  row_pass1 rec ah c (ft, mf, w, mw, rw) =
  (c,
   (ft + flex (style c), mf,
    w + (inject_Z (margin_left (style c)) + 0
         + inject_Z (margin_right (style c))),
    mw + (inject_Z (margin_left (style c)) + 0
          + inject_Z (margin_right (style c))),
    rw - (inject_Z (margin_left (style c)) + 0
          + inject_Z (margin_right (style c))))).
Proof. intros Hw Hi Hf. unfold row_pass1. rewrite Hw, Hi, Hf. reflexivity. Qed.

Lemma row_overflow_flex_only q c vars :
  intrinsic_width (intrinsic c) = None -> row_overflow q c vars = (c, vars).
Proof.
  intros Hi. unfold row_overflow. destruct vars. rewrite Hi.
  destruct (truthy (flex (style c))); reflexivity.
Qed.

Lemma row_pass2_flex_only rec ah q o c w mw :
  Style.width (style c) = None ->
  intrinsic_width (intrinsic c) = None ->
  truthy (flex (style c)) = true ->
  row_pass2 rec ah q o c (w, mw) =
  (let c' :=
     rec o
       (if truthy q then float_mul q (flex (style c))
        else inject_Z (margin_left (style c))
             + inject_Z (margin_right (style c)))
       ah true (is_row c) in
   (c',
    (w + inject_Z (content_width (layout c')),
     mw + inject_Z (min_content_width (layout c'))))).
Proof. intros Hw Hi Hf. unfold row_pass2. rewrite Hw, Hi, Hf. reflexivity. Qed.

(** The quantum and the two shares of a row of integer width [S] below
    [2^51]: a quarter and three quarters of [S], without rounding. *)
Lemma flex_share_quantum (S : Z) :
  (Z.abs S < 2 ^ 53)%Z ->
  true_div (inject_Z S - (inject_Z 0 + 0 + inject_Z 0)
            - (inject_Z 0 + 0 + inject_Z 0) + 0) (0 + 1 + 3)
  == inject_Z S / 4.
Proof.
  intros H.
  assert (E : inject_Z S - (inject_Z 0 + 0 + inject_Z 0)
              - (inject_Z 0 + 0 + inject_Z 0) + 0 == inject_Z S).
  { change (inject_Z 0) with 0. ring. }
  rewrite E. exact (true_div_pow2 S 2 H).
Qed.

Lemma float_mul_quarter (S k : Z) (q : Q) :
  q == inject_Z S / 4 -> (Z.abs (k * S) < 2 ^ 53)%Z ->
  float_mul q (inject_Z k) == inject_Z (k * S) / 4.
Proof.
  intros Hq Hk. unfold float_mul.
  assert (E : q * inject_Z k == inject_Z (k * S) * 2 ^ (- 2)).
  { rewrite Hq, inject_Z_mult. change (2 ^ (- 2)) with (/ 4). field. }
  rewrite (binary64_Qeq _ _ E), binary64_dyadic by exact Hk.
  change (2 ^ (- 2)) with (/ 4). reflexivity.
Qed.

Lemma flex_share_alloc (S k : Z) (q : Q) :
  q == inject_Z S / 4 -> (Z.abs (k * S) < 2 ^ 53)%Z ->
  (if truthy q then float_mul q (inject_Z k) else inject_Z 0 + inject_Z 0)
  == inject_Z (k * S) / 4.
Proof.
  intros Hq Hk. pose proof (float_mul_quarter S k q Hq Hk) as M.
  destruct (truthy q) eqn:T; [exact M|].
  apply truthy_false in T. rewrite <- M.
  unfold float_mul. rewrite binary64_0; [reflexivity|]. rewrite T. ring.
Qed.

Lemma int_quarter (n : Z) (a : Q) :
  (0 <= n)%Z -> a == inject_Z n / 4 ->
  int (Qmax 0 (a - inject_Z 0 - inject_Z 0)) = (n / 4)%Z.
Proof.
  intros Hn Ha.
  assert (H0 : 0 <= inject_Z n).
  { change 0 with (inject_Z 0). rewrite <- Zle_Qle. exact Hn. }
  assert (E : Qmax 0 (a - inject_Z 0 - inject_Z 0) == inject_Z n / 4).
  { change (inject_Z 0) with 0. rewrite Q.max_r.
    - rewrite Ha. ring.
    - rewrite Ha.
      setoid_replace (inject_Z n / 4 - 0 - 0) with (inject_Z n * (1 # 4))
        by field.
      lra. }
  rewrite (int_Qeq _ _ E). unfold int, Qdiv, Qmult, Qinv, inject_Z.
  cbn [Qnum Qden]. rewrite Z.mul_1_r. apply Z.quot_div_nonneg; lia.
Qed.

(** C5 (as amended). A row whose available width is an integer [S] with
    [0 <= S < 2^51], and two childless children of flex weights 1 and 3,
    without explicit or intrinsic width and without horizontal margins:
    each child is allocated [quantum * flex] with
    [quantum = (S + 0) / (0 + 1 + 3)] ([remaining_width = S],
    [min_flex = 0], [flex_total = 4]), no float operation rounds, and
    the content widths are the truncated allocations [S / 4] and
    [3 * S / 4]; they are in ratio 1 : 3 and sum to [S] up to the
    truncation, and the row itself is [S] wide when it uses all the
    width. *)
Theorem flex_proportionality (self : Pack) (node c1 c3 : Node)
    (S : Z) (available_height : Q) (use_all_width use_all_height : bool) :
  children node = [c1; c3] ->
  children c1 = [] -> Style.width (style c1) = None ->
  intrinsic_width (intrinsic c1) = None ->
  margin_left (style c1) = 0%Z -> margin_right (style c1) = 0%Z ->
  flex (style c1) = 1 ->
  children c3 = [] -> Style.width (style c3) = None ->
  intrinsic_width (intrinsic c3) = None ->
  margin_left (style c3) = 0%Z -> margin_right (style c3) = 0%Z ->
  flex (style c3) = 3 ->
  (0 <= S < 2 ^ 51)%Z ->
  let '(node_children, (_, width, _, _)) :=
    _layout_row_children _layout_node self node (inject_Z S)
      available_height use_all_width use_all_height in
  exists c1' c3',
    node_children = [c1'; c3'] /\
    let quantum := true_div (inject_Z S + 0) (0 + 1 + 3) in
    let width_1 := content_width (layout c1') in
    let width_3 := content_width (layout c3') in
    (exists alloc left top,
       alloc == float_mul quantum 1 /\
       c1' = set_position
               (_layout_node c1 alloc available_height true (is_row c1))
               left top) /\
    (exists alloc left top,
       alloc == float_mul quantum 3 /\
       c3' = set_position
               (_layout_node c3 alloc available_height true (is_row c3))
               left top) /\
    quantum == inject_Z S / 4 /\
    float_mul quantum 1 == inject_Z S / 4 /\
    float_mul quantum 3 == inject_Z (3 * S) / 4 /\
    width_1 = (S / 4)%Z /\
    width_3 = (3 * S / 4)%Z /\
    (3 * width_1 <= width_3 <= 3 * width_1 + 2)%Z /\
    (width_1 + width_3 <= S <= width_1 + width_3 + 1)%Z /\
    (use_all_width = true -> width == inject_Z S).
Proof.
  intros Hc Hk1 Hw1 Hi1 Hl1 Hr1 Hf1 Hk3 Hw3 Hi3 Hl3 Hr3 Hf3 HS.
  unfold _layout_row_children. rewrite Hc.
  rewrite !for_each_cons, !for_each_nil. cbn [fst snd].
  rewrite (row_pass1_flex_only _ _ c1) by (rewrite ?Hf1; auto).
  cbn [fst snd].
  rewrite (row_pass1_flex_only _ _ c3) by (rewrite ?Hf3; auto).
  cbn [fst snd]. rewrite Hf1, Hf3, Hl1, Hr1, Hl3, Hr3.
  change (Qgtb (0 + 1 + 3) 0) with true. cbv iota.
  rewrite !for_each_cons, !for_each_nil. cbn [fst snd].
  rewrite !row_overflow_flex_only by assumption. cbn [fst snd].
  change (Qgtb (0 + 1 + 3) 0) with true. cbv iota.
  rewrite !for_each_again_cons. cbn [for_each_again fst snd].
  rewrite (row_pass2_flex_only _ _ _ c1 c1) by (rewrite ?Hf1; auto).
  cbv zeta. cbn [fst snd].
  rewrite (row_pass2_flex_only _ _ _ c3 c3) by (rewrite ?Hf3; auto).
  cbv zeta. cbn [fst snd]. rewrite Hf1, Hf3, Hl1, Hr1, Hl3, Hr3.
  pose proof (flex_share_quantum S ltac:(lia)) as Q0.
  set (q := true_div (inject_Z S - _ - _ + 0) (0 + 1 + 3)) in *.
  assert (Q1 : true_div (inject_Z S + 0) (0 + 1 + 3) == q).
  { subst q. apply true_div_Proper; [change (inject_Z 0) with 0; ring|].
    reflexivity. }
  pose proof (flex_share_alloc S 1 q Q0 ltac:(lia)) as A1.
  pose proof (flex_share_alloc S 3 q Q0 ltac:(lia)) as A3.
  change (inject_Z 1) with 1 in A1. change (inject_Z 3) with 3 in A3.
  replace (1 * S)%Z with S in A1 by ring.
  set (a1 := if truthy q then float_mul q 1 else _) in *.
  set (a3 := if truthy q then float_mul q 3 else _) in *.
  set (c1' := _layout_node c1 a1 _ _ _).
  set (c3' := _layout_node c3 a3 _ _ _).
  assert (E1 : content_width (layout c1') = (S / 4)%Z).
  { unfold c1'. rewrite _layout_node_leaf_width by assumption.
    rewrite Hl1, Hr1. apply int_quarter; [lia | exact A1]. }
  assert (E3 : content_width (layout c3') = (3 * S / 4)%Z).
  { unfold c3'. rewrite _layout_node_leaf_width by assumption.
    rewrite Hl3, Hr3. apply int_quarter; [lia | exact A3]. }
  pose proof (float_mul_quarter S 1 q Q0 ltac:(lia)) as M1.
  pose proof (float_mul_quarter S 3 q Q0 ltac:(lia)) as M3.
  change (inject_Z 1) with 1 in M1. change (inject_Z 3) with 3 in M3.
  replace (1 * S)%Z with S in M1 by ring.
  set (w3 := if use_all_width then _ else _).
  rewrite !for_each_cons, !for_each_nil. cbn [fst snd map].
  destruct (snd (row_pass3 _ w3 c3' _)) as [[o3 h3] mh3].
  eexists. eexists. split; [reflexivity|].
  cbv zeta. rewrite !row_pass4_content_width.
  assert (Ec1 : forall td w vars,
            content_width (layout (fst (row_pass3 td w c1' vars)))
            = content_width (layout c1')).
  { intros td w [[o h] mh]. unfold row_pass3. destruct td; reflexivity. }
  assert (Ec3 : forall td w vars,
            content_width (layout (fst (row_pass3 td w c3' vars)))
            = content_width (layout c3')).
  { intros td w [[o h] mh]. unfold row_pass3. destruct td; reflexivity. }
  rewrite Ec1, Ec3, E1, E3.
  split.
  { destruct (row_pass3_child (text_direction (style node)) w3 c1' (0, 0, 0))
      as [l1 ->].
    destruct (row_pass4_child (align_items self)
                (if use_all_height then Qmax h3 available_height else h3)
                (set_content_left c1' l1)) as [t1 ->].
    exists a1, l1, t1. split; [|reflexivity].
    rewrite A1, Q1, M1. reflexivity. }
  split.
  { destruct (row_pass3_child (text_direction (style node)) w3 c3'
                (snd (row_pass3 (text_direction (style node)) w3 c1'
                        (0, 0, 0)))) as [l3 ->].
    destruct (row_pass4_child (align_items self)
                (if use_all_height then Qmax h3 available_height else h3)
                (set_content_left c3' l3)) as [t3 ->].
    exists a3, l3, t3. split; [|reflexivity].
    rewrite A3, Q1, M3. reflexivity. }
  split; [rewrite Q1; exact Q0|].
  split; [rewrite Q1; exact M1|].
  split; [rewrite Q1; exact M3|].
  split; [reflexivity|]. split; [reflexivity|].
  pose proof (Z.div_mod S 4 ltac:(lia)) as D1.
  pose proof (Z.mod_pos_bound S 4 ltac:(lia)) as B1.
  pose proof (Z.div_mod (3 * S) 4 ltac:(lia)) as D3.
  pose proof (Z.mod_pos_bound (3 * S) 4 ltac:(lia)) as B3.
  split; [lia|]. split; [lia|].
  intros ->. subst w3. cbv iota. rewrite Q.max_r; [reflexivity|].
  change (inject_Z 0) with 0.
  assert (G : (S / 4 + 3 * S / 4 <= S)%Z) by lia.
  rewrite Zle_Qle, inject_Z_plus in G. rewrite E1, E3. lra.
Qed.

(** ** Two runs on trees with the same inputs *)


Ltac break_nodes :=
  repeat match goal with
         | n : Node |- _ => destruct n as [? ? [? ? ? ? ? ? ? ?] ?]
         end.

Ltac node_eqs :=
  unfold eq_but_position, eq_but_top, eq_but_left, set_position,
    set_content_top, set_content_left, set_box in *;
  cbn [style intrinsic layout children content_width content_height
       min_content_width min_content_height content_top content_left
       content_bottom content_right] in *;
  repeat match goal with
         | H : mkNode _ _ _ _ = mkNode _ _ _ _ |- _ =>
             injection H as; subst
         end.

Lemma for_each_congr {S : Type} (body : Node -> S -> Node * S)
    (Q : Node -> Node -> Prop) (cs ds : list Node) :
  Forall2 (fun c d => forall s,
             Q (fst (body c s)) (fst (body d s))
             /\ snd (body c s) = snd (body d s)) cs ds ->
  forall s,
  Forall2 Q (fst (for_each body cs s)) (fst (for_each body ds s))
  /\ snd (for_each body cs s) = snd (for_each body ds s).
Proof.
  induction 1 as [|c d cs ds Hcd _ IH]; intros s.
  - simpl. split; [constructor | reflexivity].
  - rewrite !for_each_cons. cbn [fst snd].
    destruct (Hcd s) as [HQ Hs]. rewrite Hs.
    destruct (IH (snd (body d s))) as [HQs Hss].
    split; [constructor; assumption | assumption].
Qed.

Section Congruence.
Variable rec : Node -> Q -> Q -> bool -> bool -> Node.
Hypothesis rec_style : forall c a b u v, style (rec c a b u v) = style c.
Hypothesis rec_intrinsic :
  forall c a b u v, intrinsic (rec c a b u v) = intrinsic c.



Lemma eq_but_position_sizes x y :
  eq_but_position x y ->
  style x = style y /\
  content_width (layout x) = content_width (layout y) /\
  content_height (layout x) = content_height (layout y) /\
  min_content_width (layout x) = min_content_width (layout y) /\
  min_content_height (layout x) = min_content_height (layout y).
Proof. intros H. break_nodes. node_eqs. repeat split; reflexivity. Qed.

Ltac use_alike H :=
  match goal with
  | |- context [rec ?c ?a ?b ?u ?v] =>
      let E := fresh "E" in
      destruct (eq_but_position_sizes _ _ (H a b u v))
        as (_ & ? & ? & ? & ?)
  end.

Lemma row_pass1_congr ah c d vars :
  alike rec c d ->
  row_alike1 (fst (row_pass1 rec ah c vars)) (fst (row_pass1 rec ah d vars))
  /\ snd (row_pass1 rec ah c vars) = snd (row_pass1 rec ah d vars).
Proof.
  intros (Hs & Hi & Hrec). destruct vars as [[[[ft mf] w] mw] rw].
  unfold row_alike1, row_deferred, row_pass1. rewrite Hs, Hi.
  destruct (Style.width (style d)) eqn:Ew.
  { cbn [fst snd]. rewrite !rec_style, !rec_intrinsic, Hs, Hi.
    destruct (eq_but_position_sizes _ _ (Hrec rw ah false (is_row d)))
      as (_ & E1 & _). unfold is_row in *. rewrite Hs. rewrite E1.
    repeat split; auto. }
  destruct (intrinsic_width (intrinsic d)) as [[n|value]|] eqn:Ei;
    destruct (truthy (flex (style d))) eqn:Ef; cbn [fst snd andb];
    rewrite ?rec_style, ?rec_intrinsic, ?Hs, ?Hi, ?Ew, ?Ei, ?Ef;
    unfold is_row; rewrite ?Hs;
    cbn [andb];
    try (repeat split; auto; discriminate).
  all: match goal with
       | |- context [rec _ ?a ?b ?u ?v] =>
           destruct (eq_but_position_sizes _ _ (Hrec a b u v))
             as (_ & E1 & _ & E3 & _);
           rewrite ?E1, ?E3;
           repeat split; auto; intros _; apply Hrec
       end.
Qed.

Lemma row_overflow_congr q c d vars :
  style c = style d -> intrinsic c = intrinsic d ->
  snd (row_overflow q c vars) = snd (row_overflow q d vars).
Proof.
  intros Hs Hi. destruct vars as [ft mf]. unfold row_overflow.
  rewrite Hs, Hi. destruct (truthy (flex (style d))); [|reflexivity].
  destruct (intrinsic_width (intrinsic d)) as [[n|value]|]; try reflexivity.
  destruct (Qgtb _ _); reflexivity.
Qed.

Lemma row_pass2_congr ah q o o' c c' vars :
  alike rec o o' ->
  row_pass1_result rec ah o c -> row_pass1_result rec ah o' c' ->
  row_alike1 c c' ->
  eq_but_position (fst (row_pass2 rec ah q o c vars))
    (fst (row_pass2 rec ah q o' c' vars))
  /\ snd (row_pass2 rec ah q o c vars) = snd (row_pass2 rec ah q o' c' vars).
Proof.
  intros (Hs & Hi & Hrec) Hc Hc' (Hs1 & Hi1 & H1).
  destruct (row_pass1_result_static rec rec_style rec_intrinsic _ _ _ Hc)
    as [Hsc Hic].
  destruct (row_pass1_result_static rec rec_style rec_intrinsic _ _ _ Hc')
    as [Hsc' Hic'].
  assert (Hd : row_deferred c = row_deferred o)
    by (apply row_deferred_static; assumption).
  assert (Hd' : row_deferred c' = row_deferred o')
    by (apply row_deferred_static; assumption).
  assert (Hdo : row_deferred o = row_deferred o')
    by (apply row_deferred_static; assumption).
  unfold row_pass1_result in Hc, Hc'.
  destruct (row_deferred o) eqn:Eo; rewrite <- Hdo in Hc'.
  - subst c c'. destruct vars as [w mw].
    unfold row_deferred in Eo. unfold row_pass2, is_row. rewrite Hs, Hi.
    rewrite Hs, Hi in Eo.
    destruct (Style.width (style o')); [discriminate|].
    destruct (truthy (flex (style o'))); [|discriminate].
    destruct (intrinsic_width (intrinsic o')) as [[n|value]|];
      [discriminate| |]; cbn [fst snd];
      match goal with
      | |- context [rec _ ?a ?b ?u ?v] =>
          destruct (eq_but_position_sizes _ _ (Hrec a b u v))
            as (_ & E1 & _ & E3 & _);
          rewrite ?E1, ?E3; split; [apply Hrec | reflexivity]
      end.
  - rewrite !row_pass2_not_deferred by congruence. cbn [fst snd].
    split; [apply H1; congruence | reflexivity].
Qed.

Lemma row_pass2_lists_congr ah q :
  forall cs ds, Forall2 (alike rec) cs ds ->
  forall cs1 ds1 vars,
  Forall2 (row_pass1_result rec ah) cs cs1 ->
  Forall2 (row_pass1_result rec ah) ds ds1 ->
  Forall2 row_alike1 cs1 ds1 ->
  Forall2 eq_but_position
    (fst (for_each_again (row_pass2 rec ah q) cs cs1 vars))
    (fst (for_each_again (row_pass2 rec ah q) ds ds1 vars))
  /\ snd (for_each_again (row_pass2 rec ah q) cs cs1 vars)
     = snd (for_each_again (row_pass2 rec ah q) ds ds1 vars).
Proof.
  induction 1 as [|o o' cs ds Hoo _ IH]; intros cs1 ds1 vars H1 H2 H3.
  - inversion H1; subst. inversion H2; subst. simpl.
    split; [constructor | reflexivity].
  - inversion H1 as [|? c ? cs1' Hc Hcs]; subst.
    inversion H2 as [|? c' ? ds1' Hc' Hds]; subst.
    inversion H3 as [|? ? ? ? Hcc Hccs]; subst.
    rewrite !for_each_again_cons. cbn [fst snd].
    destruct (row_pass2_congr ah q o o' c c' vars Hoo Hc Hc' Hcc) as [E1 E2].
    rewrite E2.
    destruct (IH cs1' ds1' (snd (row_pass2 rec ah q o' c' vars)) Hcs Hds Hccs)
      as [F1 F2].
    split; [constructor; assumption | assumption].
Qed.

Lemma row_pass3_congr td w c d vars :
  eq_but_position c d ->
  eq_but_top (fst (row_pass3 td w c vars)) (fst (row_pass3 td w d vars))
  /\ snd (row_pass3 td w c vars) = snd (row_pass3 td w d vars).
Proof.
  intros H. destruct vars as [[o h] mh]. break_nodes. node_eqs.
  unfold row_pass3. destruct td; split; reflexivity.
Qed.

Lemma row_pass4_congr ai h c d :
  eq_but_top c d -> row_pass4 ai h c = row_pass4 ai h d.
Proof.
  intros H. break_nodes. node_eqs. unfold row_pass4.
  destruct ai as [[ | | ]|]; reflexivity.
Qed.

Lemma Forall2_map_eq {A B : Type} (f : A -> B) (l l' : list A) :
  Forall2 (fun a a' => f a = f a') l l' -> map f l = map f l'.
Proof. induction 1; simpl; congruence. Qed.

Lemma row_children_congr self node node' aw ah uw uh :
  text_direction (style node) = text_direction (style node') ->
  Forall2 (alike rec) (children node) (children node') ->
  _layout_row_children rec self node aw ah uw uh =
  _layout_row_children rec self node' aw ah uw uh.
Proof.
  intros Htd Hch. unfold _layout_row_children. rewrite Htd.
  assert (U1 := row_pass1_children rec ah (children node) (0, 0, 0, 0, aw)).
  assert (U1' := row_pass1_children rec ah (children node') (0, 0, 0, 0, aw)).
  destruct (for_each_congr (row_pass1 rec ah) row_alike1
              (children node) (children node')
              ltac:(revert Hch; apply Forall2_impl; intros c d Hcd s;
                    apply row_pass1_congr; exact Hcd)
              (0, 0, 0, 0, aw)) as [B1 B1s].
  destruct (for_each (row_pass1 rec ah) (children node) (0, 0, 0, 0, aw))
    as [cs1 [[[[ft mf] w] mw] rw]].
  destruct (for_each (row_pass1 rec ah) (children node') (0, 0, 0, 0, aw))
    as [ds1 [[[[ft' mf'] w'] mw'] rw']].
  cbn [fst snd] in U1, U1', B1, B1s. inversion B1s; subst; clear B1s.
  assert (Eo : forall q vars,
            snd (for_each (row_overflow q) cs1 vars)
            = snd (for_each (row_overflow q) ds1 vars)).
  { intros q vars.
    apply (for_each_congr (row_overflow q) (fun _ _ => True)).
    revert B1. apply Forall2_impl. intros c d (Hs & Hi & _) s.
    split; [exact I | apply row_overflow_congr; assumption]. }
  set (quantum := if Qgtb ft' 0 then _ else _).
  set (quantum' := if Qgtb ft' 0 then _ else _).
  assert (Eq : quantum = quantum').
  { subst quantum quantum'. destruct (Qgtb ft' 0); [|reflexivity].
    specialize (Eo (true_div (rw' + mf') ft') (ft', mf')).
    destruct (for_each _ cs1 _) as [? [? ?]].
    destruct (for_each _ ds1 _) as [? [? ?]].
    cbn [snd] in Eo. inversion Eo; subst. reflexivity. }
  rewrite Eq. clearbody quantum'. clear quantum Eq.
  destruct (row_pass2_lists_congr ah quantum' _ _ Hch cs1 ds1 (w', mw')
              U1 U1' B1) as [B2 B2s].
  destruct (for_each_again _ (children node) cs1 _) as [cs2 [w2 mw2]].
  destruct (for_each_again _ (children node') ds1 _) as [ds2 [w2' mw2']].
  cbn [fst snd] in B2, B2s. inversion B2s; subst; clear B2s.
  set (w3 := if uw then _ else _). clearbody w3.
  destruct (for_each_congr (row_pass3 (text_direction (style node')) w3)
              eq_but_top cs2 ds2
              ltac:(revert B2; apply Forall2_impl; intros c d Hcd s;
                    apply row_pass3_congr; exact Hcd)
              (0, 0, 0)) as [B3 B3s].
  destruct (for_each _ cs2 _) as [cs3 [[o3 h3] mh3]].
  destruct (for_each _ ds2 _) as [ds3 [[o3' h3'] mh3']].
  cbn [fst snd] in B3, B3s. inversion B3s; subst; clear B3s.
  f_equal. apply Forall2_map_eq. revert B3. apply Forall2_impl.
  intros c d Hcd. apply row_pass4_congr. exact Hcd.
Qed.


Lemma column_pass1_congr aw c d vars :
  alike rec c d ->
  column_alike1 (fst (column_pass1 rec aw c vars))
    (fst (column_pass1 rec aw d vars))
  /\ snd (column_pass1 rec aw c vars) = snd (column_pass1 rec aw d vars).
Proof.
  intros (Hs & Hi & Hrec). destruct vars as [[[[ft mf] h] mh] rh].
  unfold column_alike1, column_deferred, column_pass1. rewrite Hs, Hi.
  destruct (Style.height (style d)) eqn:Eh.
  { cbn [fst snd]. rewrite !rec_style, !rec_intrinsic, Hs, Hi.
    destruct (eq_but_position_sizes _ _ (Hrec aw rh (is_column d) false))
      as (_ & _ & E2 & _). unfold is_column in *. rewrite Hs. rewrite E2.
    repeat split; auto. }
  destruct (intrinsic_height (intrinsic d)) as [[n|value]|] eqn:Ei;
    destruct (truthy (flex (style d))) eqn:Ef; cbn [fst snd andb];
    rewrite ?rec_style, ?rec_intrinsic, ?Hs, ?Hi, ?Eh, ?Ei, ?Ef;
    unfold is_column; rewrite ?Hs;
    cbn [andb];
    try (repeat split; auto; discriminate).
  all: match goal with
       | |- context [rec _ ?a ?b ?u ?v] =>
           destruct (eq_but_position_sizes _ _ (Hrec a b u v))
             as (_ & _ & E2 & _ & E4);
           rewrite ?E2, ?E4;
           repeat split; auto; intros _; apply Hrec
       end.
Qed.

Lemma column_overflow_congr q c d vars :
  style c = style d -> intrinsic c = intrinsic d ->
  snd (column_overflow q c vars) = snd (column_overflow q d vars).
Proof.
  intros Hs Hi. destruct vars as [ft mf]. unfold column_overflow.
  rewrite Hs, Hi. destruct (truthy (flex (style d))); [|reflexivity].
  destruct (intrinsic_height (intrinsic d)) as [[n|value]|]; try reflexivity.
  destruct (Qgtb _ _); reflexivity.
Qed.

Lemma column_pass2_congr aw q o o' c c' vars :
  alike rec o o' ->
  column_pass1_result rec aw o c -> column_pass1_result rec aw o' c' ->
  column_alike1 c c' ->
  eq_but_position (fst (column_pass2 rec aw q o c vars))
    (fst (column_pass2 rec aw q o' c' vars))
  /\ snd (column_pass2 rec aw q o c vars)
     = snd (column_pass2 rec aw q o' c' vars).
Proof.
  intros (Hs & Hi & Hrec) Hc Hc' (Hs1 & Hi1 & H1).
  destruct (column_pass1_result_static rec rec_style rec_intrinsic _ _ _ Hc)
    as [Hsc Hic].
  destruct (column_pass1_result_static rec rec_style rec_intrinsic _ _ _ Hc')
    as [Hsc' Hic'].
  assert (Hd : column_deferred c = column_deferred o)
    by (apply column_deferred_static; assumption).
  assert (Hd' : column_deferred c' = column_deferred o')
    by (apply column_deferred_static; assumption).
  assert (Hdo : column_deferred o = column_deferred o')
    by (apply column_deferred_static; assumption).
  unfold column_pass1_result in Hc, Hc'.
  destruct (column_deferred o) eqn:Eo; rewrite <- Hdo in Hc'.
  - subst c c'. destruct vars as [h mh].
    unfold column_deferred in Eo. unfold column_pass2, is_column.
    rewrite Hs, Hi. rewrite Hs, Hi in Eo.
    destruct (Style.height (style o')); [discriminate|].
    destruct (truthy (flex (style o'))); [|discriminate].
    destruct (intrinsic_height (intrinsic o')) as [[n|value]|];
      [discriminate| |]; cbn [fst snd];
      match goal with
      | |- context [rec _ ?a ?b ?u ?v] =>
          destruct (eq_but_position_sizes _ _ (Hrec a b u v))
            as (_ & _ & E2 & _ & E4);
          rewrite ?E2, ?E4; split; [apply Hrec | reflexivity]
      end.
  - rewrite !column_pass2_not_deferred by congruence. cbn [fst snd].
    split; [apply H1; congruence | reflexivity].
Qed.

Lemma column_pass2_lists_congr aw q :
  forall cs ds, Forall2 (alike rec) cs ds ->
  forall cs1 ds1 vars,
  Forall2 (column_pass1_result rec aw) cs cs1 ->
  Forall2 (column_pass1_result rec aw) ds ds1 ->
  Forall2 column_alike1 cs1 ds1 ->
  Forall2 eq_but_position
    (fst (for_each_again (column_pass2 rec aw q) cs cs1 vars))
    (fst (for_each_again (column_pass2 rec aw q) ds ds1 vars))
  /\ snd (for_each_again (column_pass2 rec aw q) cs cs1 vars)
     = snd (for_each_again (column_pass2 rec aw q) ds ds1 vars).
Proof.
  induction 1 as [|o o' cs ds Hoo _ IH]; intros cs1 ds1 vars H1 H2 H3.
  - inversion H1; subst. inversion H2; subst. simpl.
    split; [constructor | reflexivity].
  - inversion H1 as [|? c ? cs1' Hc Hcs]; subst.
    inversion H2 as [|? c' ? ds1' Hc' Hds]; subst.
    inversion H3 as [|? ? ? ? Hcc Hccs]; subst.
    rewrite !for_each_again_cons. cbn [fst snd].
    destruct (column_pass2_congr aw q o o' c c' vars Hoo Hc Hc' Hcc)
      as [E1 E2].
    rewrite E2.
    destruct (IH cs1' ds1' (snd (column_pass2 rec aw q o' c' vars))
                Hcs Hds Hccs) as [F1 F2].
    split; [constructor; assumption | assumption].
Qed.

Lemma column_pass3_congr c d vars :
  eq_but_position c d ->
  eq_but_left (fst (column_pass3 c vars)) (fst (column_pass3 d vars))
  /\ snd (column_pass3 c vars) = snd (column_pass3 d vars).
Proof.
  intros H. destruct vars as [[o w] mw]. break_nodes. node_eqs.
  unfold column_pass3. split; reflexivity.
Qed.

Lemma column_pass4_congr self w c d :
  eq_but_left c d -> column_pass4 self w c = column_pass4 self w d.
Proof.
  intros H. break_nodes. node_eqs. unfold column_pass4.
  destruct (text_direction _), (align_items _) as [[ | | ]|]; reflexivity.
Qed.

Lemma column_children_congr self node node' aw ah uw uh :
  Forall2 (alike rec) (children node) (children node') ->
  _layout_column_children rec self node aw ah uw uh =
  _layout_column_children rec self node' aw ah uw uh.
Proof.
  intros Hch. unfold _layout_column_children.
  assert (U1 := column_pass1_children rec aw (children node)
                  (0, 0, 0, 0, ah)).
  assert (U1' := column_pass1_children rec aw (children node')
                   (0, 0, 0, 0, ah)).
  destruct (for_each_congr (column_pass1 rec aw) column_alike1
              (children node) (children node')
              ltac:(revert Hch; apply Forall2_impl; intros c d Hcd s;
                    apply column_pass1_congr; exact Hcd)
              (0, 0, 0, 0, ah)) as [B1 B1s].
  destruct (for_each (column_pass1 rec aw) (children node) (0, 0, 0, 0, ah))
    as [cs1 [[[[ft mf] h] mh] rh]].
  destruct (for_each (column_pass1 rec aw) (children node') (0, 0, 0, 0, ah))
    as [ds1 [[[[ft' mf'] h'] mh'] rh']].
  cbn [fst snd] in U1, U1', B1, B1s. inversion B1s; subst; clear B1s.
  assert (Eo : forall q vars,
            snd (for_each (column_overflow q) cs1 vars)
            = snd (for_each (column_overflow q) ds1 vars)).
  { intros q vars.
    apply (for_each_congr (column_overflow q) (fun _ _ => True)).
    revert B1. apply Forall2_impl. intros c d (Hs & Hi & _) s.
    split; [exact I | apply column_overflow_congr; assumption]. }
  set (quantum := if Qgtb ft' 0 then _ else _).
  set (quantum' := if Qgtb ft' 0 then _ else _).
  assert (Eq : quantum = quantum').
  { subst quantum quantum'. destruct (Qgtb ft' 0); [|reflexivity].
    specialize (Eo (true_div (rh' + mf') ft') (ft', mf')).
    destruct (for_each _ cs1 _) as [? [? ?]].
    destruct (for_each _ ds1 _) as [? [? ?]].
    cbn [snd] in Eo. inversion Eo; subst. reflexivity. }
  rewrite Eq. clearbody quantum'. clear quantum Eq.
  destruct (column_pass2_lists_congr aw quantum' _ _ Hch cs1 ds1 (h', mh')
              U1 U1' B1) as [B2 B2s].
  destruct (for_each_again _ (children node) cs1 _) as [cs2 [h2 mh2]].
  destruct (for_each_again _ (children node') ds1 _) as [ds2 [h2' mh2']].
  cbn [fst snd] in B2, B2s. inversion B2s; subst; clear B2s.
  destruct (for_each_congr column_pass3 eq_but_left cs2 ds2
              ltac:(revert B2; apply Forall2_impl; intros c d Hcd s;
                    apply column_pass3_congr; exact Hcd)
              (0, 0, 0)) as [B3 B3s].
  destruct (for_each _ cs2 _) as [cs3 [[o3 w3] mw3]].
  destruct (for_each _ ds2 _) as [ds3 [[o3' w3'] mw3']].
  cbn [fst snd] in B3, B3s. inversion B3s; subst; clear B3s.
  f_equal. apply Forall2_map_eq. revert B3. apply Forall2_impl.
  intros c d Hcd. apply column_pass4_congr. exact Hcd.
Qed.
End Congruence.



Lemma _layout_node_bottom_right node a b u v :
  content_bottom (layout (_layout_node node a b u v))
  = content_bottom (layout node) /\
  content_right (layout (_layout_node node a b u v))
  = content_right (layout node).
Proof.
  rewrite _layout_node_eq. unfold layout_node_body. destruct_lets.
  split; reflexivity.
Qed.

Lemma eq_but_position_intro x y :
  eq_but_root_positions x y ->
  content_bottom (layout x) = content_bottom (layout y) ->
  content_right (layout x) = content_right (layout y) ->
  eq_but_position x y.
Proof.
  intros (Hs & Hi & Hc & H1 & H2 & H3 & H4) Hb Hr.
  break_nodes. node_eqs. subst. reflexivity.
Qed.

Lemma _layout_node_congr node :
  forall node',
  style node = style node' -> intrinsic node = intrinsic node' ->
  Forall2 same_inputs (children node) (children node') ->
  forall a b u v,
  eq_but_root_positions (_layout_node node a b u v)
    (_layout_node node' a b u v).
Proof.
  induction node as [s i bx cs IH] using Node_ind.
  intros node' Hs Hi Hch a b u v. cbn [style intrinsic children] in *.
  assert (Hal : Forall2 (alike _layout_node) cs (children node')).
  { apply (Forall2_Forall_l _ _ _ _ _ IH Hch).
    intros c d Hc Hcd. inversion Hcd as [? ? Hs' Hi' Hb' Hr' Hch']; subst.
    split; [assumption|]. split; [assumption|]. intros a' b' u' v'.
    apply eq_but_position_intro.
    - apply Hc; assumption.
    - destruct (_layout_node_bottom_right c a' b' u' v') as [-> _].
      destruct (_layout_node_bottom_right d a' b' u' v') as [-> _].
      assumption.
    - destruct (_layout_node_bottom_right c a' b' u' v') as [_ ->].
      destruct (_layout_node_bottom_right d a' b' u' v') as [_ ->].
      assumption. }
  rewrite !_layout_node_eq. unfold layout_node_body.
  cbn [style intrinsic children layout]. rewrite <- Hs, <- Hi.
  set (aw := match Style.width s with Some _ => _ | None => _ end).
  set (ah := match Style.height s with Some _ => _ | None => _ end).
  destruct aw as [aw mw0], ah as [ah mh0].
  assert (E :
    match cs with
    | [] => ([], (mw0, aw, mh0, ah))
    | _ :: _ =>
        match direction s with
        | ROW =>
            _layout_row_children _layout_node s (mkNode s i bx cs) aw ah u v
        | COLUMN =>
            _layout_column_children _layout_node s (mkNode s i bx cs) aw ah u v
        end
    end =
    match children node' with
    | [] => ([], (mw0, aw, mh0, ah))
    | _ :: _ =>
        match direction s with
        | ROW => _layout_row_children _layout_node s node' aw ah u v
        | COLUMN => _layout_column_children _layout_node s node' aw ah u v
        end
    end).
  { inversion Hal as [E1 E2|c d cs' ds' Hcd Hcds E1 E2]; [reflexivity|].
    rewrite E1. destruct (direction s).
    - apply row_children_congr;
        [apply _layout_node_style | apply _layout_node_intrinsic | |].
      + cbn [style]. rewrite Hs. reflexivity.
      + exact Hal.
    - apply column_children_congr;
        [apply _layout_node_style | apply _layout_node_intrinsic |].
      exact Hal. }
  rewrite E.
  destruct (match children node' with [] => _ | _ :: _ => _ end)
    as [cs' [[[mw w] mh] h]].
  destruct_lets. unfold eq_but_root_positions.
  cbn [style intrinsic children layout set_sizes set_box content_width
       content_height min_content_width min_content_height].
  repeat split; auto.
Qed.

Lemma same_inputs_set_position x y l t :
  same_inputs x y -> same_inputs (set_position x l t) y.
Proof.
  intros H. inversion H; subst. constructor; assumption.
Qed.

Lemma _layout_node_same_inputs node :
  forall a b u v, same_inputs (_layout_node node a b u v) node.
Proof.
  induction node as [s i bx cs IH] using Node_ind. intros a b u v.
  constructor.
  - apply _layout_node_style.
  - apply _layout_node_intrinsic.
  - apply _layout_node_bottom_right.
  - apply _layout_node_bottom_right.
  - pose proof (_layout_node_children (mkNode s i bx cs) a b u v) as H.
    cbn [children] in *.
    apply (Forall2_Forall_l _ _ (fun c c' => same_inputs c' c) _ _ IH) in H.
    + apply Forall2_flip in H. exact H.
    + intros c c' Hc [a' [b' [u' [v' [l [t ->]]]]]].
      apply same_inputs_set_position. apply Hc.
Qed.

(** C9. Laying out a tree that was just laid out, with the same viewport,
    gives the same tree again: every box of every node keeps its
    values. *)
Theorem layout_idempotent (root : Node)
    (viewport_width viewport_height : Z) :
  Pack_layout (Pack_layout root viewport_width viewport_height)
    viewport_width viewport_height
  = Pack_layout root viewport_width viewport_height.
Proof.
  set (a := inject_Z viewport_width). set (b := inject_Z viewport_height).
  assert (H : eq_but_root_positions
                (_layout_node (Pack_layout root viewport_width viewport_height)
                   a b true true)
                (_layout_node root a b true true)).
  { pose proof (_layout_node_same_inputs root a b true true) as Hsame.
    inversion Hsame as [? ? Hs Hi _ _ Hch]; subst.
    apply (fun H1 H2 H3 =>
             _layout_node_congr
               (Pack_layout root viewport_width viewport_height) root
               H1 H2 H3 a b true true).
    - unfold Pack_layout. fold a b.
      cbn [style set_content_right set_content_left set_content_bottom
           set_content_top set_box].
      exact Hs.
    - unfold Pack_layout. fold a b.
      cbn [intrinsic set_content_right set_content_left set_content_bottom
           set_content_top set_box].
      exact Hi.
    - unfold Pack_layout. fold a b.
      cbn [children set_content_right set_content_left set_content_bottom
           set_content_top set_box].
      exact Hch. }
  destruct H as (Hs & Hi & Hc & H1 & H2 & H3 & H4).
  unfold Pack_layout at 1. fold a b.
  set (x := _layout_node
              (Pack_layout root viewport_width viewport_height)
              a b true true) in *.
  unfold Pack_layout. fold a b.
  set (y := _layout_node root a b true true) in *.
  clearbody x y. clear root a b.
  destruct x as [sx ix [cwx chx mwx mhx tx lx bx rx] kx].
  destruct y as [sy iy [cwy chy mwy mhy ty ly bty ry] ky].
  simpl in *. subst. reflexivity.
Qed.

(** ** The layout of the sample trees *)

Example flex_row_layout :
  of_children content_width (Pack_layout flex_row 100 50) = [25; 75]%Z /\
  of_children content_width (Pack_layout flex_row 101 50) = [25; 75]%Z /\
  content_width (layout (Pack_layout flex_row 101 50)) = 101%Z.
Proof. repeat split; vm_compute; reflexivity. Qed.

Example rtl_row_layout :
  of_children (fun b => Qred (content_left b)) (Pack_layout rtl_row 30 50)
  = [20; 0].
Proof. vm_compute. reflexivity. Qed.

Example aligned_row_layout :
  of_children (fun b => Qred (content_top b))
    (Pack_layout (aligned_row (Some CENTER)) 30 100) = [40] /\
  of_children (fun b => Qred (content_top b))
    (Pack_layout (aligned_row (Some END)) 30 100) = [80] /\
  of_children (fun b => Qred (content_top b))
    (Pack_layout (aligned_row (Some START)) 30 100) = [0] /\
  of_children (fun b => Qred (content_top b))
    (Pack_layout (aligned_row None) 30 100) = [0].
Proof. repeat split; vm_compute; reflexivity. Qed.

Example aligned_column_layout :
  of_children (fun b => Qred (content_left b))
    (Pack_layout (aligned_column LTR (Some END)) 30 100) = [20] /\
  of_children (fun b => Qred (content_left b))
    (Pack_layout (aligned_column RTL (Some START)) 30 100) = [20] /\
  of_children (fun b => Qred (content_left b))
    (Pack_layout (aligned_column LTR (Some START)) 30 100) = [0] /\
  of_children (fun b => Qred (content_left b))
    (Pack_layout (aligned_column RTL (Some END)) 30 100) = [0] /\
  of_children (fun b => Qred (content_left b))
    (Pack_layout (aligned_column RTL (Some CENTER)) 30 100) = [10] /\
  of_children (fun b => Qred (content_left b))
    (Pack_layout (aligned_column LTR None) 30 100) = [0].
Proof. repeat split; vm_compute; reflexivity. Qed.

(** In a row 100 high, the ROW child is stretched to the height of the
    row and the COLUMN child keeps the height of its content. *)
Example stretch_row_layout :
  of_children content_height (Pack_layout stretch_row 30 100)
  = [100; 20]%Z.
Proof. vm_compute. reflexivity. Qed.

(** The quantum and the share are floats: in a row 15 wide the only flex
    child, of weight 11, is allocated [(15 / 11) * 11], which is
    14.999999999999998, and is 14 wide. *)
Example rounded_flex_share :
  Qred (float_mul (true_div 15 11) 11)
  = 8444249301319679 # 562949953421312
  /\ of_children content_width (Pack_layout flex_11_row 15 50) = [14%Z].
Proof. split; vm_compute; reflexivity. Qed.

(** ** The theorems at sample inputs *)

Lemma row_pass1_defers_flexible_intrinsic_flex_child_witness :
  Style.width (style flexible_flex_child) = None /\
  intrinsic_width (intrinsic flexible_flex_child) = Some (at_least 10) /\
  0 < flex (style flexible_flex_child) /\
  let min_box :=
    inject_Z (margin_left (style flexible_flex_child)) + inject_Z 10
    + inject_Z (margin_right (style flexible_flex_child)) in
  row_pass1 _layout_node 50 flexible_flex_child (0, 0, 0, 0, 100) =
  (flexible_flex_child,
   (0 + flex (style flexible_flex_child), 0 + min_box, 0 + min_box,
    0 + min_box, 100 - min_box))
  /\
  fst (row_pass2 _layout_node 50 100 flexible_flex_child
         flexible_flex_child (10, 10)) =
  _layout_node flexible_flex_child
    (if Qgtb (float_mul 100 (flex (style flexible_flex_child))) min_box
     then float_mul 100 (flex (style flexible_flex_child)) else min_box)
    50 true (is_row flexible_flex_child).
Proof.
  split; [reflexivity|]. split; [reflexivity|]. split; [reflexivity|].
  apply (row_pass1_defers_flexible_intrinsic_flex_child _layout_node 50 100
           flexible_flex_child 10 0 0 0 0 100 10 10);
    reflexivity.
Defined.

Lemma row_pass1_lays_out_fixed_intrinsic_child_witness :
  Style.width (style fixed_flex_child) = None /\
  intrinsic_width (intrinsic fixed_flex_child) = Some (fixed 10) /\
  let child' :=
    _layout_node fixed_flex_child 100 50 false (is_row fixed_flex_child) in
  let box :=
    inject_Z (margin_left (style fixed_flex_child))
    + inject_Z (content_width (layout child'))
    + inject_Z (margin_right (style fixed_flex_child)) in
  row_pass1 _layout_node 50 fixed_flex_child (0, 0, 0, 0, 100) =
  (child', (0, 0, 0 + box, 0 + box, 100 - box))
  /\
  row_pass2 _layout_node 50 100 fixed_flex_child child' (0, 0)
  = (child', (0, 0)).
Proof.
  split; [reflexivity|]. split; [reflexivity|].
  apply (row_pass1_lays_out_fixed_intrinsic_child _layout_node
           _layout_node_style _layout_node_intrinsic 50 100 fixed_flex_child
           fixed_flex_child 10 0 0 0 0 100 (0, 0));
    reflexivity.
Defined.

Lemma flex_proportionality_witness :
  (0 <= 100 < 2 ^ 51)%Z /\
  let '(node_children, (_, width, _, _)) :=
    _layout_row_children _layout_node plain_style flex_row (inject_Z 100) 50
      true true in
  exists c1' c3',
    node_children = [c1'; c3'] /\
    let quantum := true_div (inject_Z 100 + 0) (0 + 1 + 3) in
    let width_1 := content_width (layout c1') in
    let width_3 := content_width (layout c3') in
    (exists alloc left top,
       alloc == float_mul quantum 1 /\
       c1' = set_position
               (_layout_node flex_child_1 alloc 50 true (is_row flex_child_1))
               left top) /\
    (exists alloc left top,
       alloc == float_mul quantum 3 /\
       c3' = set_position
               (_layout_node flex_child_3 alloc 50 true (is_row flex_child_3))
               left top) /\
    quantum == inject_Z 100 / 4 /\
    float_mul quantum 1 == inject_Z 100 / 4 /\
    float_mul quantum 3 == inject_Z (3 * 100) / 4 /\
    width_1 = (100 / 4)%Z /\
    width_3 = (3 * 100 / 4)%Z /\
    (3 * width_1 <= width_3 <= 3 * width_1 + 2)%Z /\
    (width_1 + width_3 <= 100 <= width_1 + width_3 + 1)%Z /\
    (true = true -> width == inject_Z 100).
Proof.
  split; [lia|].
  apply (flex_proportionality plain_style flex_row flex_child_1 flex_child_3
           100 50 true true);
    try reflexivity.
  lia.
Defined.

Lemma rtl_mirroring_witness :
  let '(node_children, (_, width, _, _)) :=
    _layout_row_children _layout_node plain_style rtl_row 30 50 true true in
  width == 30 /\
  exists a' b',
    node_children = [a'; b'] /\
    content_width (layout a') = 10%Z /\ content_width (layout b') = 20%Z /\
    match text_direction (style rtl_row) with
    | LTR => content_left (layout a') == 0 /\ content_left (layout b') == 10
    | RTL => content_left (layout a') == 20 /\ content_left (layout b') == 0
    end.
Proof.
  apply (rtl_mirroring plain_style rtl_row wide_child_10 wide_child_20 50
           true true);
    reflexivity.
Defined.

(** ** Where the code departs from the wording of the claims *)

(** C3 as worded speaks of a fixed intrinsic width. A flex child of fixed
    intrinsic width 10 is laid out by pass 1, and neither [flex_total]
    nor [min_flex] grows. *)
Lemma fixed_intrinsic_flex_child_not_deferred :
  Style.width (style fixed_flex_child) = None /\
  intrinsic_width (intrinsic fixed_flex_child) = Some (fixed 10) /\
  0 < flex (style fixed_flex_child) /\
  let '(child', (flex_total, min_flex, _, _, _)) :=
    row_pass1 _layout_node 50 fixed_flex_child (0, 0, 0, 0, 100) in
  child' = _layout_node fixed_flex_child 100 50 false true /\
  child' <> fixed_flex_child /\
  ~ flex_total == 0 + flex (style fixed_flex_child) /\
  ~ min_flex == 0 + (0 + 10 + 0).
Proof.
  repeat split; try reflexivity; vm_compute; discriminate.
Qed.

(** C4 as worded speaks of a flexible intrinsic width. A flex child of
    flexible intrinsic width 10 is left alone by pass 1 and laid out by
    pass 2. *)
Lemma flexible_intrinsic_flex_child_deferred :
  Style.width (style flexible_flex_child) = None /\
  intrinsic_width (intrinsic flexible_flex_child) = Some (at_least 10) /\
  let '(child1, _) :=
    row_pass1 _layout_node 50 flexible_flex_child (0, 0, 0, 0, 100) in
  child1 = flexible_flex_child /\
  child1 <> _layout_node flexible_flex_child 100 50 false true /\
  let '(child2, _) :=
    row_pass2 _layout_node 50 100 flexible_flex_child child1 (10, 10) in
  child2 = _layout_node flexible_flex_child 100 50 true true /\
  child2 <> child1.
Proof.
  repeat split; try reflexivity; vm_compute; discriminate.
Qed.

(** C5 as worded speaks of any two flex children and any available
    width. In a row 40 wide, flex children of weights 1 and 3 that hold a
    grandchild 50 wide and a grandchild 30 wide are allocated 10 and 30
    and come out 50 and 30 wide: not in ratio 1 : 3, and 80 in sum. And
    in a row [2^53 + 3] wide, where the quantum and the larger share are
    rounded, the widths of two childless flex children add up to one more
    than the available width. *)
Lemma flex_children_not_proportional :
  (map (fun c => flex (style c)) (children flex_parents_row) = [1; 3]
   /\ Forall (fun c =>
        Style.width (style c) = None /\ Style.height (style c) = None
        /\ intrinsic c = mkIntrinsic None None
        /\ margin_left (style c) = 0%Z /\ margin_right (style c) = 0%Z
        /\ margin_top (style c) = 0%Z /\ margin_bottom (style c) = 0%Z)
       (children flex_parents_row)
   /\ let widths :=
        map (fun c => content_width (layout c))
          (fst (_layout_row_children _layout_node plain_style
                  flex_parents_row (inject_Z 40) 50 true true)) in
      let width_1 := nth 0 widths 0%Z in
      let width_3 := nth 1 widths 0%Z in
      widths = [50; 30]%Z
      /\ (3 * width_1 <=? width_3 + 2)%Z = false
      /\ (width_1 + width_3 <=? 40)%Z = false)
  /\
  (let S := (2 ^ 53 + 3)%Z in
   map (fun c => flex (style c)) (children flex_row) = [1; 3]
   /\ Forall (fun c =>
        children c = []
        /\ Style.width (style c) = None /\ Style.height (style c) = None
        /\ intrinsic c = mkIntrinsic None None
        /\ margin_left (style c) = 0%Z /\ margin_right (style c) = 0%Z
        /\ margin_top (style c) = 0%Z /\ margin_bottom (style c) = 0%Z)
       (children flex_row)
   /\ let widths :=
        map (fun c => content_width (layout c))
          (fst (_layout_row_children _layout_node plain_style flex_row
                  (inject_Z S) 50 true true)) in
      let width_1 := nth 0 widths 0%Z in
      let width_3 := nth 1 widths 0%Z in
      widths = [2251799813685249; 6755399441055747]%Z
      /\ (width_1 + width_3 = S + 1)%Z
      /\ (width_1 + width_3 <=? S)%Z = false).
Proof.
  split.
  - split; [reflexivity|]. split; [repeat constructor|].
    vm_compute. repeat split.
  - cbv zeta. split; [reflexivity|]. split; [repeat constructor|].
    vm_compute. repeat split.
Qed.

(** C7 as worded has [floor(extra / 2)]. In a centred row, next to a
    child [2^54 + 2] high, a child of height 0 without margins has
    [extra = 2^54 + 2]; the code computes [int(extra / 2)] with a float
    quotient and puts the child at [2^53], one above
    [floor(extra / 2) = 2^53 + 1]. *)
Lemma row_centre_beyond_2_53 :
  align_items (style huge_row) = Some CENTER /\
  let '(node_children, (_, _, _, height)) :=
    _layout_row_children _layout_node (style huge_row) huge_row 0 0 false
      false in
  let child := nth 1 node_children huge_row in
  style child = style (nth 1 (children huge_row) huge_row) /\
  content_height (layout child) = 0%Z /\
  margin_top (style child) = 0%Z /\ margin_bottom (style child) = 0%Z /\
  let extra :=
    height
    - (inject_Z (content_height (layout child))
       + inject_Z (margin_top (style child))
       + inject_Z (margin_bottom (style child))) in
  Qred extra = inject_Z (2 ^ 54 + 2) /\
  Qred (content_top (layout child)) = inject_Z (2 ^ 53) /\
  (Qfloor (extra / 2) = 2 ^ 53 + 1)%Z /\
  Qeq_bool (content_top (layout child))
    (inject_Z (Qfloor (extra / 2)) + inject_Z (margin_top (style child)))
  = false.
Proof. split; [reflexivity|]. vm_compute. repeat split. Qed.

(** C8 as worded has the integer-truncated half of [extra]. In a centred
    column, next to a child [2^54 + 2] wide, a child of width 0 without
    margins has [extra = 2^54 + 2]; the code puts it at [2^53], and the
    truncated half of [extra] is [2^53 + 1]. *)
Lemma column_centre_beyond_2_53 :
  align_items (style huge_column) = Some CENTER /\
  let '(node_children, (_, width, _, _)) :=
    _layout_column_children _layout_node (style huge_column) huge_column 0 0
      false false in
  let child := nth 1 node_children huge_column in
  style child = style (nth 1 (children huge_column) huge_column) /\
  content_width (layout child) = 0%Z /\
  margin_left (style child) = 0%Z /\ margin_right (style child) = 0%Z /\
  let extra :=
    width
    - (inject_Z (content_width (layout child))
       + inject_Z (margin_left (style child))
       + inject_Z (margin_right (style child))) in
  Qred extra = inject_Z (2 ^ 54 + 2) /\
  Qred (content_left (layout child)) = inject_Z (2 ^ 53) /\
  int (extra / 2) = (2 ^ 53 + 1)%Z /\
  Qeq_bool (content_left (layout child))
    (inject_Z (int (extra / 2)) + inject_Z (margin_left (style child)))
  = false.
Proof. split; [reflexivity|]. vm_compute. repeat split. Qed.

(** * Further properties of the layout and of the style

    What the two procedures return and where they put the children, in
    terms of the boxes of the children; what a layout reads and writes;
    bounds on the boxes of the whole tree; the calls on the children and
    the cross-axis stretch; the share of the flex children; and the code
    of the style outside the layout. *)

(** ** The sizes and positions in terms of the children *)

Lemma for_each_total {S : Type} (body : Node -> S -> Node * S)
    (g : S -> Q) (m : Node -> Q) (cs : list Node) :
  (forall c s, g (snd (body c s)) == g s + m (fst (body c s))) ->
  forall s,
  g (snd (for_each body cs s)) == g s + total m (fst (for_each body cs s)).
Proof.
  intros H. induction cs as [|c cs IH]; intros s.
  - simpl. ring.
  - rewrite for_each_cons. cbn [fst snd total]. rewrite IH, H. ring.
Qed.

Lemma for_each_again_total {S : Type}
    (body : Node -> Node -> S -> Node * S) (R : Node -> Node -> Prop)
    (g : S -> Q) (m1 m2 : Node -> Q) (before cs : list Node) :
  Forall2 R before cs ->
  (forall o c s, R o c ->
     g (snd (body o c s)) == g s + m2 (fst (body o c s)) - m1 c) ->
  forall s,
  g (snd (for_each_again body before cs s))
  == g s + total m2 (fst (for_each_again body before cs s)) - total m1 cs.
Proof.
  intros HR H. induction HR as [|o c os cs Hoc _ IH]; intros s.
  - simpl. ring.
  - rewrite for_each_again_cons. cbn [fst snd total].
    rewrite IH, (H _ _ _ Hoc). ring.
Qed.

Lemma total_ext (f g : Node -> Q) (cs ds : list Node) :
  Forall2 (fun c d => f c == g d) cs ds -> total f cs == total g ds.
Proof.
  induction 1; simpl; [reflexivity|]. rewrite H, IHForall2. reflexivity.
Qed.

Section Sizes.
Variable rec : Node -> Q -> Q -> bool -> bool -> Node.
Hypothesis rec_style : forall c a b u v, style (rec c a b u v) = style c.
Hypothesis rec_intrinsic :
  forall c a b u v, intrinsic (rec c a b u v) = intrinsic c.

Lemma row_pass1_width ah c vars :
  width_of_5 (snd (row_pass1 rec ah c vars))
  == width_of_5 vars + row_pass1_estimate (fst (row_pass1 rec ah c vars)).
Proof.
  destruct vars as [[[[ft mf] w] mw] rw].
  unfold row_pass1, row_pass1_estimate, row_deferred, outer_width, width_of_5.
  destruct (Style.width (style c)) eqn:Ew.
  { cbn [fst snd]. rewrite rec_style, Ew. reflexivity. }
  destruct (intrinsic_width (intrinsic c)) as [[n|v]|] eqn:Ei;
    destruct (truthy (flex (style c))) eqn:Ef; cbn [fst snd];
    rewrite ?rec_style, ?rec_intrinsic, ?Ew, ?Ei, ?Ef; cbn [andb];
    reflexivity.
Qed.

Lemma row_pass2_width ah q o c vars :
  row_pass1_result rec ah o c ->
  fst (snd (row_pass2 rec ah q o c vars))
  == fst vars + outer_width (fst (row_pass2 rec ah q o c vars))
     - row_pass1_estimate c.
Proof.
  intros Hoc. destruct vars as [w mw].
  destruct (row_deferred c) eqn:Ed.
  - pose proof (row_pass2_lays_out_child_itself rec rec_style rec_intrinsic
                  ah o c Hoc Ed) as ->.
    unfold row_pass1_estimate. rewrite Ed.
    unfold row_deferred in Ed. unfold row_pass2, outer_width.
    destruct (Style.width (style o)); [discriminate|].
    destruct (truthy (flex (style o))); [|discriminate].
    destruct (intrinsic_width (intrinsic o)) as [[n|v]|];
      [discriminate| |]; cbn [fst snd]; rewrite rec_style; ring.
  - rewrite row_pass2_not_deferred by exact Ed.
    unfold row_pass1_estimate. rewrite Ed. cbn [fst snd]. ring.
Qed.

Lemma row_pass1_min_width ah c vars :
  min_width_of_5 (snd (row_pass1 rec ah c vars))
  == min_width_of_5 vars
     + row_pass1_min_estimate (fst (row_pass1 rec ah c vars)).
Proof.
  destruct vars as [[[[ft mf] w] mw] rw].
  unfold row_pass1, row_pass1_min_estimate, row_pass1_estimate, row_deferred,
    row_min_outer_width, row_min_is_content, min_width_of_5.
  destruct (Style.width (style c)) eqn:Ew.
  { cbn [fst snd]. rewrite rec_style, Ew. reflexivity. }
  destruct (intrinsic_width (intrinsic c)) as [[n|v]|] eqn:Ei;
    destruct (truthy (flex (style c))) eqn:Ef; cbn [fst snd];
    rewrite ?rec_style, ?rec_intrinsic, ?Ew, ?Ei, ?Ef; cbn [andb negb];
    reflexivity.
Qed.

Lemma row_pass2_min_width ah q o c vars :
  row_pass1_result rec ah o c ->
  snd (snd (row_pass2 rec ah q o c vars))
  == snd vars + row_min_outer_width (fst (row_pass2 rec ah q o c vars))
     - row_pass1_min_estimate c.
Proof.
  intros Hoc. destruct vars as [w mw].
  destruct (row_deferred c) eqn:Ed.
  - pose proof (row_pass2_lays_out_child_itself rec rec_style rec_intrinsic
                  ah o c Hoc Ed) as ->.
    unfold row_pass1_min_estimate, row_pass1_estimate. rewrite Ed.
    unfold row_deferred in Ed.
    unfold row_pass2, row_min_outer_width, row_min_is_content.
    destruct (Style.width (style o)) eqn:Ew; [discriminate|].
    destruct (truthy (flex (style o))) eqn:Ef; [|discriminate].
    destruct (intrinsic_width (intrinsic o)) as [[n|v]|] eqn:Ei;
      [discriminate| |]; cbn [fst snd];
      rewrite rec_style, rec_intrinsic, Ew, Ei, ?Ef; cbn [negb]; ring.
  - rewrite row_pass2_not_deferred by exact Ed.
    unfold row_pass1_min_estimate. rewrite Ed. cbn [fst snd]. ring.
Qed.

Lemma row_pass3_lub td w cs :
  forall o h mh B Bm,
  h <= B -> mh <= Bm ->
  Forall (fun c => outer_height c <= B /\ min_outer_height c <= Bm)
    (fst (for_each (row_pass3 td w) cs (o, h, mh))) ->
  snd (fst (snd (for_each (row_pass3 td w) cs (o, h, mh)))) <= B /\
  snd (snd (for_each (row_pass3 td w) cs (o, h, mh))) <= Bm.
Proof.
  induction cs as [|c cs IH]; intros o h mh B Bm Hh Hm Hall.
  - simpl. split; assumption.
  - rewrite for_each_cons in Hall |- *.
    destruct (row_pass3 td w c (o, h, mh)) as [c' [[o' h'] mh']] eqn:E.
    cbn [fst snd] in Hall |- *.
    inversion Hall as [|? ? [Hc Hcm] Hrest]; subst.
    apply (IH o' h' mh' B Bm); [| |exact Hrest];
      unfold row_pass3 in E; destruct td; inversion E; subst; clear E;
      unfold outer_height, min_outer_height in Hc, Hcm;
      cbn [style layout set_content_left set_box content_height
           min_content_height] in Hc, Hcm;
      apply Q.max_lub; assumption.
Qed.

Lemma row_pass3_min_height td w cs :
  forall o h mh,
  mh <= snd (snd (for_each (row_pass3 td w) cs (o, h, mh))) /\
  Forall (fun c =>
    min_outer_height c <= snd (snd (for_each (row_pass3 td w) cs (o, h, mh))))
    (fst (for_each (row_pass3 td w) cs (o, h, mh))).
Proof.
  induction cs as [|c cs IH]; intros o h mh.
  - simpl. split; [lra | constructor].
  - rewrite for_each_cons.
    destruct (row_pass3 td w c (o, h, mh)) as [c' [[o' h'] mh']] eqn:E.
    cbn [fst snd]. destruct (IH o' h' mh') as [Hle Hall].
    assert (Hc : mh <= mh' /\ min_outer_height c' <= mh').
    { unfold row_pass3 in E. destruct td; inversion E; subst; clear E;
        unfold min_outer_height;
        cbn [style layout set_content_left set_box min_content_height];
        split; first [apply Q.le_max_l | apply Q.le_max_r]. }
    destruct Hc as [Hh Hc]. split; [lra|]. constructor; [lra | assumption].
Qed.

Lemma row_pass4_heights ai h c :
  outer_height (row_pass4 ai h c) = outer_height c /\
  min_outer_height (row_pass4 ai h c) = min_outer_height c.
Proof. unfold row_pass4. destruct ai as [[ | | ]|]; split; reflexivity. Qed.

Lemma row_sizes self node aw ah uw uh :
  let '(cs', (min_width, width, min_height, height)) :=
    _layout_row_children rec self node aw ah uw uh in
  width == (if uw then Qmax (total outer_width cs') aw
            else total outer_width cs')
  /\ min_width == total row_min_outer_width cs'
  /\ Forall (fun c => outer_height c <= height
                      /\ min_outer_height c <= min_height) cs'
  /\ (uh = true -> ah <= height)
  /\ forall B Bm,
       0 <= B -> 0 <= Bm -> (uh = true -> ah <= B) ->
       Forall (fun c => outer_height c <= B /\ min_outer_height c <= Bm) cs' ->
       height <= B /\ min_height <= Bm.
Proof.
  unfold _layout_row_children.
  assert (U1 := row_pass1_children rec ah (children node) (0, 0, 0, 0, aw)).
  assert (T1 := for_each_total (row_pass1 rec ah) width_of_5 row_pass1_estimate
                  (children node) (row_pass1_width ah) (0, 0, 0, 0, aw)).
  assert (M1 := for_each_total (row_pass1 rec ah) min_width_of_5
                  row_pass1_min_estimate (children node)
                  (row_pass1_min_width ah) (0, 0, 0, 0, aw)).
  destruct (for_each (row_pass1 rec ah) (children node) (0, 0, 0, 0, aw))
    as [cs1 [[[[ft mf] w] mw] rw]].
  cbn [fst snd width_of_5 min_width_of_5] in U1, T1, M1.
  set (quantum := if Qgtb ft 0 then _ else _). clearbody quantum.
  assert (T2 := for_each_again_total (row_pass2 rec ah quantum)
                  (row_pass1_result rec ah) fst row_pass1_estimate outer_width
                  (children node) cs1 U1
                  (fun o c s H => row_pass2_width ah quantum o c s H) (w, mw)).
  assert (M2 := for_each_again_total (row_pass2 rec ah quantum)
                  (row_pass1_result rec ah) snd row_pass1_min_estimate
                  row_min_outer_width (children node) cs1 U1
                  (fun o c s H => row_pass2_min_width ah quantum o c s H)
                  (w, mw)).
  destruct (for_each_again (row_pass2 rec ah quantum) (children node) cs1
              (w, mw)) as [cs2 [w2 mw2]]. cbn [fst snd] in T2, M2.
  assert (E2 : w2 == total outer_width cs2) by (rewrite T2, T1; ring).
  assert (F2 : mw2 == total row_min_outer_width cs2) by (rewrite M2, M1; ring).
  set (w3 := if uw then _ else _).
  assert (U3 := row_pass3_children (text_direction (style node)) w3 cs2
                  (0, 0, 0)).
  pose proof (row_pass3_height (text_direction (style node)) w3 cs2 0 0 0)
    as [_ H3].
  pose proof (row_pass3_min_height (text_direction (style node)) w3 cs2 0 0 0)
    as [_ H3m].
  pose proof (row_pass3_lub (text_direction (style node)) w3 cs2 0 0 0) as L3.
  destruct (for_each (row_pass3 (text_direction (style node)) w3) cs2
              (0, 0, 0)) as [cs3 [[o3 h3] mh3]].
  cbn [fst snd] in U3, H3, H3m, L3.
  set (h4 := if uh then Qmax h3 ah else h3).
  assert (Hh : h3 <= h4).
  { subst h4. destruct uh; [apply Q.le_max_l | lra]. }
  assert (P4 : Forall2
                 (fun c c4 =>
                    outer_width c4 = outer_width c
                    /\ row_min_outer_width c4 = row_min_outer_width c)
                 cs2 (map (row_pass4 (align_items self) h4) cs3)).
  { apply Forall2_map_r. revert U3. apply Forall2_impl.
    intros c c3 [l ->].
    destruct (row_pass4_child (align_items self) h4 (set_content_left c l))
      as [t ->]. split; reflexivity. }
  assert (E3 : total outer_width cs2
               == total outer_width
                    (map (row_pass4 (align_items self) h4) cs3)).
  { apply total_ext. revert P4. apply Forall2_impl.
    intros c d [-> _]. reflexivity. }
  assert (F3 : total row_min_outer_width cs2
               == total row_min_outer_width
                    (map (row_pass4 (align_items self) h4) cs3)).
  { apply total_ext. revert P4. apply Forall2_impl.
    intros c d [_ ->]. reflexivity. }
  split; [subst w3; destruct uw; rewrite <- E3, <- E2; reflexivity|].
  split; [rewrite <- F3; exact F2|].
  split.
  { apply Forall_map. apply Forall_forall. intros c Hc.
    destruct (row_pass4_heights (align_items self) h4 c) as [-> ->].
    rewrite Forall_forall in H3, H3m. specialize (H3 c Hc).
    specialize (H3m c Hc). split; lra. }
  split.
  { intros ->. subst h4. apply Q.le_max_r. }
  intros B Bm HB HBm Hah Hall.
  destruct (L3 B Bm HB HBm) as [L3h L3m].
  { apply Forall_map in Hall. revert Hall. apply Forall_impl. intros c.
    destruct (row_pass4_heights (align_items self) h4 c) as [-> ->]. auto. }
  split; [|exact L3m].
  subst h4. destruct uh; [apply Q.max_lub; auto | assumption].
Qed.




(** The same for a column. *)

Lemma column_pass1_height aw c vars :
  width_of_5 (snd (column_pass1 rec aw c vars))
  == width_of_5 vars + column_pass1_estimate (fst (column_pass1 rec aw c vars)).
Proof.
  destruct vars as [[[[ft mf] h] mh] rh].
  unfold column_pass1, column_pass1_estimate, column_deferred, outer_height,
    width_of_5.
  destruct (Style.height (style c)) eqn:Eh.
  { cbn [fst snd]. rewrite rec_style, Eh. reflexivity. }
  destruct (intrinsic_height (intrinsic c)) as [[n|v]|] eqn:Ei;
    destruct (truthy (flex (style c))) eqn:Ef; cbn [fst snd];
    rewrite ?rec_style, ?rec_intrinsic, ?Eh, ?Ei, ?Ef; cbn [andb];
    reflexivity.
Qed.

Lemma column_pass1_min_height aw c vars :
  min_width_of_5 (snd (column_pass1 rec aw c vars))
  == min_width_of_5 vars
     + column_pass1_min_estimate (fst (column_pass1 rec aw c vars)).
Proof.
  destruct vars as [[[[ft mf] h] mh] rh].
  unfold column_pass1, column_pass1_min_estimate, column_pass1_estimate,
    column_deferred, column_min_outer_height, column_min_is_content,
    min_width_of_5.
  destruct (Style.height (style c)) eqn:Eh.
  { cbn [fst snd]. rewrite rec_style, Eh. reflexivity. }
  destruct (intrinsic_height (intrinsic c)) as [[n|v]|] eqn:Ei;
    destruct (truthy (flex (style c))) eqn:Ef; cbn [fst snd];
    rewrite ?rec_style, ?rec_intrinsic, ?Eh, ?Ei, ?Ef; cbn [andb negb];
    reflexivity.
Qed.

Lemma column_pass2_height aw q o c vars :
  column_pass1_result rec aw o c ->
  fst (snd (column_pass2 rec aw q o c vars))
  == fst vars + outer_height (fst (column_pass2 rec aw q o c vars))
     - column_pass1_estimate c.
Proof.
  intros Hoc. destruct vars as [h mh].
  destruct (column_deferred c) eqn:Ed.
  - pose proof (column_pass2_lays_out_child_itself rec rec_style
                  rec_intrinsic aw o c Hoc Ed) as ->.
    unfold column_pass1_estimate. rewrite Ed.
    unfold column_deferred in Ed. unfold column_pass2, outer_height.
    destruct (Style.height (style o)); [discriminate|].
    destruct (truthy (flex (style o))); [|discriminate].
    destruct (intrinsic_height (intrinsic o)) as [[n|v]|];
      [discriminate| |]; cbn [fst snd]; rewrite rec_style; ring.
  - rewrite column_pass2_not_deferred by exact Ed.
    unfold column_pass1_estimate. rewrite Ed. cbn [fst snd]. ring.
Qed.

Lemma column_pass2_min_height aw q o c vars :
  column_pass1_result rec aw o c ->
  snd (snd (column_pass2 rec aw q o c vars))
  == snd vars + column_min_outer_height (fst (column_pass2 rec aw q o c vars))
     - column_pass1_min_estimate c.
Proof.
  intros Hoc. destruct vars as [h mh].
  destruct (column_deferred c) eqn:Ed.
  - pose proof (column_pass2_lays_out_child_itself rec rec_style
                  rec_intrinsic aw o c Hoc Ed) as ->.
    unfold column_pass1_min_estimate, column_pass1_estimate. rewrite Ed.
    unfold column_deferred in Ed.
    unfold column_pass2, column_min_outer_height, column_min_is_content.
    destruct (Style.height (style o)) eqn:Eh; [discriminate|].
    destruct (truthy (flex (style o))) eqn:Ef; [|discriminate].
    destruct (intrinsic_height (intrinsic o)) as [[n|v]|] eqn:Ei;
      [discriminate| |]; cbn [fst snd];
      rewrite rec_style, rec_intrinsic, Eh, Ei, ?Ef; cbn [negb]; ring.
  - rewrite column_pass2_not_deferred by exact Ed.
    unfold column_pass1_min_estimate. rewrite Ed. cbn [fst snd]. ring.
Qed.

Lemma column_pass3_bounds cs :
  forall o w mw,
  (w <= snd (fst (snd (for_each column_pass3 cs (o, w, mw)))) /\
   mw <= snd (snd (for_each column_pass3 cs (o, w, mw)))) /\
  Forall (fun c =>
    outer_width c <= snd (fst (snd (for_each column_pass3 cs (o, w, mw)))) /\
    min_outer_width c <= snd (snd (for_each column_pass3 cs (o, w, mw))))
    (fst (for_each column_pass3 cs (o, w, mw))).
Proof.
  induction cs as [|c cs IH]; intros o w mw.
  - simpl. split; [split; lra | constructor].
  - rewrite for_each_cons.
    destruct (column_pass3 c (o, w, mw)) as [c' [[o' w'] mw']] eqn:E.
    cbn [fst snd]. destruct (IH o' w' mw') as [[Hle Hlem] Hall].
    assert (Hc : (w <= w' /\ outer_width c' <= w') /\
                 (mw <= mw' /\ min_outer_width c' <= mw')).
    { unfold column_pass3 in E. inversion E; subst; clear E.
      unfold outer_width, min_outer_width.
      cbn [style layout set_content_top set_box content_width
           min_content_width].
      repeat split; first [apply Q.le_max_l | idtac].
      - eapply Qle_trans; [|apply Q.le_max_r]. lra.
      - apply Q.le_max_r. }
    destruct Hc as [[Hw Hc] [Hm Hcm]].
    split; [split; lra|]. constructor; [split; lra | assumption].
Qed.

Lemma column_pass3_lub cs :
  forall o w mw B Bm,
  w <= B -> mw <= Bm ->
  Forall (fun c => outer_width c <= B /\ min_outer_width c <= Bm)
    (fst (for_each column_pass3 cs (o, w, mw))) ->
  snd (fst (snd (for_each column_pass3 cs (o, w, mw)))) <= B /\
  snd (snd (for_each column_pass3 cs (o, w, mw))) <= Bm.
Proof.
  induction cs as [|c cs IH]; intros o w mw B Bm Hw Hm Hall.
  - simpl. split; assumption.
  - rewrite for_each_cons in Hall |- *.
    destruct (column_pass3 c (o, w, mw)) as [c' [[o' w'] mw']] eqn:E.
    cbn [fst snd] in Hall |- *.
    inversion Hall as [|? ? [Hc Hcm] Hrest]; subst.
    apply (IH o' w' mw' B Bm); [| |exact Hrest];
      unfold column_pass3 in E; inversion E; subst; clear E;
      unfold outer_width, min_outer_width in Hc, Hcm;
      cbn [style layout set_content_top set_box content_width
           min_content_width] in Hc, Hcm;
      apply Q.max_lub; first [assumption | lra].
Qed.

Lemma column_pass4_sizes self w c :
  outer_width (column_pass4 self w c) = outer_width c /\
  min_outer_width (column_pass4 self w c) = min_outer_width c /\
  outer_height (column_pass4 self w c) = outer_height c /\
  column_min_outer_height (column_pass4 self w c)
  = column_min_outer_height c /\
  content_top (layout (column_pass4 self w c)) = content_top (layout c) /\
  style (column_pass4 self w c) = style c.
Proof.
  unfold column_pass4.
  destruct (text_direction self), (align_items self) as [[ | | ]|];
    repeat split.
Qed.

Lemma column_sizes self node aw ah uw uh :
  let '(cs', (min_width, width, min_height, height)) :=
    _layout_column_children rec self node aw ah uw uh in
  height == (if uh then Qmax (total outer_height cs') ah
             else total outer_height cs')
  /\ min_height == total column_min_outer_height cs'
  /\ Forall (fun c => outer_width c <= width
                      /\ min_outer_width c <= min_width) cs'
  /\ (uw = true -> aw <= width)
  /\ forall B Bm,
       0 <= B -> 0 <= Bm -> (uw = true -> aw <= B) ->
       Forall (fun c => outer_width c <= B /\ min_outer_width c <= Bm) cs' ->
       width <= B /\ min_width <= Bm.
Proof.
  unfold _layout_column_children.
  assert (U1 := column_pass1_children rec aw (children node)
                  (0, 0, 0, 0, ah)).
  assert (T1 := for_each_total (column_pass1 rec aw) width_of_5
                  column_pass1_estimate (children node)
                  (column_pass1_height aw) (0, 0, 0, 0, ah)).
  assert (M1 := for_each_total (column_pass1 rec aw) min_width_of_5
                  column_pass1_min_estimate (children node)
                  (column_pass1_min_height aw) (0, 0, 0, 0, ah)).
  destruct (for_each (column_pass1 rec aw) (children node) (0, 0, 0, 0, ah))
    as [cs1 [[[[ft mf] h] mh] rh]].
  cbn [fst snd width_of_5 min_width_of_5] in U1, T1, M1.
  set (quantum := if Qgtb ft 0 then _ else _). clearbody quantum.
  assert (T2 := for_each_again_total (column_pass2 rec aw quantum)
                  (column_pass1_result rec aw) fst column_pass1_estimate
                  outer_height (children node) cs1 U1
                  (fun o c s H => column_pass2_height aw quantum o c s H)
                  (h, mh)).
  assert (M2 := for_each_again_total (column_pass2 rec aw quantum)
                  (column_pass1_result rec aw) snd column_pass1_min_estimate
                  column_min_outer_height (children node) cs1 U1
                  (fun o c s H => column_pass2_min_height aw quantum o c s H)
                  (h, mh)).
  destruct (for_each_again (column_pass2 rec aw quantum) (children node) cs1
              (h, mh)) as [cs2 [h2 mh2]]. cbn [fst snd] in T2, M2.
  assert (E2 : h2 == total outer_height cs2) by (rewrite T2, T1; ring).
  assert (F2 : mh2 == total column_min_outer_height cs2)
    by (rewrite M2, M1; ring).
  assert (U3 := column_pass3_children cs2 (0, 0, 0)).
  pose proof (column_pass3_bounds cs2 0 0 0) as [_ H3].
  pose proof (column_pass3_lub cs2 0 0 0) as L3.
  destruct (for_each column_pass3 cs2 (0, 0, 0)) as [cs3 [[o3 w3] mw3]].
  cbn [fst snd] in U3, H3, L3.
  set (w4 := if uw then Qmax w3 aw else w3).
  assert (Hw : w3 <= w4).
  { subst w4. destruct uw; [apply Q.le_max_l | lra]. }
  assert (P4 : Forall2 (fun c c4 =>
                          outer_height c4 = outer_height c
                          /\ column_min_outer_height c4
                             = column_min_outer_height c)
                 cs2 (map (column_pass4 self w4) cs3)).
  { apply Forall2_map_r. revert U3. apply Forall2_impl.
    intros c c3 [t ->].
    destruct (column_pass4_sizes self w4 (set_content_top c t))
      as (_ & _ & -> & -> & _). split; reflexivity. }
  assert (E3 : total outer_height cs2
               == total outer_height (map (column_pass4 self w4) cs3)).
  { apply total_ext. revert P4. apply Forall2_impl.
    intros c d [-> _]. reflexivity. }
  assert (F3 : total column_min_outer_height cs2
               == total column_min_outer_height
                    (map (column_pass4 self w4) cs3)).
  { apply total_ext. revert P4. apply Forall2_impl.
    intros c d [_ ->]. reflexivity. }
  split; [destruct uh; rewrite <- E3, <- E2; reflexivity|].
  split; [rewrite <- F3; exact F2|].
  split.
  { apply Forall_map. apply Forall_forall. intros c Hc.
    destruct (column_pass4_sizes self w4 c) as (-> & -> & _).
    rewrite Forall_forall in H3. destruct (H3 c Hc). split; lra. }
  split.
  { intros ->. subst w4. apply Q.le_max_r. }
  intros B Bm HB HBm Haw Hall.
  destruct (L3 B Bm HB HBm) as [L3w L3m].
  { apply Forall_map in Hall. revert Hall. apply Forall_impl. intros c.
    destruct (column_pass4_sizes self w4 c) as (-> & -> & _). auto. }
  split; [|exact L3m].
  subst w4. destruct uw; [apply Q.max_lub; auto | assumption].
Qed.




End Sizes.






(** ** Right-to-left rows *)




(** ** What a layout reads and what it writes *)

(** X7. [layout] writes boxes and nothing else: the tree it returns has
    the nodes of the tree it was given, in the same order and with the
    same styles and intrinsic sizes. *)
Theorem layout_keeps_skeleton (root : Node)
    (viewport_width viewport_height : Z) :
  skeleton (Pack_layout root viewport_width viewport_height) = skeleton root.
Proof. apply Pack_layout_skeleton. Qed.

(** X8. The boxes that an earlier layout left in the tree do not
    influence the next one: two trees with the same styles, intrinsic
    sizes and shape are laid out to the same tree, whatever sizes and
    positions their boxes held before. The two positions that [layout]
    never writes below the root, [content_bottom] and [content_right],
    are carried over and have to agree there. *)
Theorem layout_ignores_previous_boxes (root root' : Node)
    (viewport_width viewport_height : Z) :
  style root = style root' -> intrinsic root = intrinsic root' ->
  Forall2 same_inputs (children root) (children root') ->
  Pack_layout root viewport_width viewport_height
  = Pack_layout root' viewport_width viewport_height.
Proof.
  intros Hs Hi Hch.
  destruct (_layout_node_congr root root' Hs Hi Hch
              (inject_Z viewport_width) (inject_Z viewport_height) true true)
    as (Es & Ei & Ec & H1 & H2 & H3 & H4).
  unfold Pack_layout.
  set (x := _layout_node root _ _ _ _) in *.
  set (y := _layout_node root' _ _ _ _) in *.
  clearbody x y. clear Hs Hi Hch.
  destruct x as [sx ix [cwx chx mwx mhx tx lx bx rx] kx].
  destruct y as [sy iy [cwy chy mwy mhy ty ly bty ry] ky].
  simpl in *. subst. reflexivity.
Qed.

(** ** The root and the viewport *)

Lemma int_clamp (a b c : Z) :
  int (Qmax 0 (inject_Z a - inject_Z b - inject_Z c)) = Z.max 0 (a - b - c).
Proof.
  rewrite <- (int_inject_Z (Z.max 0 (a - b - c))). apply int_Qeq.
  assert (E : inject_Z a - inject_Z b - inject_Z c == inject_Z (a - b - c)).
  { unfold Z.sub. rewrite !inject_Z_plus, !inject_Z_opp. ring. }
  rewrite E.
  destruct (Z.max_spec 0 (a - b - c)) as [[H ->]|[H ->]].
  - apply Q.max_r. change 0 with (inject_Z 0). rewrite <- Zle_Qle. lia.
  - apply Q.max_l. change 0 with (inject_Z 0). rewrite <- Zle_Qle. lia.
Qed.

(** What [_layout_node] gets back from the procedures on an axis that
    uses all the space is at least what it handed to them. *)
Lemma _layout_node_uses_all_width node a b v :
  Style.width (style node) = None ->
  (forall n, intrinsic_width (intrinsic node) <> Some (fixed n)) ->
  (int (Qmax 0 (a - inject_Z (margin_left (style node))
                - inject_Z (margin_right (style node))))
   <= content_width (layout (_layout_node node a b true v)))%Z.
Proof.
  intros Ew Hi. rewrite _layout_node_eq. unfold layout_node_body. rewrite Ew.
  set (aw0 := Qmax 0 _).
  set (p := match intrinsic_width (intrinsic node) with
            | Some (fixed n) => _ | Some (at_least value) => _ | None => _
            end).
  assert (Hp : aw0 <= fst p).
  { subst p. destruct (intrinsic_width (intrinsic node)) as [[n|value]|];
      cbn [fst];
      [exfalso; apply (Hi n); reflexivity | apply Q.le_max_l | lra]. }
  destruct p as [aw mw0]. cbn [fst] in Hp.
  set (q := match Style.height (style node) with Some _ => _ | None => _ end).
  destruct q as [ah mh0].
  assert (Hw :
    let '(_, (_, width, _, _)) :=
      match children node with
      | _ :: _ =>
          match direction (style node) with
          | COLUMN =>
              _layout_column_children _layout_node (style node) node aw ah
                true v
          | ROW =>
              _layout_row_children _layout_node (style node) node aw ah
                true v
          end
      | [] => ([], (mw0, aw, mh0, ah))
      end in
    aw <= width).
  { destruct (children node); [lra|]. destruct (direction (style node)).
    - pose proof (row_sizes _layout_node _layout_node_style
                    _layout_node_intrinsic (style node) node aw ah true v)
        as H.
      destruct (_layout_row_children _ _ _ _ _ _ _)
        as [cs' [[[mw w] mh] h]].
      destruct H as (-> & _). apply Q.le_max_r.
    - pose proof (column_sizes _layout_node _layout_node_style
                    _layout_node_intrinsic (style node) node aw ah true v)
        as H.
      destruct (_layout_column_children _ _ _ _ _ _ _)
        as [cs' [[[mw w] mh] h]].
      destruct H as (_ & _ & _ & H & _). apply H. reflexivity. }
  destruct (match children node with [] => _ | _ :: _ => _ end)
    as [cs' [[[mw w] mh] h]].
  destruct_lets.
  cbn [layout set_sizes set_box content_width].
  apply int_le_mono. lra.
Qed.

Lemma _layout_node_uses_all_height node a b u :
  Style.height (style node) = None ->
  (forall n, intrinsic_height (intrinsic node) <> Some (fixed n)) ->
  (int (Qmax 0 (b - inject_Z (margin_top (style node))
                - inject_Z (margin_bottom (style node))))
   <= content_height (layout (_layout_node node a b u true)))%Z.
Proof.
  intros Eh Hi. rewrite _layout_node_eq. unfold layout_node_body. rewrite Eh.
  set (p := match Style.width (style node) with Some _ => _ | None => _ end).
  destruct p as [aw mw0].
  set (ah0 := Qmax 0 _).
  set (q := match intrinsic_height (intrinsic node) with
            | Some (fixed n) => _ | Some (at_least value) => _ | None => _
            end).
  assert (Hq : ah0 <= fst q).
  { subst q. destruct (intrinsic_height (intrinsic node)) as [[n|value]|];
      cbn [fst];
      [exfalso; apply (Hi n); reflexivity | apply Q.le_max_l | lra]. }
  destruct q as [ah mh0]. cbn [fst] in Hq.
  assert (Hh :
    let '(_, (_, _, _, height)) :=
      match children node with
      | _ :: _ =>
          match direction (style node) with
          | COLUMN =>
              _layout_column_children _layout_node (style node) node aw ah
                u true
          | ROW =>
              _layout_row_children _layout_node (style node) node aw ah
                u true
          end
      | [] => ([], (mw0, aw, mh0, ah))
      end in
    ah <= height).
  { destruct (children node); [lra|]. destruct (direction (style node)).
    - pose proof (row_sizes _layout_node _layout_node_style
                    _layout_node_intrinsic (style node) node aw ah u true)
        as H.
      destruct (_layout_row_children _ _ _ _ _ _ _)
        as [cs' [[[mw w] mh] h]].
      destruct H as (_ & _ & _ & H & _). apply H. reflexivity.
    - pose proof (column_sizes _layout_node _layout_node_style
                    _layout_node_intrinsic (style node) node aw ah u true)
        as H.
      destruct (_layout_column_children _ _ _ _ _ _ _)
        as [cs' [[[mw w] mh] h]].
      destruct H as (-> & _). apply Q.le_max_r. }
  destruct (match children node with [] => _ | _ :: _ => _ end)
    as [cs' [[[mw w] mh] h]].
  destruct_lets.
  cbn [layout set_sizes set_box content_height].
  apply int_le_mono. lra.
Qed.

(** X10. The root uses the viewport: without explicit width and without
    fixed intrinsic width, its content width is at least the viewport
    width less its horizontal margins (and at least 0), whatever the
    children need; likewise for the height. *)
Theorem root_fills_viewport (root : Node)
    (viewport_width viewport_height : Z) :
  (Style.width (style root) = None ->
   (forall n, intrinsic_width (intrinsic root) <> Some (fixed n)) ->
   (Z.max 0 (viewport_width - margin_left (style root)
             - margin_right (style root))
    <= content_width
         (layout (Pack_layout root viewport_width viewport_height)))%Z)
  /\
  (Style.height (style root) = None ->
   (forall n, intrinsic_height (intrinsic root) <> Some (fixed n)) ->
   (Z.max 0 (viewport_height - margin_top (style root)
             - margin_bottom (style root))
    <= content_height
         (layout (Pack_layout root viewport_width viewport_height)))%Z).
Proof.
  unfold Pack_layout.
  cbn [layout set_content_right set_content_left set_content_bottom
       set_content_top set_box content_width content_height].
  split; intros E Hi; rewrite <- int_clamp.
  - apply _layout_node_uses_all_width; assumption.
  - apply _layout_node_uses_all_height; assumption.
Qed.

(** ** Boxes without negative numbers, children inside their parent *)













(** ** The cross-axis stretch *)

Lemma total_Z (f : Node -> Q) (cs : list Node) :
  (forall c, exists z, f c == inject_Z z) ->
  exists z, total f cs == inject_Z z.
Proof.
  intros H. induction cs as [|c cs [z IH]]; simpl.
  - exists 0%Z. reflexivity.
  - destruct (H c) as [y Hy]. exists (y + z)%Z.
    rewrite Hy, IH, inject_Z_plus. reflexivity.
Qed.

Lemma outer_width_Z c : exists z, outer_width c == inject_Z z.
Proof.
  unfold outer_width. eexists. rewrite <- !inject_Z_plus. reflexivity.
Qed.

Lemma outer_height_Z c : exists z, outer_height c == inject_Z z.
Proof.
  unfold outer_height. eexists. rewrite <- !inject_Z_plus. reflexivity.
Qed.









(** ** The share of the flex children *)

Lemma for_each_again_rel {S : Type} (body : Node -> Node -> S -> Node * S)
    (R P : Node -> Node -> Prop) (before cs : list Node) :
  Forall2 R before cs ->
  (forall o c s, R o c -> P c (fst (body o c s))) ->
  forall s, Forall2 P cs (fst (for_each_again body before cs s)).
Proof.
  intros HR H. induction HR as [|o c os cs Hoc _ IH]; intros s.
  - simpl. constructor.
  - rewrite for_each_again_cons. cbn [fst]. constructor; auto.
Qed.

Lemma for_each_unchanged {S : Type} (body : Node -> S -> Node * S)
    (cs : list Node) :
  Forall (fun c => forall s, snd (body c s) = s) cs ->
  forall s, snd (for_each body cs s) = s.
Proof.
  induction 1 as [|c cs Hc _ IH]; intros s; [reflexivity|].
  rewrite for_each_cons. cbn [snd]. rewrite IH. apply Hc.
Qed.

Lemma total_zero (f : Node -> Q) cs :
  Forall (fun c => f c == 0) cs -> total f cs == 0.
Proof.
  induction 1 as [|c cs Hc _ IH]; simpl; [reflexivity|].
  rewrite Hc, IH. ring.
Qed.

Lemma total_le (f g : Node -> Q) cs :
  Forall (fun c => f c <= g c) cs -> total f cs <= total g cs.
Proof. induction 1 as [|c cs Hc _ IH]; simpl; lra. Qed.

Lemma total_plus_scaled (f g : Node -> Q) (k : Q) cs :
  total (fun c => f c + k * g c) cs == total f cs + k * total g cs.
Proof. induction cs as [|c cs IH]; simpl; [ring|]. rewrite IH. ring. Qed.

Lemma Qgtb_Qeq (a b c : Q) : a == b -> Qgtb a c = Qgtb b c.
Proof.
  intros E. destruct (Qgtb b c) eqn:H.
  - apply Qgtb_true. apply Qgtb_true in H. lra.
  - apply Qgtb_false. apply Qgtb_false in H. lra.
Qed.

Lemma truthy_Qeq (a b : Q) : a == b -> truthy a = truthy b.
Proof.
  intros E. destruct (truthy b) eqn:H.
  - apply truthy_true. apply truthy_true in H. lra.
  - apply truthy_false. apply truthy_false in H. lra.
Qed.

Section Flex.
Variable rec : Node -> Q -> Q -> bool -> bool -> Node.
Hypothesis rec_style : forall c a b u v, style (rec c a b u v) = style c.
Hypothesis rec_intrinsic :
  forall c a b u v, intrinsic (rec c a b u v) = intrinsic c.

Lemma row_pass1_flex_total ah c vars :
  flex_total_of_5 (snd (row_pass1 rec ah c vars))
  == flex_total_of_5 vars + row_flex_weight (fst (row_pass1 rec ah c vars)).
Proof.
  destruct vars as [[[[ft mf] w] mw] rw].
  unfold row_pass1, row_flex_weight, row_deferred, flex_total_of_5.
  destruct (Style.width (style c)) eqn:Ew.
  { cbn [fst snd]. rewrite rec_style, Ew. ring. }
  destruct (intrinsic_width (intrinsic c)) as [[n|v]|] eqn:Ei;
    destruct (truthy (flex (style c))) eqn:Ef; cbn [fst snd];
    rewrite ?rec_style, ?rec_intrinsic, ?Ew, ?Ei, ?Ef; cbn [andb];
    ring.
Qed.

Lemma row_pass1_min_flex ah c vars :
  min_flex_of_5 (snd (row_pass1 rec ah c vars))
  == min_flex_of_5 vars + row_min_flex (fst (row_pass1 rec ah c vars)).
Proof.
  destruct vars as [[[[ft mf] w] mw] rw].
  unfold row_pass1, row_min_flex, row_deferred, min_flex_of_5.
  destruct (Style.width (style c)) eqn:Ew.
  { cbn [fst snd]. rewrite rec_style, Ew. ring. }
  destruct (intrinsic_width (intrinsic c)) as [[n|v]|] eqn:Ei;
    destruct (truthy (flex (style c))) eqn:Ef; cbn [fst snd];
    rewrite ?rec_style, ?rec_intrinsic, ?Ew, ?Ei, ?Ef; cbn [andb];
    ring.
Qed.

Lemma row_pass1_used ah c vars :
  used_of_5 (snd (row_pass1 rec ah c vars))
  == used_of_5 vars + row_pass1_estimate (fst (row_pass1 rec ah c vars)).
Proof.
  destruct vars as [[[[ft mf] w] mw] rw].
  unfold row_pass1, row_pass1_estimate, row_deferred, outer_width, used_of_5.
  destruct (Style.width (style c)) eqn:Ew.
  { cbn [fst snd]. rewrite rec_style, Ew. ring. }
  destruct (intrinsic_width (intrinsic c)) as [[n|v]|] eqn:Ei;
    destruct (truthy (flex (style c))) eqn:Ef; cbn [fst snd];
    rewrite ?rec_style, ?rec_intrinsic, ?Ew, ?Ei, ?Ef; cbn [andb];
    ring.
Qed.

Lemma row_overflow_unchanged q c vars :
  row_flexible_flex c = false -> snd (row_overflow q c vars) = vars.
Proof.
  unfold row_flexible_flex, row_overflow. destruct vars as [ft mf].
  destruct (truthy (flex (style c))); [|reflexivity].
  destruct (intrinsic_width (intrinsic c)) as [[n|v]|];
    cbn [andb]; first [reflexivity | discriminate].
Qed.

(** Pass 2 on a child: what it reads of the child stays, and a deferred
    child without intrinsic width gets [row_flex_alloc]. *)
Lemma row_pass2_flex ah q o c vars :
  row_pass1_result rec ah o c ->
  row_flexible_flex o = false ->
  let c2 := fst (row_pass2 rec ah q o c vars) in
  style c2 = style o /\ intrinsic c2 = intrinsic o
  /\ (row_deferred o = false -> c2 = c)
  /\ (row_deferred o = true ->
      c = o /\ c2 = rec o (row_flex_alloc q o) ah true (is_row o)).
Proof.
  intros Hoc Hff.
  destruct (row_pass1_result_static rec rec_style rec_intrinsic _ _ _ Hoc)
    as [Hs Hi].
  destruct (row_deferred o) eqn:Ed.
  - assert (Ec : c = o).
    { apply (row_pass2_lays_out_child_itself rec rec_style rec_intrinsic
               ah o c Hoc).
      rewrite (row_deferred_static _ _ Hs Hi). exact Ed. }
    subst c. unfold row_deferred in Ed. unfold row_flexible_flex in Hff.
    unfold row_pass2, row_flex_alloc, is_row. destruct vars as [w mw].
    destruct (Style.width (style o)); [discriminate|].
    destruct (truthy (flex (style o))); [|discriminate].
    destruct (intrinsic_width (intrinsic o)) as [[n|v]|];
      try discriminate.
    cbn [fst]. rewrite rec_style, rec_intrinsic.
    repeat split; try reflexivity; discriminate.
  - rewrite row_pass2_not_deferred
      by (rewrite (row_deferred_static _ _ Hs Hi); exact Ed).
    cbn [fst]. repeat split; try assumption; try reflexivity;
      discriminate.
Qed.

Lemma row_estimate_static c d :
  style c = style d -> intrinsic c = intrinsic d ->
  content_width (layout c) = content_width (layout d)
  \/ row_deferred d = true ->
  row_pass1_estimate c == row_pass1_estimate d
  /\ row_flex_weight c == row_flex_weight d.
Proof.
  intros Hs Hi Hw.
  unfold row_pass1_estimate, row_flex_weight, outer_width.
  rewrite (row_deferred_static _ _ Hs Hi), Hs, Hi.
  destruct (row_deferred d).
  - split; reflexivity.
  - destruct Hw as [-> | Hw]; [split; reflexivity | discriminate].
Qed.

Lemma row_flex_alloc_Qeq q q' c :
  q == q' -> row_flex_alloc q c == row_flex_alloc q' c.
Proof.
  intros E. unfold row_flex_alloc. rewrite (truthy_Qeq _ _ E).
  destruct (truthy q'); [rewrite E|]; reflexivity.
Qed.

Lemma row_quantum_ext aw cs ds :
  total row_pass1_estimate cs == total row_pass1_estimate ds ->
  total row_flex_weight cs == total row_flex_weight ds ->
  row_quantum aw cs == row_quantum aw ds.
Proof.
  intros E F. unfold row_quantum. rewrite (Qgtb_Qeq _ _ 0 F).
  destruct (Qgtb (total row_flex_weight ds) 0); [|reflexivity].
  rewrite E, F. reflexivity.
Qed.

Lemma row_flex_children self node aw ah uw uh :
  Forall (fun c => row_flexible_flex c = false) (children node) ->
  let cs' := fst (_layout_row_children rec self node aw ah uw uh) in
  Forall2 (fun c c' =>
     style c' = style c /\ intrinsic c' = intrinsic c
     /\ (row_deferred c = true ->
         exists alloc l t,
           alloc == row_flex_alloc (row_quantum aw cs') c
           /\ c' = set_position (rec c alloc ah true (is_row c)) l t))
    (children node) cs'.
Proof.
  intros H. unfold _layout_row_children.
  assert (U1 := row_pass1_children rec ah (children node) (0, 0, 0, 0, aw)).
  assert (TF := for_each_total (row_pass1 rec ah) flex_total_of_5
                  row_flex_weight (children node) (row_pass1_flex_total ah)
                  (0, 0, 0, 0, aw)).
  assert (TM := for_each_total (row_pass1 rec ah) min_flex_of_5
                  row_min_flex (children node) (row_pass1_min_flex ah)
                  (0, 0, 0, 0, aw)).
  assert (TU := for_each_total (row_pass1 rec ah) used_of_5
                  row_pass1_estimate (children node) (row_pass1_used ah)
                  (0, 0, 0, 0, aw)).
  destruct (for_each (row_pass1 rec ah) (children node) (0, 0, 0, 0, aw))
    as [cs1 [[[[ft mf] w] mw] rw]].
  cbn [fst snd flex_total_of_5 min_flex_of_5 used_of_5] in U1, TF, TM, TU.
  assert (U1' : Forall2 (fun o c => row_pass1_result rec ah o c
                                    /\ row_flexible_flex o = false)
                  (children node) cs1).
  { apply (Forall2_Forall_l _ _ _ _ _ H U1). auto. }
  assert (H1 : Forall (fun c => row_flexible_flex c = false) cs1).
  { apply (Forall2_Forall_r _ _ _ _ U1'). intros o c [Hoc Hff].
    destruct (row_pass1_result_static rec rec_style rec_intrinsic _ _ _ Hoc)
      as [Hs Hi].
    unfold row_flexible_flex in *. rewrite Hs, Hi. exact Hff. }
  assert (Emf : mf == 0).
  { rewrite TM. rewrite total_zero; [ring|].
    revert H1. apply Forall_impl. intros c Hc.
    unfold row_min_flex, row_deferred. unfold row_flexible_flex in Hc.
    destruct (Style.width (style c)); [reflexivity|].
    destruct (truthy (flex (style c))); [|reflexivity].
    destruct (intrinsic_width (intrinsic c)) as [[n|v]|];
      cbn [andb] in *; first [reflexivity | discriminate]. }
  set (quantum := if Qgtb ft 0 then _ else _).
  assert (Eq : quantum == row_quantum aw cs1).
  { subst quantum. unfold row_quantum.
    assert (Eft : ft == total row_flex_weight cs1) by (rewrite TF; ring).
    rewrite <- (Qgtb_Qeq _ _ 0 Eft).
    destruct (Qgtb ft 0) eqn:Eg; [|reflexivity].
    pose proof (for_each_unchanged (row_overflow (true_div (rw + mf) ft))
                  cs1) as HU.
    specialize (HU (Forall_impl _
                      (fun c Hc s => row_overflow_unchanged _ c s Hc) H1)
                   (ft, mf)).
    destruct (for_each (row_overflow (true_div (rw + mf) ft)) cs1 (ft, mf))
      as [x [ft' mf']]. cbn [snd] in HU. inversion HU; subst ft' mf'.
    rewrite Eg.
    assert (Erw : rw == aw - total row_pass1_estimate cs1) by lra.
    apply true_div_Proper; [rewrite Emf, Erw; ring | exact Eft]. }
  clearbody quantum.
  assert (U2 : Forall2
                 (fun o c2 =>
                    style c2 = style o /\ intrinsic c2 = intrinsic o
                    /\ (row_deferred o = true ->
                        c2 = rec o (row_flex_alloc quantum o) ah true
                               (is_row o)))
                 (children node)
                 (fst (for_each_again (row_pass2 rec ah quantum)
                         (children node) cs1 (w, mw)))).
  { apply (for_each_again_inv (row_pass2 rec ah quantum) (fun _ => True));
      [|exact I].
    revert U1'. apply Forall2_impl. intros o c [Hoc Hff] s _.
    split; [|exact I].
    destruct (row_pass2_flex ah quantum o c s Hoc Hff)
      as (Hs & Hi & _ & Hd).
    repeat split; try assumption. intros Ed. apply Hd. exact Ed. }
  assert (R2 : Forall2
                 (fun c1 c2 =>
                    row_pass1_estimate c1 == row_pass1_estimate c2
                    /\ row_flex_weight c1 == row_flex_weight c2)
                 cs1
                 (fst (for_each_again (row_pass2 rec ah quantum)
                         (children node) cs1 (w, mw)))).
  { apply (for_each_again_rel (row_pass2 rec ah quantum) _ _ _ _ U1').
    intros o c s [Hoc Hff].
    destruct (row_pass1_result_static rec rec_style rec_intrinsic _ _ _ Hoc)
      as [Hs Hi].
    destruct (row_pass2_flex ah quantum o c s Hoc Hff)
      as (Hs2 & Hi2 & Hn & Hd).
    apply row_estimate_static; try congruence.
    destruct (row_deferred o) eqn:Ed.
    - right. rewrite (row_deferred_static _ o); [exact Ed | | ]; assumption.
    - left. rewrite Hn; reflexivity. }
  destruct (for_each_again (row_pass2 rec ah quantum) (children node) cs1
              (w, mw)) as [cs2 [w2 mw2]]. cbn [fst] in U2, R2.
  set (w3 := if uw then _ else _). clearbody w3.
  assert (U3 := row_pass3_children (text_direction (style node)) w3 cs2
                  (0, 0, 0)).
  destruct (for_each (row_pass3 (text_direction (style node)) w3) cs2
              (0, 0, 0)) as [cs3 [[o3 h3] mh3]]. cbn [fst] in U3 |- *.
  set (h4 := if uh then _ else _). clearbody h4.
  assert (U4 : Forall2 (fun c2 c' => exists l t, c' = set_position c2 l t)
                 cs2 (map (row_pass4 (align_items self) h4) cs3)).
  { apply Forall2_map_r. revert U3. apply Forall2_impl.
    intros c c3 [l ->].
    destruct (row_pass4_child (align_items self) h4 (set_content_left c l))
      as [t ->]. exists l, t. reflexivity. }
  set (cs' := map _ cs3) in *. clearbody cs'.
  assert (E14 : Forall2
                  (fun c1 c' =>
                     row_pass1_estimate c1 == row_pass1_estimate c'
                     /\ row_flex_weight c1 == row_flex_weight c') cs1 cs').
  { refine (Forall2_trans _ _ _ _ _ _ _ R2 U4).
    intros c1 c2 c' [E1 E2] [l [t ->]]. rewrite E1, E2.
    apply row_estimate_static; try reflexivity. left. reflexivity. }
  assert (Eq' : quantum == row_quantum aw cs').
  { rewrite Eq. apply row_quantum_ext; apply total_ext;
      revert E14; apply Forall2_impl; tauto. }
  refine (Forall2_trans _ _ _ _ _ _ _ U2 U4).
  intros o c2 c' (Hs & Hi & Hd) [l [t ->]].
  repeat split; try assumption.
  intros Ed. exists (row_flex_alloc quantum o), l, t. split.
  - apply row_flex_alloc_Qeq. exact Eq'.
  - rewrite (Hd Ed). reflexivity.
Qed.
End Flex.

Lemma int_le_self (x : Q) : 0 <= x -> inject_Z (int x) <= x.
Proof. intros H. rewrite (int_floor x H). apply Qfloor_le. Qed.

Lemma Qmax_cases (a b : Q) :
  (a <= b /\ Qmax a b == b) \/ (b <= a /\ Qmax a b == a).
Proof.
  destruct (Q.max_spec a b) as [[H E]|[H E]]; [left|right]; split;
    try exact E; lra.
Qed.

(** *** Rounding in the shares

    The quantum and every share are rounded: a share can exceed the
    exact one by a factor [(1 + 2^-53)^2]. Below [2^51] this is less
    than 1, and the sizes of the boxes are whole numbers. *)

Lemma binary64_le_scaled (x : Q) :
  0 <= x -> binary64 x <= (1 + unit_roundoff) * x.
Proof. intros H. destruct (binary64_error x H) as [_ B]. lra. Qed.

Lemma binary64_pos_pos (x : Q) : 0 < x -> 0 < binary64 x.
Proof.
  intros H. destruct (binary64_error x (Qlt_le_weak _ _ H)) as [B _].
  unfold unit_roundoff in B. lra.
Qed.

Lemma flex_share_bound (q f m n alloc : Q) :
  0 <= f -> 0 <= m -> 0 <= n ->
  alloc == (if truthy q then float_mul q f else m + n) ->
  inject_Z (int (Qmax 0 (alloc - m - n)))
  <= (1 + unit_roundoff) * (Qmax 0 q * f).
Proof.
  intros Hf Hm Hn Ea.
  set (x := Qmax 0 _).
  assert (Hx : 0 <= x) by apply Q.le_max_l.
  apply Qle_trans with x; [apply int_le_self; exact Hx|].
  assert (Hq : 0 <= Qmax 0 q * f).
  { apply Qmult_le_0_compat; [apply Q.le_max_l | exact Hf]. }
  assert (Hg : 0 <= (1 + unit_roundoff) * (Qmax 0 q * f)).
  { apply Qmult_le_0_compat; [unfold unit_roundoff; lra | exact Hq]. }
  subst x.
  destruct (Qmax_cases 0 (alloc - m - n)) as [[H1 E1]|[H1 E1]];
    rewrite E1; [|exact Hg].
  destruct (truthy q) eqn:Et; [|lra].
  unfold float_mul in Ea.
  destruct (Qlt_le_dec q 0) as [Neg|Pos].
  - assert (Hp : q * f <= 0) by nra.
    pose proof (binary64_nonpos _ Hp). lra.
  - assert (Hp : 0 <= q * f) by (apply Qmult_le_0_compat; assumption).
    pose proof (binary64_le_scaled _ Hp) as B.
    assert (M : Qmax 0 q == q) by (apply Q.max_r; exact Pos).
    rewrite M. lra.
Qed.

Lemma flex_quantum_bound (R F : Q) :
  Qmax 0 (if Qgtb F 0 then true_div R F else 0) * F
  <= (1 + unit_roundoff) * Qmax 0 R.
Proof.
  assert (H0 : 0 <= (1 + unit_roundoff) * Qmax 0 R).
  { apply Qmult_le_0_compat; [unfold unit_roundoff; lra | apply Q.le_max_l]. }
  destruct (Qgtb F 0) eqn:Eg.
  - apply Qgtb_true in Eg. unfold true_div.
    destruct (Qlt_le_dec 0 R) as [Pos|Neg].
    + assert (Hd : 0 <= R / F).
      { apply Qle_shift_div_l; [exact Eg | lra]. }
      pose proof (binary64_le_scaled _ Hd) as B.
      pose proof (binary64_nonneg _ Hd) as B0.
      assert (M : Qmax 0 (binary64 (R / F)) == binary64 (R / F))
        by (apply Q.max_r; exact B0).
      assert (M' : Qmax 0 R == R) by (apply Q.max_r; lra).
      rewrite M, M'.
      assert (X : R / F * F == R) by (field; lra).
      apply Qle_trans with ((1 + unit_roundoff) * (R / F) * F).
      * apply Qmult_le_compat_r; [exact B | lra].
      * rewrite <- X at 2. lra.
    + assert (Hd : R / F <= 0).
      { apply Qle_shift_div_r; [exact Eg | lra]. }
      pose proof (binary64_nonpos _ Hd) as B.
      assert (M : Qmax 0 (binary64 (R / F)) == 0) by (apply Q.max_l; exact B).
      rewrite M. lra.
  - assert (M : Qmax 0 0 == 0) by (apply Q.max_l; lra). rewrite M. lra.
Qed.

(** Whole sizes that fit up to the rounding fit. *)
Lemma whole_sizes_fit (T E A : Q) :
  (exists z, T == inject_Z z) -> (exists z, E == inject_Z z) ->
  (exists z, A == inject_Z z) ->
  A - E < 2 ^ 51 ->
  T <= E + (1 + unit_roundoff) * ((1 + unit_roundoff) * Qmax 0 (A - E)) ->
  T <= Qmax A E.
Proof.
  intros [t Et] [e Ee] [a Ea] Hb H.
  change (2 ^ 51) with 2251799813685248 in Hb. unfold unit_roundoff in H.
  destruct (Qmax_cases 0 (A - E)) as [[H1 E1]|[H1 E1]]; rewrite E1 in H.
  - assert (L : T < A + 1) by lra.
    rewrite Et, Ea in L. change 1 with (inject_Z 1) in L.
    rewrite <- inject_Z_plus, <- Zlt_Qlt in L.
    assert (L' : (t <= a)%Z) by lia.
    rewrite Zle_Qle, <- Et, <- Ea in L'.
    apply Qle_trans with A; [exact L' | apply Q.le_max_l].
  - apply Qle_trans with E; [lra | apply Q.le_max_r].
Qed.

Lemma row_pass1_estimate_Z c : exists z, row_pass1_estimate c == inject_Z z.
Proof.
  unfold row_pass1_estimate. destruct (row_deferred c);
    [|apply outer_width_Z].
  destruct (intrinsic_width (intrinsic c)) as [[n|v]|]; eexists;
    change 0 with (inject_Z 0); rewrite <- !inject_Z_plus; reflexivity.
Qed.

(** X13. How [_layout_row_children] shares the width among flex
    children, whatever the callee does with its arguments (as long as it
    leaves the style and the intrinsic size alone): when the available
    width is a whole number, no child of the node combines a flex weight
    with a flexible intrinsic width, and the flex weights of the children
    that pass 1 defers are whole numbers greater than 0, with everything
    below [2^53] so that the sums of the code are exact. Every child that
    pass 1 defers is handed to the callee once, by pass 2, using all the
    width it is allocated: the float [quantum * flex] when the quantum is
    not 0, and its own horizontal margins otherwise. The quantum is the
    float quotient of the available width less what pass 1 counted (the
    outer widths of the children it laid out and the horizontal margins
    of the deferred ones) by the sum of the flex weights of the deferred
    children, and 0 when that sum is not positive. *)
Theorem row_flex_allocation
    (rec : Node -> Q -> Q -> bool -> bool -> Node)
    (rec_style : forall c a b u v, style (rec c a b u v) = style c)
    (rec_intrinsic :
       forall c a b u v, intrinsic (rec c a b u v) = intrinsic c)
    (self : Pack) (node : Node) (available_width : Z)
    (available_height : Q) (use_all_width use_all_height : bool) :
  Forall (fun c => row_flexible_flex c = false /\ row_whole_flex c)
    (children node) ->
  total row_flex_weight (children node) < 2 ^ 53 ->
  let node_children :=
    fst (_layout_row_children rec self node (inject_Z available_width)
           available_height use_all_width use_all_height) in
  Qabs (inject_Z available_width - total row_pass1_estimate node_children)
  < 2 ^ 53 ->
  Forall2 (fun c c' =>
     row_deferred c = true ->
     exists alloc left top,
       alloc
       == row_flex_alloc
            (row_quantum (inject_Z available_width) node_children) c
       /\ c' = set_position
                 (rec c alloc available_height true (is_row c))
                 left top)
    (children node) node_children.
Proof.
  intros H _ node_children _.
  assert (H0 : Forall (fun c => row_flexible_flex c = false) (children node)).
  { revert H. apply Forall_impl. intros c [Hc _]. exact Hc. }
  pose proof (row_flex_children rec rec_style rec_intrinsic self node
                (inject_Z available_width) available_height use_all_width
                use_all_height H0) as HF.
  cbv zeta in HF. fold node_children in HF. revert HF. apply Forall2_impl.
  intros c c' (_ & _ & Hd). exact Hd.
Qed.

(** X14. Flex children do not make a row overflow. When the available
    width is a whole number, no child of the node combines a flex weight
    with a flexible intrinsic width, every child that pass 1 defers is
    childless, has no intrinsic width, a whole flex weight greater than 0
    and no negative horizontal margin, the flex weights add up to less
    than [2^53] and what pass 1 leaves of the available width is less
    than [2^51], then the outer widths of the children add up to at most
    the available width, or to what pass 1 counted if that was already
    more; and a row that uses all the width and whose pass 1 count fits
    is exactly as wide as the available width. *)
Theorem row_flex_never_overflows (self : Pack) (node : Node)
    (available_width : Z) (available_height : Q)
    (use_all_width use_all_height : bool) :
  Forall row_plain_flex (children node) ->
  total row_flex_weight (children node) < 2 ^ 53 ->
  inject_Z available_width
  - total row_pass1_estimate
      (fst (_layout_row_children _layout_node self node
              (inject_Z available_width) available_height use_all_width
              use_all_height))
  < 2 ^ 51 ->
  let '(node_children, (_, width, _, _)) :=
    _layout_row_children _layout_node self node (inject_Z available_width)
      available_height use_all_width use_all_height in
  total outer_width node_children
  <= Qmax (inject_Z available_width)
       (total row_pass1_estimate node_children)
  /\ (use_all_width = true ->
      total row_pass1_estimate node_children <= inject_Z available_width ->
      width == inject_Z available_width).
Proof.
  intros H _ Hsmall.
  assert (H0 : Forall (fun c => row_flexible_flex c = false) (children node)).
  { revert H. apply Forall_impl. intros c [Hc _]. exact Hc. }
  pose proof (row_flex_children _layout_node _layout_node_style
                _layout_node_intrinsic self node (inject_Z available_width)
                available_height use_all_width use_all_height H0) as HF.
  pose proof (row_sizes _layout_node _layout_node_style
                _layout_node_intrinsic self node (inject_Z available_width)
                available_height use_all_width use_all_height) as HS.
  destruct (_layout_row_children _ _ _ _ _ _ _) as [cs' [[[mw w] mh] h]].
  cbv zeta in HF. cbn [fst] in HF, Hsmall. destruct HS as (Ew & _).
  set (q := row_quantum (inject_Z available_width) cs') in *.
  assert (Hbound : total outer_width cs'
                   <= total row_pass1_estimate cs'
                      + (1 + unit_roundoff)
                        * (Qmax 0 q * total row_flex_weight cs')).
  { setoid_replace ((1 + unit_roundoff)
                    * (Qmax 0 q * total row_flex_weight cs'))
      with ((1 + unit_roundoff) * Qmax 0 q * total row_flex_weight cs')
      by ring.
    rewrite <- total_plus_scaled. apply total_le.
    apply (Forall2_Forall_l _ _
             (fun _ c' =>
                outer_width c'
                <= row_pass1_estimate c'
                   + (1 + unit_roundoff) * Qmax 0 q * row_flex_weight c')
             _ _ H) in HF.
    - apply (Forall2_Forall_r _ _ _ _ HF). auto.
    - intros c c' [Hff Hc] (Hs & Hi & Hd).
      unfold row_pass1_estimate, row_flex_weight, outer_width.
      rewrite (row_deferred_static _ _ Hs Hi), Hs, Hi.
      destruct (row_deferred c) eqn:Ed; [|lra].
      destruct (Hc eq_refl) as (Hk & [k [Hf Hk0]] & Hl & Hr).
      destruct (Hd eq_refl) as (alloc & l & t & Ea & ->).
      unfold row_deferred in Ed. unfold row_flexible_flex in Hff.
      destruct (Style.width (style c)) eqn:Ew'; [discriminate|].
      destruct (truthy (flex (style c))); [|discriminate].
      destruct (intrinsic_width (intrinsic c)) as [[n|v]|] eqn:Ei;
        try discriminate.
      cbn [set_position set_content_top set_content_left set_box layout
           content_width].
      rewrite (_layout_node_leaf_width c alloc available_height true
                 (is_row c) Hk Ew' Ei).
      rewrite (Zle_Qle 0) in Hl, Hr. change (inject_Z 0) with 0 in Hl, Hr.
      assert (Hf0 : 0 <= flex (style c)).
      { rewrite Hf. change 0 with (inject_Z 0). rewrite <- Zle_Qle. lia. }
      pose proof (flex_share_bound q (flex (style c)) _ _ alloc Hf0 Hl Hr Ea)
        as B.
      lra. }
  assert (Hq : Qmax 0 q * total row_flex_weight cs'
               <= (1 + unit_roundoff)
                  * Qmax 0 (inject_Z available_width
                            - total row_pass1_estimate cs')).
  { subst q. unfold row_quantum. apply flex_quantum_bound. }
  assert (Hfit : total outer_width cs'
                 <= Qmax (inject_Z available_width)
                      (total row_pass1_estimate cs')).
  { apply whole_sizes_fit.
    - apply total_Z, outer_width_Z.
    - apply total_Z, row_pass1_estimate_Z.
    - exists available_width. reflexivity.
    - exact Hsmall.
    - eapply Qle_trans; [exact Hbound|].
      apply Qplus_le_r. apply Qmult_le_l; [unfold unit_roundoff; lra|].
      exact Hq. }
  split; [exact Hfit|].
  intros -> HE. rewrite Ew.
  pose proof (Q.max_l (inject_Z available_width) _ HE) as M.
  apply Q.max_r. lra.
Qed.

Section ColumnFlex.
Variable rec : Node -> Q -> Q -> bool -> bool -> Node.
Hypothesis rec_style : forall c a b u v, style (rec c a b u v) = style c.
Hypothesis rec_intrinsic :
  forall c a b u v, intrinsic (rec c a b u v) = intrinsic c.

Lemma column_pass1_flex_total aw c vars :
  flex_total_of_5 (snd (column_pass1 rec aw c vars))
  == flex_total_of_5 vars
     + column_flex_weight (fst (column_pass1 rec aw c vars)).
Proof.
  destruct vars as [[[[ft mf] w] mw] rw].
  unfold column_pass1, column_flex_weight, column_deferred, flex_total_of_5.
  destruct (Style.height (style c)) eqn:Ew.
  { cbn [fst snd]. rewrite rec_style, Ew. ring. }
  destruct (intrinsic_height (intrinsic c)) as [[n|v]|] eqn:Ei;
    destruct (truthy (flex (style c))) eqn:Ef; cbn [fst snd];
    rewrite ?rec_style, ?rec_intrinsic, ?Ew, ?Ei, ?Ef; cbn [andb];
    ring.
Qed.

Lemma column_pass1_min_flex aw c vars :
  min_flex_of_5 (snd (column_pass1 rec aw c vars))
  == min_flex_of_5 vars + column_min_flex (fst (column_pass1 rec aw c vars)).
Proof.
  destruct vars as [[[[ft mf] w] mw] rw].
  unfold column_pass1, column_min_flex, column_deferred, min_flex_of_5.
  destruct (Style.height (style c)) eqn:Ew.
  { cbn [fst snd]. rewrite rec_style, Ew. ring. }
  destruct (intrinsic_height (intrinsic c)) as [[n|v]|] eqn:Ei;
    destruct (truthy (flex (style c))) eqn:Ef; cbn [fst snd];
    rewrite ?rec_style, ?rec_intrinsic, ?Ew, ?Ei, ?Ef; cbn [andb];
    ring.
Qed.

Lemma column_pass1_used aw c vars :
  used_of_5 (snd (column_pass1 rec aw c vars))
  == used_of_5 vars + column_pass1_estimate (fst (column_pass1 rec aw c vars)).
Proof.
  destruct vars as [[[[ft mf] w] mw] rw].
  unfold column_pass1, column_pass1_estimate, column_deferred, outer_height,
    used_of_5.
  destruct (Style.height (style c)) eqn:Ew.
  { cbn [fst snd]. rewrite rec_style, Ew. ring. }
  destruct (intrinsic_height (intrinsic c)) as [[n|v]|] eqn:Ei;
    destruct (truthy (flex (style c))) eqn:Ef; cbn [fst snd];
    rewrite ?rec_style, ?rec_intrinsic, ?Ew, ?Ei, ?Ef; cbn [andb];
    ring.
Qed.

Lemma column_overflow_unchanged q c vars :
  column_flexible_flex c = false -> snd (column_overflow q c vars) = vars.
Proof.
  unfold column_flexible_flex, column_overflow. destruct vars as [ft mf].
  destruct (truthy (flex (style c))); [|reflexivity].
  destruct (intrinsic_height (intrinsic c)) as [[n|v]|];
    cbn [andb]; first [reflexivity | discriminate].
Qed.

(** Pass 2 on a child: what it reads of the child stays, and a deferred
    child without intrinsic height gets [column_flex_alloc]. *)
Lemma column_pass2_flex aw q o c vars :
  column_pass1_result rec aw o c ->
  column_flexible_flex o = false ->
  let c2 := fst (column_pass2 rec aw q o c vars) in
  style c2 = style o /\ intrinsic c2 = intrinsic o
  /\ (column_deferred o = false -> c2 = c)
  /\ (column_deferred o = true ->
      c = o /\ c2 = rec o aw (column_flex_alloc q o) (is_column o) true).
Proof.
  intros Hoc Hff.
  destruct (column_pass1_result_static rec rec_style rec_intrinsic _ _ _ Hoc)
    as [Hs Hi].
  destruct (column_deferred o) eqn:Ed.
  - assert (Ec : c = o).
    { apply (column_pass2_lays_out_child_itself rec rec_style rec_intrinsic
               aw o c Hoc).
      rewrite (column_deferred_static _ _ Hs Hi). exact Ed. }
    subst c. unfold column_deferred in Ed. unfold column_flexible_flex in Hff.
    unfold column_pass2, column_flex_alloc, is_column. destruct vars as [w mw].
    destruct (Style.height (style o)); [discriminate|].
    destruct (truthy (flex (style o))); [|discriminate].
    destruct (intrinsic_height (intrinsic o)) as [[n|v]|];
      try discriminate.
    cbn [fst]. rewrite rec_style, rec_intrinsic.
    repeat split; try reflexivity; discriminate.
  - rewrite column_pass2_not_deferred
      by (rewrite (column_deferred_static _ _ Hs Hi); exact Ed).
    cbn [fst]. repeat split; try assumption; try reflexivity;
      discriminate.
Qed.

Lemma column_estimate_static c d :
  style c = style d -> intrinsic c = intrinsic d ->
  content_height (layout c) = content_height (layout d)
  \/ column_deferred d = true ->
  column_pass1_estimate c == column_pass1_estimate d
  /\ column_flex_weight c == column_flex_weight d.
Proof.
  intros Hs Hi Hw.
  unfold column_pass1_estimate, column_flex_weight, outer_height.
  rewrite (column_deferred_static _ _ Hs Hi), Hs, Hi.
  destruct (column_deferred d).
  - split; reflexivity.
  - destruct Hw as [-> | Hw]; [split; reflexivity | discriminate].
Qed.

Lemma column_flex_alloc_Qeq q q' c :
  q == q' -> column_flex_alloc q c == column_flex_alloc q' c.
Proof.
  intros E. unfold column_flex_alloc. rewrite (truthy_Qeq _ _ E).
  destruct (truthy q'); [rewrite E|]; reflexivity.
Qed.

Lemma column_quantum_ext ah cs ds :
  total column_pass1_estimate cs == total column_pass1_estimate ds ->
  total column_flex_weight cs == total column_flex_weight ds ->
  column_quantum ah cs == column_quantum ah ds.
Proof.
  intros E F. unfold column_quantum. rewrite (Qgtb_Qeq _ _ 0 F).
  destruct (Qgtb (total column_flex_weight ds) 0); [|reflexivity].
  rewrite E, F. reflexivity.
Qed.

Lemma column_flex_children self node aw ah uw uh :
  Forall (fun c => column_flexible_flex c = false) (children node) ->
  let cs' := fst (_layout_column_children rec self node aw ah uw uh) in
  Forall2 (fun c c' =>
     style c' = style c /\ intrinsic c' = intrinsic c
     /\ (column_deferred c = true ->
         exists alloc l t,
           alloc == column_flex_alloc (column_quantum ah cs') c
           /\ c' = set_position (rec c aw alloc (is_column c) true) l t))
    (children node) cs'.
Proof.
  intros H. unfold _layout_column_children.
  assert (U1 := column_pass1_children rec aw (children node) (0, 0, 0, 0, ah)).
  assert (TF := for_each_total (column_pass1 rec aw) flex_total_of_5
                  column_flex_weight (children node)
                  (column_pass1_flex_total aw) (0, 0, 0, 0, ah)).
  assert (TM := for_each_total (column_pass1 rec aw) min_flex_of_5
                  column_min_flex (children node) (column_pass1_min_flex aw)
                  (0, 0, 0, 0, ah)).
  assert (TU := for_each_total (column_pass1 rec aw) used_of_5
                  column_pass1_estimate (children node) (column_pass1_used aw)
                  (0, 0, 0, 0, ah)).
  destruct (for_each (column_pass1 rec aw) (children node) (0, 0, 0, 0, ah))
    as [cs1 [[[[ft mf] w] mw] rw]].
  cbn [fst snd flex_total_of_5 min_flex_of_5 used_of_5] in U1, TF, TM, TU.
  assert (U1' : Forall2 (fun o c => column_pass1_result rec aw o c
                                    /\ column_flexible_flex o = false)
                  (children node) cs1).
  { apply (Forall2_Forall_l _ _ _ _ _ H U1). auto. }
  assert (H1 : Forall (fun c => column_flexible_flex c = false) cs1).
  { apply (Forall2_Forall_r _ _ _ _ U1'). intros o c [Hoc Hff].
    destruct (column_pass1_result_static rec rec_style rec_intrinsic _ _ _ Hoc)
      as [Hs Hi].
    unfold column_flexible_flex in *. rewrite Hs, Hi. exact Hff. }
  assert (Emf : mf == 0).
  { rewrite TM. rewrite total_zero; [ring|].
    revert H1. apply Forall_impl. intros c Hc.
    unfold column_min_flex, column_deferred. unfold column_flexible_flex in Hc.
    destruct (Style.height (style c)); [reflexivity|].
    destruct (truthy (flex (style c))); [|reflexivity].
    destruct (intrinsic_height (intrinsic c)) as [[n|v]|];
      cbn [andb] in *; first [reflexivity | discriminate]. }
  set (quantum := if Qgtb ft 0 then _ else _).
  assert (Eq : quantum == column_quantum ah cs1).
  { subst quantum. unfold column_quantum.
    assert (Eft : ft == total column_flex_weight cs1) by (rewrite TF; ring).
    rewrite <- (Qgtb_Qeq _ _ 0 Eft).
    destruct (Qgtb ft 0) eqn:Eg; [|reflexivity].
    pose proof (for_each_unchanged (column_overflow (true_div (rw + mf) ft))
                  cs1) as HU.
    specialize (HU (Forall_impl _
                      (fun c Hc s => column_overflow_unchanged _ c s Hc) H1)
                   (ft, mf)).
    destruct (for_each (column_overflow (true_div (rw + mf) ft)) cs1
                (ft, mf))
      as [x [ft' mf']]. cbn [snd] in HU. inversion HU; subst ft' mf'.
    rewrite Eg.
    assert (Erw : rw == ah - total column_pass1_estimate cs1) by lra.
    apply true_div_Proper; [rewrite Emf, Erw; ring | exact Eft]. }
  clearbody quantum.
  assert (U2 : Forall2
                 (fun o c2 =>
                    style c2 = style o /\ intrinsic c2 = intrinsic o
                    /\ (column_deferred o = true ->
                        c2 = rec o aw (column_flex_alloc quantum o)
                               (is_column o) true))
                 (children node)
                 (fst (for_each_again (column_pass2 rec aw quantum)
                         (children node) cs1 (w, mw)))).
  { apply (for_each_again_inv (column_pass2 rec aw quantum) (fun _ => True));
      [|exact I].
    revert U1'. apply Forall2_impl. intros o c [Hoc Hff] s _.
    split; [|exact I].
    destruct (column_pass2_flex aw quantum o c s Hoc Hff)
      as (Hs & Hi & _ & Hd).
    repeat split; try assumption. intros Ed. apply Hd. exact Ed. }
  assert (R2 : Forall2
                 (fun c1 c2 =>
                    column_pass1_estimate c1 == column_pass1_estimate c2
                    /\ column_flex_weight c1 == column_flex_weight c2)
                 cs1
                 (fst (for_each_again (column_pass2 rec aw quantum)
                         (children node) cs1 (w, mw)))).
  { apply (for_each_again_rel (column_pass2 rec aw quantum) _ _ _ _ U1').
    intros o c s [Hoc Hff].
    destruct (column_pass1_result_static rec rec_style rec_intrinsic _ _ _ Hoc)
      as [Hs Hi].
    destruct (column_pass2_flex aw quantum o c s Hoc Hff)
      as (Hs2 & Hi2 & Hn & Hd).
    apply column_estimate_static; try congruence.
    destruct (column_deferred o) eqn:Ed.
    - right. rewrite (column_deferred_static _ o); [exact Ed | | ]; assumption.
    - left. rewrite Hn; reflexivity. }
  destruct (for_each_again (column_pass2 rec aw quantum) (children node) cs1
              (w, mw)) as [cs2 [w2 mw2]]. cbn [fst] in U2, R2.
  set (h3 := if uh then _ else _). clearbody h3.
  assert (U3 := column_pass3_children cs2 (0, 0, 0)).
  destruct (for_each column_pass3 cs2 (0, 0, 0)) as [cs3 [[o3 w3] mw3]].
  cbn [fst] in U3 |- *.
  set (w4 := if uw then _ else _). clearbody w4.
  assert (U4 : Forall2 (fun c2 c' => exists l t, c' = set_position c2 l t)
                 cs2 (map (column_pass4 self w4) cs3)).
  { apply Forall2_map_r. revert U3. apply Forall2_impl.
    intros c c3 [t ->].
    destruct (column_pass4_child self w4 (set_content_top c t)) as [l ->].
    exists l, t. reflexivity. }
  set (cs' := map _ cs3) in *. clearbody cs'.
  assert (E14 : Forall2
                  (fun c1 c' =>
                     column_pass1_estimate c1 == column_pass1_estimate c'
                     /\ column_flex_weight c1 == column_flex_weight c')
                  cs1 cs').
  { refine (Forall2_trans _ _ _ _ _ _ _ R2 U4).
    intros c1 c2 c' [E1 E2] [l [t ->]]. rewrite E1, E2.
    apply column_estimate_static; try reflexivity. left. reflexivity. }
  assert (Eq' : quantum == column_quantum ah cs').
  { rewrite Eq. apply column_quantum_ext; apply total_ext;
      revert E14; apply Forall2_impl; tauto. }
  refine (Forall2_trans _ _ _ _ _ _ _ U2 U4).
  intros o c2 c' (Hs & Hi & Hd) [l [t ->]].
  repeat split; try assumption.
  intros Ed. exists (column_flex_alloc quantum o), l, t. split.
  - apply column_flex_alloc_Qeq. exact Eq'.
  - rewrite (Hd Ed). reflexivity.
Qed.
End ColumnFlex.

Lemma column_pass1_estimate_Z c :
  exists z, column_pass1_estimate c == inject_Z z.
Proof.
  unfold column_pass1_estimate. destruct (column_deferred c);
    [|apply outer_height_Z].
  destruct (intrinsic_height (intrinsic c)) as [[n|v]|]; eexists;
    change 0 with (inject_Z 0); rewrite <- !inject_Z_plus; reflexivity.
Qed.

(** X15. How [_layout_column_children] shares the height among flex
    children, whatever the callee does with its arguments (as long as it
    leaves the style and the intrinsic size alone): when the available
    height is a whole number, no child of the node combines a flex weight
    with a flexible intrinsic height, and the flex weights of the
    children that pass 1 defers are whole numbers greater than 0, with
    everything below [2^53] so that the sums of the code are exact. Every
    child that pass 1 defers is handed to the callee once, by pass 2,
    using all the height it is allocated: the float [quantum * flex] when
    the quantum is not 0, and its own vertical margins otherwise. The
    quantum is the float quotient of the available height less what pass
    1 counted (the outer heights of the children it laid out and the
    vertical margins of the deferred ones) by the sum of the flex weights
    of the deferred children, and 0 when that sum is not positive. *)
Theorem column_flex_allocation
    (rec : Node -> Q -> Q -> bool -> bool -> Node)
    (rec_style : forall c a b u v, style (rec c a b u v) = style c)
    (rec_intrinsic :
       forall c a b u v, intrinsic (rec c a b u v) = intrinsic c)
    (self : Pack) (node : Node) (available_width : Q)
    (available_height : Z) (use_all_width use_all_height : bool) :
  Forall (fun c => column_flexible_flex c = false /\ column_whole_flex c)
    (children node) ->
  total column_flex_weight (children node) < 2 ^ 53 ->
  let node_children :=
    fst (_layout_column_children rec self node available_width
           (inject_Z available_height) use_all_width use_all_height) in
  Qabs (inject_Z available_height
        - total column_pass1_estimate node_children)
  < 2 ^ 53 ->
  Forall2 (fun c c' =>
     column_deferred c = true ->
     exists alloc left top,
       alloc
       == column_flex_alloc
            (column_quantum (inject_Z available_height) node_children) c
       /\ c' = set_position
                 (rec c available_width alloc (is_column c) true)
                 left top)
    (children node) node_children.
Proof.
  intros H _ node_children _.
  assert (H0 : Forall (fun c => column_flexible_flex c = false)
                 (children node)).
  { revert H. apply Forall_impl. intros c [Hc _]. exact Hc. }
  pose proof (column_flex_children rec rec_style rec_intrinsic self node
                available_width (inject_Z available_height) use_all_width
                use_all_height H0) as HF.
  cbv zeta in HF. fold node_children in HF. revert HF. apply Forall2_impl.
  intros c c' (_ & _ & Hd). exact Hd.
Qed.

(** X16. Flex children do not make a column overflow. When the available
    height is a whole number, no child of the node combines a flex weight
    with a flexible intrinsic height, every child that pass 1 defers is
    childless, has no intrinsic height, a whole flex weight greater than
    0 and no negative vertical margin, the flex weights add up to less
    than [2^53] and what pass 1 leaves of the available height is less
    than [2^51], then the outer heights of the children add up to at most
    the available height, or to what pass 1 counted if that was already
    more; and a column that uses all the height and whose pass 1 count
    fits is exactly as high as the available height. *)
Theorem column_flex_never_overflows (self : Pack) (node : Node)
    (available_width : Q) (available_height : Z)
    (use_all_width use_all_height : bool) :
  Forall column_plain_flex (children node) ->
  total column_flex_weight (children node) < 2 ^ 53 ->
  inject_Z available_height
  - total column_pass1_estimate
      (fst (_layout_column_children _layout_node self node available_width
              (inject_Z available_height) use_all_width use_all_height))
  < 2 ^ 51 ->
  let '(node_children, (_, _, _, height)) :=
    _layout_column_children _layout_node self node available_width
      (inject_Z available_height) use_all_width use_all_height in
  total outer_height node_children
  <= Qmax (inject_Z available_height)
       (total column_pass1_estimate node_children)
  /\ (use_all_height = true ->
      total column_pass1_estimate node_children
      <= inject_Z available_height ->
      height == inject_Z available_height).
Proof.
  intros H _ Hsmall.
  assert (H0 : Forall (fun c => column_flexible_flex c = false)
                 (children node)).
  { revert H. apply Forall_impl. intros c [Hc _]. exact Hc. }
  pose proof (column_flex_children _layout_node _layout_node_style
                _layout_node_intrinsic self node available_width
                (inject_Z available_height) use_all_width use_all_height H0)
    as HF.
  pose proof (column_sizes _layout_node _layout_node_style
                _layout_node_intrinsic self node available_width
                (inject_Z available_height) use_all_width use_all_height)
    as HS.
  destruct (_layout_column_children _ _ _ _ _ _ _)
    as [cs' [[[mw w] mh] h]].
  cbv zeta in HF. cbn [fst] in HF, Hsmall. destruct HS as (Eh & _).
  set (q := column_quantum (inject_Z available_height) cs') in *.
  assert (Hbound : total outer_height cs'
                   <= total column_pass1_estimate cs'
                      + (1 + unit_roundoff)
                        * (Qmax 0 q * total column_flex_weight cs')).
  { setoid_replace ((1 + unit_roundoff)
                    * (Qmax 0 q * total column_flex_weight cs'))
      with ((1 + unit_roundoff) * Qmax 0 q * total column_flex_weight cs')
      by ring.
    rewrite <- total_plus_scaled. apply total_le.
    apply (Forall2_Forall_l _ _
             (fun _ c' =>
                outer_height c'
                <= column_pass1_estimate c'
                   + (1 + unit_roundoff) * Qmax 0 q * column_flex_weight c')
             _ _ H) in HF.
    - apply (Forall2_Forall_r _ _ _ _ HF). auto.
    - intros c c' [Hff Hc] (Hs & Hi & Hd).
      unfold column_pass1_estimate, column_flex_weight, outer_height.
      rewrite (column_deferred_static _ _ Hs Hi), Hs, Hi.
      destruct (column_deferred c) eqn:Ed; [|lra].
      destruct (Hc eq_refl) as (Hk & [k [Hf Hk0]] & Hl & Hr).
      destruct (Hd eq_refl) as (alloc & l & t & Ea & ->).
      unfold column_deferred in Ed. unfold column_flexible_flex in Hff.
      destruct (Style.height (style c)) eqn:Eh'; [discriminate|].
      destruct (truthy (flex (style c))); [|discriminate].
      destruct (intrinsic_height (intrinsic c)) as [[n|v]|] eqn:Ei;
        try discriminate.
      cbn [set_position set_content_top set_content_left set_box layout
           content_height].
      rewrite (_layout_node_leaf_height c available_width alloc
                 (is_column c) true Hk Eh' Ei).
      rewrite (Zle_Qle 0) in Hl, Hr. change (inject_Z 0) with 0 in Hl, Hr.
      assert (Hf0 : 0 <= flex (style c)).
      { rewrite Hf. change 0 with (inject_Z 0). rewrite <- Zle_Qle. lia. }
      pose proof (flex_share_bound q (flex (style c)) _ _ alloc Hf0 Hl Hr Ea)
        as B.
      lra. }
  assert (Hq : Qmax 0 q * total column_flex_weight cs'
               <= (1 + unit_roundoff)
                  * Qmax 0 (inject_Z available_height
                            - total column_pass1_estimate cs')).
  { subst q. unfold column_quantum. apply flex_quantum_bound. }
  assert (Hfit : total outer_height cs'
                 <= Qmax (inject_Z available_height)
                      (total column_pass1_estimate cs')).
  { apply whole_sizes_fit.
    - apply total_Z, outer_height_Z.
    - apply total_Z, column_pass1_estimate_Z.
    - exists available_height. reflexivity.
    - exact Hsmall.
    - eapply Qle_trans; [exact Hbound|].
      apply Qplus_le_r. apply Qmult_le_l; [unfold unit_roundoff; lra|].
      exact Hq. }
  split; [exact Hfit|].
  intros -> HE. rewrite Eh.
  pose proof (Q.max_l (inject_Z available_height) _ HE) as M.
  apply Q.max_r. lra.
Qed.

(** ** Deprecated names and the [alignment] alias *)

Lemma dict_get_In (d : list (string * string)) (key v : string) :
  dict_get d key = Some v -> In (key, v) d.
Proof.
  induction d as [|[k w] d IH]; simpl; [discriminate|].
  destruct (String.eqb k key) eqn:E.
  - apply String.eqb_eq in E. intros H. inversion H; subst. left.
    reflexivity.
  - intros H. right. apply IH. exact H.
Qed.

Lemma _update_property_name_cases (name : string) :
  _update_property_name name = (name, [])
  /\ dict_get DEPRECATED_PROPERTIES name = None
  \/ exists new_name,
       In (name, new_name) DEPRECATED_PROPERTIES
       /\ _update_property_name name
          = (new_name, [deprecated name new_name]).
Proof.
  unfold _update_property_name.
  destruct (dict_get DEPRECATED_PROPERTIES name) as [v|] eqn:E.
  - right. exists v. pose proof (dict_get_In _ _ _ E) as HIn.
    split; [exact HIn|].
    simpl in HIn.
    destruct HIn as [H|[H|[H|[H|[H|[]]]]]]; inversion H; subst;
      reflexivity.
  - left. split; reflexivity.
Qed.

(** X17. [_update_property_name] leads to a name that is no key of
    [DEPRECATED_PROPERTIES] and that it returns unchanged and without
    warning when passed again; it warns exactly when the name changes,
    and the warning names the old and the new name. The deprecated name
    [alignment] is not in that table: [_update_property_name] returns it
    as it is, without warning, and leaves the warning to the accessors.
    The name that the index notation reaches after replacing hyphens is
    no key of the table either; the access warns about [alignment], and
    it is free of warnings exactly when the name without hyphens is
    neither a key of the table nor [alignment]. *)
Theorem update_property_name_settles (name : string) :
  let '(new_name, warnings) := _update_property_name name in
  dict_get DEPRECATED_PROPERTIES new_name = None
  /\ _update_property_name new_name = (new_name, [])
  /\ (warnings = [] <-> new_name = name)
  /\ (warnings = [] \/ warnings = [deprecated name new_name])
  /\ _update_property_name ALIGNMENT = (ALIGNMENT, [])
  /\ (let '(index_name, index_warnings) := index_property_name name in
      dict_get DEPRECATED_PROPERTIES index_name = None
      /\ (index_name = ALIGNMENT ->
          index_warnings = [deprecated ALIGNMENT ALIGN_ITEMS])
      /\ (index_warnings = [] <->
          index_name = replace_hyphens name /\ index_name <> ALIGNMENT)).
Proof.
  assert (H : forall n,
             let '(new_name, warnings) := _update_property_name n in
             dict_get DEPRECATED_PROPERTIES new_name = None
             /\ _update_property_name new_name = (new_name, [])
             /\ (warnings = [] <-> new_name = n)
             /\ (warnings = [] \/ warnings = [deprecated n new_name])).
  { intros n.
    destruct (_update_property_name_cases n)
      as [[-> E]|[v [HIn ->]]].
    - repeat split; auto. unfold _update_property_name. rewrite E.
      reflexivity.
    - simpl in HIn.
      destruct HIn as [H|[H|[H|[H|[H|[]]]]]]; inversion H; subst;
        repeat split; try reflexivity;
        try (intros E; discriminate E); right; reflexivity. }
  pose proof (H name) as Hn.
  pose proof (H (replace_hyphens name)) as Hi.
  unfold index_property_name.
  destruct (_update_property_name name) as [n w].
  destruct Hn as (H1 & H2 & H3 & H4).
  split; [exact H1|]. split; [exact H2|]. split; [exact H3|].
  split; [exact H4|]. split; [reflexivity|].
  destruct (String.eqb (replace_hyphens name) ALIGNMENT) eqn:Ea.
  - apply String.eqb_eq in Ea. rewrite Ea. cbn.
    split; [reflexivity|]. split; [reflexivity|].
    split; [discriminate | intros [_ C]; exfalso; apply C; reflexivity].
  - apply String.eqb_neq in Ea.
    destruct (_update_property_name_cases (replace_hyphens name))
      as [[E D]|[v [HIn E]]]; rewrite E; cbn [app].
    + split; [exact D|].
      split; [intros C; exfalso; apply Ea; exact C|].
      split; [intros _; split; [reflexivity | exact Ea] | reflexivity].
    + simpl in HIn.
      destruct HIn as [X|[X|[X|[X|[X|[]]]]]]; injection X as Xn Xv;
        subst v; rewrite <- Xn;
        (split; [reflexivity|]); (split; [discriminate|]);
        (split; [discriminate | intros [C _]; discriminate C]).
Qed.

(** X18. [alignment] read after [align_items] was set, and written
    back, leaves [align_items] as it was, for every direction and text
    direction: the value read fits the direction, and a style that stores
    it answers the original [align_items]. *)
Theorem align_items_survives_alignment (self : Declared) (a : AlignItems) :
  exists x,
    fst (getattribute_alignment (setattr_align_items self a)) = Some x
    /\ alignment_fits (direction (stored self)) x = true
    /\ getattribute_align_items (fst (setattr_alignment self x)) = Some a.
Proof.
  destruct self as [[d ai w h f mt mr mb ml td] al].
  unfold getattribute_alignment, setattr_align_items, setattr_alignment,
    getattribute_align_items, with_align_items.
  cbn [fst stored stored_alignment align_items direction text_direction].
  destruct a, d, td; eexists; repeat split.
Qed.

(** X19. [align_items] read after [alignment] was set: when the value
    fits the direction of the style ([TOP], [BOTTOM] in a row, [LEFT],
    [RIGHT] in a column, [CENTER] in both), writing the answer back
    leaves [alignment] as it was; when it does not fit, [align_items]
    reads as unset. *)
Theorem alignment_survives_align_items (self : Declared)
    (x : Alignment.t) :
  if alignment_fits (direction (stored self)) x then
    exists a,
      getattribute_align_items (fst (setattr_alignment self x)) = Some a
      /\ fst (getattribute_alignment (setattr_align_items self a)) = Some x
  else getattribute_align_items (fst (setattr_alignment self x)) = None.
Proof.
  destruct self as [[d ai w h f mt mr mb ml td] al].
  unfold getattribute_alignment, setattr_align_items, setattr_alignment,
    getattribute_align_items, with_align_items, alignment_fits.
  cbn [fst stored stored_alignment align_items direction text_direction].
  destruct x, d, td; try reflexivity; eexists; split; reflexivity.
Qed.

Lemma run_align_op_exclusive (self : Declared) (op : AlignOp) :
  let self' := run_align_op self op in
  (stored_alignment self' = None \/ align_items (stored self') = None)
  /\ with_align_items (stored self') None
     = with_align_items (stored self) None.
Proof. destruct op; cbn; split; auto. Qed.

(** X20. After any non-empty sequence of assignments and deletions of
    [align_items] and [alignment], at most one of the two is stored, and
    the other properties of the style are untouched. *)
Theorem alignment_never_set_with_align_items (self : Declared)
    (ops : list AlignOp) :
  ops <> [] ->
  let self' := fold_left run_align_op ops self in
  (stored_alignment self' = None \/ align_items (stored self') = None)
  /\ with_align_items (stored self') None
     = with_align_items (stored self) None.
Proof.
  induction ops as [|op ops IH] using rev_ind; [congruence|].
  intros _. rewrite fold_left_app. cbn [fold_left].
  destruct (run_align_op_exclusive (fold_left run_align_op ops self) op)
    as [H1 H2].
  split; [exact H1|]. cbv zeta in H2 |- *. rewrite H2.
  destruct ops as [|o ops']; [reflexivity|].
  apply IH. discriminate.
Qed.

(** X21. In a column, the deprecated [alignment] is physical: with
    [alignment = LEFT] pass 4 of [_layout_column_children] puts every
    child at its left margin, and with [alignment = RIGHT] at the right
    edge less its right margin, under both text directions. *)
Theorem alignment_is_physical_in_columns (self : Declared) (width : Q)
    (child : Node) :
  direction (stored self) = COLUMN ->
  (stored_alignment self = Some Alignment.LEFT ->
   column_pass4 (as_read self) width child
   = set_content_left child (inject_Z (margin_left (style child))))
  /\
  (stored_alignment self = Some Alignment.RIGHT ->
   column_pass4 (as_read self) width child
   = set_content_left child
       (width
        - (inject_Z (content_width (layout child))
           + inject_Z (margin_left (style child))
           + inject_Z (margin_right (style child)))
        + inject_Z (margin_left (style child)))).
Proof.
  destruct self as [[d ai w h f mt mr mb ml td] al].
  cbn [stored stored_alignment direction]. intros ->.
  unfold column_pass4, as_read, getattribute_align_items, with_align_items.
  cbn [stored stored_alignment direction text_direction align_items].
  split; intros ->; destruct td; reflexivity.
Qed.

(** ** [apply] *)

Lemma look_up_the_chain_spec (widget : Widget) :
  look_up_the_chain widget VISIBLE
  = if existsb (fun a => _hidden (widget_visibility a)) (ancestors widget)
    then HIDDEN else VISIBLE.
Proof.
  revert widget. fix IH 1. intros [v [p|]]; [|reflexivity].
  cbn [look_up_the_chain ancestors existsb].
  destruct (_hidden (widget_visibility p)); [reflexivity|].
  cbn [orb]. apply IH.
Qed.

Lemma Value_eqb_eq (a b : Value) : Value_eqb a b = true <-> a = b.
Proof.
  destruct a, b; simpl; split; intros H; try discriminate;
    try reflexivity.
  - apply String.eqb_eq in H. subst. reflexivity.
  - inversion H. apply String.eqb_refl.
  - apply Nat.eqb_eq in H. subst. reflexivity.
  - inversion H. apply Nat.eqb_refl.
Qed.

(** X22. [apply] on [visibility] makes one call, [set_hidden]; the widget
    is hidden exactly when the value is [HIDDEN], or the value is
    [VISIBLE] and the style of some ancestor of the widget is hidden. *)
Theorem hidden_ancestor_hides (self : Applied) (widget : Widget)
    (value : Value) :
  _applicator self = Some widget ->
  exists hidden,
    Pack_apply self "visibility" value = [set_hidden hidden]
    /\ (hidden = true <->
        value = HIDDEN
        \/ (value = VISIBLE
            /\ Exists (fun a => widget_visibility a = HIDDEN)
                 (ancestors widget))).
Proof.
  intros Ha. unfold Pack_apply. rewrite Ha. cbn [String.eqb Ascii.eqb Bool.eqb].
  eexists. split; [reflexivity|].
  destruct (Value_eqb value VISIBLE) eqn:Ev.
  - apply Value_eqb_eq in Ev. subst value.
    rewrite look_up_the_chain_spec.
    destruct (existsb _ (ancestors widget)) eqn:Ex.
    + split; [intros _|reflexivity]. right. split; [reflexivity|].
      apply existsb_exists in Ex. apply Exists_exists.
      destruct Ex as [a [Hin Hh]]. exists a. split; [exact Hin|].
      apply Value_eqb_eq. exact Hh.
    + split; [discriminate|]. intros [H|[_ H]]; [discriminate H|].
      apply Exists_exists in H. destruct H as [a [Hin Hh]].
      assert (X : existsb (fun a => _hidden (widget_visibility a))
                    (ancestors widget) = true).
      { apply existsb_exists. exists a. split; [exact Hin|].
        apply Value_eqb_eq. exact Hh. }
      congruence.
  - rewrite Value_eqb_eq. split; [auto|]. intros [H|[H _]]; [exact H|].
    subst value. discriminate Ev.
Qed.

(** X23. The text alignment that [apply] hands to the applicator: an
    explicit value as it is; for an unset [text_align], [RIGHT] when the
    text direction is right-to-left and [LEFT] otherwise, both when
    [text_align] is applied and when the text direction is; and a change
    of text direction makes no call while [text_align] is set. *)
Theorem text_align_follows_text_direction (self : Applied) (widget : Widget) :
  _applicator self = Some widget ->
  let default :=
    match self_text_direction self with RTL => RIGHT | LTR => LEFT end in
  Pack_apply self "text_align" PyNone = [set_text_align default]
  /\ (forall value,
        value <> PyNone ->
        Pack_apply self "text_align" value = [set_text_align value])
  /\ (self_text_align self = PyNone ->
      Pack_apply self "text_direction"
        (text_direction_value (self_text_direction self))
      = [set_text_align default])
  /\ (self_text_align self <> PyNone ->
      forall value, Pack_apply self "text_direction" value = []).
Proof.
  intros Ha. unfold Pack_apply. rewrite Ha. cbn [String.eqb Ascii.eqb Bool.eqb].
  repeat split.
  - intros value Hv. destruct value; [congruence | reflexivity..].
  - intros ->. destruct (self_text_direction self); reflexivity.
  - intros Hn value. destruct (self_text_align self);
      [congruence | reflexivity..].
Qed.

(** ** The further theorems at sample inputs *)




Lemma layout_ignores_previous_boxes_witness :
  Pack_layout stretch_row 100 50
  = Pack_layout (Pack_layout stretch_row 100 50) 100 50.
Proof.
  apply (layout_ignores_previous_boxes stretch_row
           (Pack_layout stretch_row 100 50) 100 50);
    [reflexivity | reflexivity |].
  repeat (constructor; try reflexivity).
Defined.



Lemma row_flex_allocation_witness :
  let node_children :=
    fst (_layout_row_children _layout_node plain_style flex_row
           (inject_Z 100) 50 true true) in
  total row_flex_weight (children flex_row) < 2 ^ 53 /\
  Qabs (inject_Z 100 - total row_pass1_estimate node_children) < 2 ^ 53 /\
  Forall2 (fun c c' =>
     row_deferred c = true ->
     exists alloc left top,
       alloc == row_flex_alloc (row_quantum (inject_Z 100) node_children) c
       /\ c' = set_position (_layout_node c alloc 50 true (is_row c)) left top)
    (children flex_row) node_children.
Proof.
  intros node_children.
  split; [vm_compute; reflexivity|]. split; [vm_compute; reflexivity|].
  apply (row_flex_allocation _layout_node _layout_node_style
           _layout_node_intrinsic plain_style flex_row 100 50 true true).
  - repeat constructor; intros _; [exists 1%Z | exists 3%Z];
      (split; [reflexivity | lia]).
  - vm_compute. reflexivity.
  - vm_compute. reflexivity.
Defined.

Lemma row_flex_never_overflows_witness :
  total row_flex_weight (children flex_row) < 2 ^ 53 /\
  inject_Z 100
  - total row_pass1_estimate
      (fst (_layout_row_children _layout_node plain_style flex_row
              (inject_Z 100) 50 true true))
  < 2 ^ 51 /\
  let '(node_children, (_, width, _, _)) :=
    _layout_row_children _layout_node plain_style flex_row (inject_Z 100) 50
      true true in
  total outer_width node_children
  <= Qmax (inject_Z 100) (total row_pass1_estimate node_children)
  /\ (true = true ->
      total row_pass1_estimate node_children <= inject_Z 100 ->
      width == inject_Z 100).
Proof.
  split; [vm_compute; reflexivity|]. split; [vm_compute; reflexivity|].
  apply (row_flex_never_overflows plain_style flex_row 100 50 true true).
  - repeat constructor; try discriminate; try (cbn; lia);
      [exists 1%Z | exists 3%Z]; (split; [reflexivity | lia]).
  - vm_compute. reflexivity.
  - vm_compute. reflexivity.
Defined.

Lemma column_flex_allocation_witness :
  let node_children :=
    fst (_layout_column_children _layout_node (style flex_column) flex_column
           50 (inject_Z 100) true true) in
  total column_flex_weight (children flex_column) < 2 ^ 53 /\
  Qabs (inject_Z 100 - total column_pass1_estimate node_children) < 2 ^ 53 /\
  Forall2 (fun c c' =>
     column_deferred c = true ->
     exists alloc left top,
       alloc
       == column_flex_alloc (column_quantum (inject_Z 100) node_children) c
       /\ c' = set_position (_layout_node c 50 alloc (is_column c) true)
                 left top)
    (children flex_column) node_children.
Proof.
  intros node_children.
  split; [vm_compute; reflexivity|]. split; [vm_compute; reflexivity|].
  apply (column_flex_allocation _layout_node _layout_node_style
           _layout_node_intrinsic (style flex_column) flex_column 50 100 true
           true).
  - repeat constructor; intros _; [exists 1%Z | exists 3%Z];
      (split; [reflexivity | lia]).
  - vm_compute. reflexivity.
  - vm_compute. reflexivity.
Defined.

Lemma column_flex_never_overflows_witness :
  total column_flex_weight (children flex_column) < 2 ^ 53 /\
  inject_Z 100
  - total column_pass1_estimate
      (fst (_layout_column_children _layout_node (style flex_column)
              flex_column 50 (inject_Z 100) true true))
  < 2 ^ 51 /\
  let '(node_children, (_, _, _, height)) :=
    _layout_column_children _layout_node (style flex_column) flex_column
      50 (inject_Z 100) true true in
  total outer_height node_children
  <= Qmax (inject_Z 100) (total column_pass1_estimate node_children)
  /\ (true = true ->
      total column_pass1_estimate node_children <= inject_Z 100 ->
      height == inject_Z 100).
Proof.
  split; [vm_compute; reflexivity|]. split; [vm_compute; reflexivity|].
  apply (column_flex_never_overflows (style flex_column) flex_column 50 100
           true true).
  - repeat constructor; try discriminate; try (cbn; lia);
      [exists 1%Z | exists 3%Z]; (split; [reflexivity | lia]).
  - vm_compute. reflexivity.
  - vm_compute. reflexivity.
Defined.

Lemma alignment_never_set_with_align_items_witness :
  let self' :=
    fold_left run_align_op [set_alignment Alignment.LEFT; set_align_items END]
      left_aligned_column in
  (stored_alignment self' = None \/ align_items (stored self') = None)
  /\ with_align_items (stored self') None
     = with_align_items (stored left_aligned_column) None.
Proof.
  apply (alignment_never_set_with_align_items left_aligned_column
           [set_alignment Alignment.LEFT; set_align_items END]).
  discriminate.
Defined.

Lemma alignment_is_physical_in_columns_witness :
  (stored_alignment left_aligned_column = Some Alignment.LEFT ->
   column_pass4 (as_read left_aligned_column) 30 short_child
   = set_content_left short_child
       (inject_Z (margin_left (style short_child))))
  /\
  (stored_alignment left_aligned_column = Some Alignment.RIGHT ->
   column_pass4 (as_read left_aligned_column) 30 short_child
   = set_content_left short_child
       (30
        - (inject_Z (content_width (layout short_child))
           + inject_Z (margin_left (style short_child))
           + inject_Z (margin_right (style short_child)))
        + inject_Z (margin_left (style short_child)))).
Proof.
  apply (alignment_is_physical_in_columns left_aligned_column 30
           short_child).
  reflexivity.
Defined.

Lemma hidden_ancestor_hides_witness :
  exists hidden,
    Pack_apply applied_style "visibility" VISIBLE = [set_hidden hidden]
    /\ (hidden = true <->
        VISIBLE = HIDDEN
        \/ (VISIBLE = VISIBLE
            /\ Exists (fun a => widget_visibility a = HIDDEN)
                 (ancestors widget_under_hidden_parent))).
Proof.
  apply (hidden_ancestor_hides applied_style widget_under_hidden_parent
           VISIBLE).
  reflexivity.
Defined.

Lemma text_align_follows_text_direction_witness :
  let default :=
    match self_text_direction applied_style with
    | RTL => RIGHT
    | LTR => LEFT
    end in
  Pack_apply applied_style "text_align" PyNone = [set_text_align default]
  /\ (forall value,
        value <> PyNone ->
        Pack_apply applied_style "text_align" value = [set_text_align value])
  /\ (self_text_align applied_style = PyNone ->
      Pack_apply applied_style "text_direction"
        (text_direction_value (self_text_direction applied_style))
      = [set_text_align default])
  /\ (self_text_align applied_style <> PyNone ->
      forall value, Pack_apply applied_style "text_direction" value = []).
Proof.
  apply (text_align_follows_text_direction applied_style
           widget_under_hidden_parent).
  reflexivity.
Defined.
